(** * Sliding Brick Puzzle: a shallow embedding of the search engine

    The development follows the C sources of the repository:

    - [definitions.h]              moves and search nodes,
    - [sliding_brick_puzzle.c]     the board, the move generator, [applyMove],
                                   [normalizeState],
    - [utilities/state_hash_table.c]  the table of visited states,
    - [utilities/bfs_fifo_queue.c], [utilities/dfs_filo_stack.c]  the frontiers,
    - [breadth_first_search.c], [depth_first_search.c], [a_star_search.c]
                                   the search drivers.

    Conventions.  A C [int] is a [Z].  Signed overflow is undefined in C:
    where a counter is not bounded by the size of the grid or by the number
    of nodes the program has allocated (the running total of
    [getHashKeyIndex], the depth counter of [interativeDeepeningSearch]),
    the value is checked with [int_of].  The conversion to [char] in
    [getStateHashKey] wraps explicitly.  Loop indices over the grid are
    naturals: the code only ever forms [i - 1] or [j - 1] behind an [i == 0]
    or [j == 0] test.  A board is the list of its rows; the globals
    [board_height], [board_width] and [max_block_num] form the class
    [Globals].  An access outside an array, through a dangling pointer or
    through the null pointer is outside the defined behaviour of the
    program: the function that makes it returns [None].  Memory that the
    program owns falls into four classes: boards (a heap of boards, used
    where aliasing matters), the tables of [normalizeState] and the array of
    slots of the hash table (lists with checked indices) and search nodes
    (linked chains, kept as lists of nodes that carry their address). *)

From Stdlib Require Import ZArith Lia Bool List.
From stdpp Require Import base tactics option list list_numbers numbers sets sorting.

Local Open Scope Z_scope.

(** ** definitions.h *)

Inductive Move_Direction := UP | DOWN | LEFT | RIGHT.

Record MOVE := Move { block_num : Z; direction : Move_Direction }.

#[global] Instance Move_Direction_eq_dec : EqDecision Move_Direction.
Proof. solve_decision. Defined.

#[global] Instance MOVE_eq_dec : EqDecision MOVE.
Proof. solve_decision. Defined.

(** ** Boards *)

Abbreviation board := (list (list Z)).

(** Boards live in memory and are passed by address: the heap of boards,
    indexed by address. *)
Abbreviation board_heap := (list (list (list Z))).

(** [input_state[i][j]] *)
Definition cell (b : board) (i j : nat) : Z :=
  default 0 (b !! i ≫= (.!! j)).

(** The order in which every double loop of the program visits the grid:
    [for (i = 0; i < h; i++) for (j = 0; j < w; j++)]. *)
Definition row_major (h w : nat) : list (nat * nat) :=
  flat_map (fun i => pair i <$> seq 0 w) (seq 0 h).

(** A board built cell by cell by such a double loop. *)
Definition tabulate (h w : nat) (f : nat -> nat -> Z) : board :=
  (fun i => f i <$> seq 0 w) <$> seq 0 h.

(** The globals of [sliding_brick_puzzle.c] that describe the loaded game:
    the size of the grid and the highest block number. *)
Class Globals := {
  board_height : nat;
  board_width : nat;
  max_block_num : Z
}.

Section Game.

Context `{G : Globals}.

(** What the loader hands over: a grid of the announced size whose labels
    lie between the goal label [-1] and the highest block number. *)
Record well_formed (b : board) : Prop := WellFormed {
  wf_height : length b = board_height;
  wf_width : Forall (fun row => length row = board_width) b;
  wf_labels : Forall (Forall (fun x => -1 <= x <= max_block_num)) b
}.

Definition well_formedb (b : board) : bool :=
  (length b =? board_height)%nat
  && forallb (fun row => (length row =? board_width)%nat) b
  && forallb (forallb (fun x => (-1 <=? x) && (x <=? max_block_num))) b.

(** The part of well-formedness that concerns the shape only. *)
Definition rectangular (b : board) : Prop :=
  length b = board_height /\ Forall (fun row => length row = board_width) b.

Definition in_grid (i j : nat) : Prop := (i < board_height)%nat /\ (j < board_width)%nat.

(** [cloneGameState] *)
Definition cloneGameState (orig_state : board) : board :=
  tabulate board_height board_width (cell orig_state).

(** [checkGameComplete] *)
Definition checkGameComplete (game_state : board) : bool :=
  forallb (fun '(i, j) => negb (cell game_state i j =? -1))
          (row_major board_height board_width).

(** [compareStates] *)
Definition compareStates (state_a state_b : board) : bool :=
  forallb (fun '(i, j) => cell state_a i j =? cell state_b i j)
          (row_major board_height board_width).

(** ** The move generator *)

(** The neighbour of a cell, when the index arithmetic of the code does not
    leave the naturals; the lower and right edges are checked separately. *)
Definition neighbour (d : Move_Direction) (i j : nat) : option (nat * nat) :=
  match d with
  | UP => if (i =? 0)%nat then None else Some ((i - 1)%nat, j)
  | DOWN => Some ((i + 1)%nat, j)
  | LEFT => if (j =? 0)%nat then None else Some (i, (j - 1)%nat)
  | RIGHT => Some (i, (j + 1)%nat)
  end.

(** The second and third disjuncts of each of the four tests of
    [getAvailableMoves]: the neighbouring label [v] stops block [piece_num]. *)
Definition obstructs (piece_num v : Z) : bool :=
  ((piece_num =? 2) && negb (v =? 0) && negb (v =? -1) && negb (v =? piece_num))
  || (negb (piece_num =? 2) && negb (v =? 0) && negb (v =? piece_num)).

(** The whole condition of one test, first disjunct included. *)
Definition violates (input_state : board) (piece_num : Z)
    (d : Move_Direction) (i j : nat) : bool :=
  match d with
  | UP => (i =? 0)%nat || obstructs piece_num (cell input_state (i - 1) j)
  | DOWN => (i =? board_height - 1)%nat
            || obstructs piece_num (cell input_state (i + 1) j)
  | LEFT => (j =? 0)%nat || obstructs piece_num (cell input_state i (j - 1))
  | RIGHT => (j =? board_width - 1)%nat
             || obstructs piece_num (cell input_state i (j + 1))
  end.

(** The locals of [getAvailableMoves]. *)
Record move_scan := MoveScan {
  piece_found : bool;
  up_legal : bool;
  down_legal : bool;
  left_legal : bool;
  right_legal : bool;
  num_available_moves : Z
}.

Definition move_scan_init : move_scan := MoveScan false true true true true 4.

(** [if (x_legal == true) { if (...) { x_legal = false; num_available_moves--; } }] *)
Definition check_direction (legal violated : bool) (num : Z) : bool * Z :=
  if legal then if violated then (false, num - 1) else (true, num)
  else (false, num).

(** The body of the double loop of [getAvailableMoves]. *)
Definition scan_cell (input_state : board) (piece_num : Z)
    (s : move_scan) (ij : nat * nat) : move_scan :=
  let '(i, j) := ij in
  if cell input_state i j =? piece_num then
    let '(u, n) := check_direction (up_legal s)
                     (violates input_state piece_num UP i j) (num_available_moves s) in
    let '(d, n) := check_direction (down_legal s)
                     (violates input_state piece_num DOWN i j) n in
    let '(l, n) := check_direction (left_legal s)
                     (violates input_state piece_num LEFT i j) n in
    let '(r, n) := check_direction (right_legal s)
                     (violates input_state piece_num RIGHT i j) n in
    MoveScan true u d l r n
  else s.

Definition scan_board (input_state : board) (piece_num : Z) : move_scan :=
  fold_left (scan_cell input_state piece_num)
            (row_major board_height board_width) move_scan_init.

Definition legal_flag (s : move_scan) (d : Move_Direction) : bool :=
  match d with
  | UP => up_legal s
  | DOWN => down_legal s
  | LEFT => left_legal s
  | RIGHT => right_legal s
  end.

(** The array filled at the end of [getAvailableMoves], in the order up,
    down, left, right. *)
Definition moves_of_scan (piece_num : Z) (s : move_scan) : list MOVE :=
  Move piece_num <$> filter (fun d => legal_flag s d = true) [UP; DOWN; LEFT; RIGHT].

(** [getAvailableMoves].  The out-parameter [available_moves] points to a
    cell holding a pointer to an array of moves; [None] is the cell before
    anything was stored in it.  The cell is written only when the piece was
    found with at least one move, and the count is returned in every case:
    it is still 4 when the piece is not on the board. *)
Definition getAvailableMoves (input_state : board) (piece_num : Z)
    (available_moves : option (list MOVE)) : Z * option (list MOVE) :=
  let s := scan_board input_state piece_num in
  if piece_found s then
    if 0 <? num_available_moves s
    then (num_available_moves s, Some (moves_of_scan piece_num s))
    else (num_available_moves s, available_moves)
  else (num_available_moves s, available_moves).

(** The labels [2 .. max_block_num] of the two loops of [getAllAvailableMoves]. *)
Definition movable_labels : list Z := seqZ 2 (max_block_num - 1).

(** First loop: the total count; the cell keeps what the last call stored. *)
Definition count_moves (input_state : board) (labels : list Z)
    (cell0 : option (list MOVE)) : Z * option (list MOVE) :=
  fold_left (fun '(total, c) i =>
               let '(n, c') := getAvailableMoves input_state i c in (total + n, c'))
            labels (0, cell0).

(** Second loop: [num_moves] entries are copied from whatever array the cell
    points to.  Reading through a cell never written, or past the end of the
    array, is outside the defined behaviour of the program: [None]. *)
Fixpoint copy_moves (input_state : board) (labels : list Z)
    (c : option (list MOVE)) (acc : list MOVE) : option (list MOVE) :=
  match labels with
  | [] => Some acc
  | j :: labels' =>
      let '(n, c') := getAvailableMoves input_state j c in
      if n <=? 0 then copy_moves input_state labels' c' acc
      else match c' with
           | Some arr =>
               if n <=? Z.of_nat (length arr)
               then copy_moves input_state labels' c' (acc ++ take (Z.to_nat n) arr)
               else None
           | None => None
           end
  end.

(** [getAllAvailableMoves]: the returned array; its length is the returned
    count ([getAllAvailableMoves_length]). *)
Definition getAllAvailableMoves (input_state : board) : option (list MOVE) :=
  let '(_, c) := count_moves input_state movable_labels None in
  copy_moves input_state movable_labels c [].

Definition num_total_available_moves (input_state : board) : Z :=
  fst (count_moves input_state movable_labels None).

(** ** Legal moves, in the words of the specification *)

(** A neighbouring label the block [piece_num] may move onto: empty, its
    own, and for the primary block also a goal cell. *)
Definition passable (piece_num v : Z) : Prop :=
  v = 0 \/ v = piece_num \/ (piece_num = 2 /\ v = -1).

(** "Every cell holding the label has an in-grid neighbor in that direction
    whose label is passable." *)
Definition may_move (b : board) (piece_num : Z) (d : Move_Direction) : Prop :=
  forall i j, (i < board_height)%nat -> (j < board_width)%nat ->
    cell b i j = piece_num ->
    exists i' j', neighbour d i j = Some (i', j') /\
                  (i' < board_height)%nat /\ (j' < board_width)%nat /\
                  passable piece_num (cell b i' j').

(** The label is on the board. *)
Definition label_present (b : board) (piece_num : Z) : bool :=
  existsb (fun '(i, j) => cell b i j =? piece_num) (row_major board_height board_width).

(** The moves of one block, in the order up, down, left, right. *)
Definition legal_moves (b : board) (piece_num : Z) : list MOVE :=
  moves_of_scan piece_num (scan_board b piece_num).

(** The union over every movable label present, in ascending label order. *)
Definition all_legal_moves (b : board) : list MOVE :=
  flat_map (legal_moves b) (filter (fun l => label_present b l = true) movable_labels).

(** A move whose block is on the board and may move in its direction. *)
Definition legal (b : board) (m : MOVE) : Prop :=
  label_present b (block_num m) = true /\ may_move b (block_num m) (direction m).

(** What the generator can store in an array: a legal move of a block
    whose label is one of [2 .. max_block_num]. *)
Definition produced (b : board) (m : MOVE) : Prop :=
  legal b m /\ 2 <= block_num m <= max_block_num.

(** ** Applying a move *)

(** [b[i][j] = v] on a grid already known to contain [(i, j)]. *)
Definition set_cell (b : board) (i j : nat) (v : Z) : board :=
  alter (fun row => <[j := v]> row) i b.

(** A write into the local array [temp_board[board_height][board_width]];
    a write outside of it has no defined effect. *)
Definition store (temp_board : board) (ij : nat * nat) (v : Z) : option board :=
  let '(i, j) := ij in
  if (i <? board_height)%nat && (j <? board_width)%nat
  then Some (set_cell temp_board i j v) else None.

(** A loop whose body may leave the defined behaviour of the program. *)
Fixpoint foldM {S A : Type} (f : S -> A -> option S) (l : list A) (s : S) : option S :=
  match l with
  | [] => Some s
  | x :: l' => s' ← f s x; foldM f l' s'
  end.

(** First loop of [applyMove]: the state without the block that moves. *)
Definition lift_block (input_state : board) (move : MOVE) : board :=
  tabulate board_height board_width
    (fun i j => if cell input_state i j =? block_num move then 0
                else cell input_state i j).

(** Body of the second loop: the moved copy of one cell of the block. *)
Definition drop_cell (input_state : board) (move : MOVE)
    (temp_board : board) (ij : nat * nat) : option board :=
  let '(i, j) := ij in
  if cell input_state i j =? block_num move then
    t ← neighbour (direction move) i j; store temp_board t (block_num move)
  else Some temp_board.

(** [applyMove]: the contents of [input_state] after the call, as a function
    of its contents before.  The third loop copies [temp_board] back. *)
Definition applyMove (input_state : board) (move : MOVE) : option board :=
  foldM (drop_cell input_state move) (row_major board_height board_width)
        (lift_block input_state move).

(** [applyMove] as the caller sees it: the board at [input_state] is
    overwritten. *)
Definition applyMove_in_place (hp : board_heap) (input_state : nat) (move : MOVE)
    : option board_heap :=
  b ← hp !! input_state;
  b' ← applyMove b move;
  Some (<[input_state := b']> hp).

(** [cloneGameState] as the caller sees it: a new board is allocated. *)
Definition cloneGameState_alloc (hp : board_heap) (orig_state : nat)
    : option (nat * board_heap) :=
  b ← hp !! orig_state;
  Some (length hp, hp ++ [cloneGameState b]).

(** [applyMoveCloning] *)
Definition applyMoveCloning (hp : board_heap) (input_state : nat) (move : MOVE)
    : option (nat * board_heap) :=
  '(board_clone, hp1) ← cloneGameState_alloc hp input_state;
  hp2 ← applyMove_in_place hp1 board_clone move;
  Some (board_clone, hp2).

(** ** Normalizing a state *)

(** [block_seen] and [remap] are heap arrays; an index outside the
    allocation is outside the defined behaviour of the program. *)
Definition table_get {A : Type} (t : list A) (i : Z) : option A :=
  if i <? 0 then None else t !! Z.to_nat i.

Definition table_set {A : Type} (t : list A) (i : Z) (v : A) : option (list A) :=
  if (0 <=? i) && (i <? Z.of_nat (length t))
  then Some (<[Z.to_nat i := v]> t) else None.

(** The locals of [normalizeState]. *)
Record remap_plan := RemapPlan {
  block_seen : list bool;
  remap : list Z;
  remap_counter : Z
}.

(** [block_seen[i] = false; remap[i] = 0;] *)
Definition init_entry (p : remap_plan) (i : Z) : option remap_plan :=
  bs ← table_set (block_seen p) i false;
  rm ← table_set (remap p) i 0;
  Some (RemapPlan bs rm (remap_counter p)).

(** Body of the loop that creates the re-map plan. *)
Definition plan_cell (input_state : board) (p : remap_plan) (ij : nat * nat)
    : option remap_plan :=
  let block := cell input_state ij.1 ij.2 in
  if 2 <? block then
    seen ← table_get (block_seen p) block;
    if negb seen then
      bs ← table_set (block_seen p) block true;
      rm ← table_set (remap p) block (remap_counter p);
      Some (RemapPlan bs rm (remap_counter p + 1))
    else Some p
  else Some p.

(** Body of the loop that re-maps the state in place. *)
Definition remap_cell (p : remap_plan) (input_state : board) (ij : nat * nat)
    : option board :=
  let block := cell input_state ij.1 ij.2 in
  if 2 <? block then
    v ← table_get (remap p) block;
    Some (set_cell input_state ij.1 ij.2 v)
  else Some input_state.

(** [normalizeState] with both tables holding [entries] entries: the
    contents of [input_state] after the call. *)
Definition normalizeState_with (entries : nat) (input_state : board) : option board :=
  p0 ← foldM init_entry (seqZ 0 (max_block_num + 1))
         (RemapPlan (replicate entries false) (replicate entries 0) 3);
  p ← foldM (plan_cell input_state) (row_major board_height board_width) p0;
  foldM (remap_cell p) (row_major board_height board_width) input_state.

(** [normalizeState] as written: [malloc(sizeof(..) * max_block_num)]. *)
Definition normalizeState (input_state : board) : option board :=
  normalizeState_with (Z.to_nat max_block_num) input_state.

(** ** The canonical form, in the words of the specification

    "Blocks labeled 2 and below keep their labels; blocks labeled 3 or more
    are relabeled, in the order their lowest-index cell (row-major scan) is
    first encountered, to consecutive labels starting at 3." *)

(** The labels of the grid in row-major order. *)
Definition labels_row_major (b : board) : list Z :=
  (fun ij => cell b ij.1 ij.2) <$> row_major board_height board_width.

(** The labels above 2 in the order in which a scan meets them first,
    behind those already [seen]. *)
Fixpoint first_seen (seen : list Z) (labels : list Z) : list Z :=
  match labels with
  | [] => seen
  | x :: labels' =>
      if (2 <? x) && negb (bool_decide (x ∈ seen))
      then first_seen (seen ++ [x]) labels'
      else first_seen seen labels'
  end.

Definition encounter_order (b : board) : list Z :=
  first_seen [] (labels_row_major b).

Fixpoint index_of (x : Z) (l : list Z) : option nat :=
  match l with
  | [] => None
  | y :: l' => if decide (x = y) then Some O else S <$> index_of x l'
  end.

(** The label that replaces [x] when [order] lists the blocks above 2 in
    the order of encounter: the [k]-th of them (from 0) becomes [3 + k]. *)
Definition canonical_label (order : list Z) (x : Z) : Z :=
  if 2 <? x then
    match index_of x order with
    | Some k => 3 + Z.of_nat k
    | None => 0
    end
  else x.

Definition normalize_spec (b : board) : board :=
  tabulate board_height board_width
    (fun i j => canonical_label (encounter_order b) (cell b i j)).

(** A board with its labels renamed by [sigma]. *)
Definition relabel (sigma : Z -> Z) (b : board) : board :=
  tabulate board_height board_width (fun i j => sigma (cell b i j)).

(** ** utilities/state_hash_table.c *)

Definition STATE_HASH_TABLE_SIZE : Z := 1000.

(** A C string is read up to its first zero byte. *)
Fixpoint c_string (s : list Z) : list Z :=
  match s with
  | [] => []
  | c :: s' => if c =? 0 then [] else c :: c_string s'
  end.

(** [strcmp(a, b) == 0] *)
Definition strcmp_eq (a b : list Z) : bool :=
  bool_decide (c_string a = c_string b).

(** Conversion of an [int] to a (signed, 8-bit) [char]. *)
Definition to_char (x : Z) : Z := (x + 128) mod 256 - 128.

(** The cells the key is made of: the grid without its outer ring. *)
Definition interior : list (nat * nat) :=
  flat_map (fun i => pair i <$> seq 1 (board_width - 2)) (seq 1 (board_height - 2)).

(** [getStateHashKey]: the characters written before the terminator.  The
    buffer holds [(h - 2) * (w - 2) + 1] bytes; when that is not positive
    there is no buffer to write to. *)
Definition getStateHashKey (input_state : board) : option (list Z) :=
  if 0 <? (Z.of_nat board_height - 2) * (Z.of_nat board_width - 2) + 1
  then Some ((fun '(i, j) => to_char (to_char (cell input_state i j) + 65)) <$> interior)
  else None.

(** The range of a C [int]. *)
Definition INT_MIN : Z := -2147483648.
Definition INT_MAX : Z := 2147483647.

(** The value of an [int] expression; an overflow has no defined value. *)
Definition int_of (x : Z) : option Z :=
  if (INT_MIN <=? x) && (x <=? INT_MAX) then Some x else None.

(** The loop of [getHashKeyIndex]: [running_total += hashkey[i] * (i+1)],
    in [int] arithmetic. *)
Fixpoint key_sum (s : list Z) (i running_total : Z) : option Z :=
  match s with
  | [] => Some running_total
  | c :: s' =>
      term ← int_of (c * (i + 1));
      running_total ← int_of (running_total + term);
      key_sum s' (i + 1) running_total
  end.

(** [getHashKeyIndex]; [%] truncates towards zero, so that a negative total
    gives a negative index. *)
Definition getHashKeyIndex (hashkey : list Z) : option Z :=
  running_total ← key_sum (c_string hashkey) 0 0;
  Some (Z.rem running_total STATE_HASH_TABLE_SIZE).

(** A node of a chain; its [next] pointer is its position in the chain. *)
Record HASH_TABLE_NODE := HashNode { key : list Z; value : Z }.

(** What a slot of [state_hashtable] points to: a chain of nodes, the empty
    chain being the null pointer, or nodes that [resetHashTable] has freed. *)
Inductive slot :=
  | Chain (nodes : list HASH_TABLE_NODE)
  | Freed.

(** The array [state_hashtable] of [STATE_HASH_TABLE_SIZE] slots and the
    node counter. *)
Record state_table := StateTable {
  state_hashtable : list slot;
  hash_table_node_count : Z
}.

(** [initStateHashTable] *)
Definition initStateHashTable : state_table :=
  StateTable (replicate (Z.to_nat STATE_HASH_TABLE_SIZE) (Chain [])) 0.

(** [state_hashtable[index]], followed: the index has to lie within the
    array and the slot must not point to freed nodes. *)
Definition slot_chain (t : state_table) (index : Z) : option (list HASH_TABLE_NODE) :=
  s ← table_get (state_hashtable t) index;
  match s with
  | Chain nodes => Some nodes
  | Freed => None
  end.

(** The inner loop of [resetHashTable] on one slot: the nodes of the chain
    are freed, the slot keeps pointing to the first of them. *)
Definition free_chain (s : slot) : option slot :=
  match s with
  | Chain [] => Some (Chain [])
  | Chain (_ :: _) => Some Freed
  | Freed => None
  end.

(** [resetHashTable]: the nodes are freed and the counter cleared; the slots
    themselves are cleared by the next [initStateHashTable] only. *)
Definition resetHashTable (t : state_table) : option state_table :=
  slots ← mapM free_chain (state_hashtable t);
  Some (StateTable slots 0).

(** [insertIntoStateHashTable]: the new node goes to the end of its chain. *)
Definition insertIntoStateHashTable (t : state_table) (k : list Z) (v : Z)
    : option state_table :=
  index ← getHashKeyIndex k;
  location ← slot_chain t index;
  slots ← table_set (state_hashtable t) index (Chain (location ++ [HashNode k v]));
  Some (StateTable slots (hash_table_node_count t + 1)).

Fixpoint chain_find (chain : list HASH_TABLE_NODE) (k : list Z) : Z :=
  match chain with
  | [] => -1
  | search_node :: chain' =>
      if strcmp_eq (key search_node) k then value search_node
      else chain_find chain' k
  end.

(** [getHashTableValue] *)
Definition getHashTableValue (t : state_table) (k : list Z) : option Z :=
  index ← getHashKeyIndex k;
  search_node ← slot_chain t index;
  Some (chain_find search_node k).

Fixpoint chain_update (chain : list HASH_TABLE_NODE) (k : list Z) (v : Z)
    : list HASH_TABLE_NODE :=
  match chain with
  | [] => []
  | search_node :: chain' =>
      if strcmp_eq (key search_node) k then HashNode (key search_node) v :: chain'
      else search_node :: chain_update chain' k v
  end.

(** [updateHashTableValue] *)
Definition updateHashTableValue (t : state_table) (k : list Z) (v : Z)
    : option state_table :=
  index ← getHashKeyIndex k;
  search_node ← slot_chain t index;
  slots ← table_set (state_hashtable t) index (Chain (chain_update search_node k v));
  Some (StateTable slots (hash_table_node_count t)).

(** Some node of the chain has the key. *)
Definition chain_holds (chain : list HASH_TABLE_NODE) (k : list Z) : bool :=
  existsb (fun n => strcmp_eq (key n) k) chain.

(** The key is in the table: its slot lies within the array and some node
    of the chain of the slot compares equal. *)
Definition table_holds (t : state_table) (k : list Z) : bool :=
  match getHashKeyIndex k ≫= slot_chain t with
  | Some chain => chain_holds chain k
  | None => false
  end.

(** Path costs are what the table stores: no stored value is negative. *)
Definition table_costs_nonneg (t : state_table) : Prop :=
  forall index nodes n,
    state_hashtable t !! index = Some (Chain nodes) -> n ∈ nodes -> 0 <= value n.

(** ** Search nodes and frontiers *)

(** A search node.  A pointer to a node is the node itself together with its
    address [node_addr] (nodes are numbered in allocation order); the
    [next] field, the only one written after creation, is the position of
    the node in the chain that holds it. *)
Record STATE_NODE := StateNode {
  node_addr : nat;
  path_cost : Z;
  board_state : board;
  move_from_parent : option MOVE;
  parent : option nat
}.

(** The globals of the frontiers and of the table.  [bfs_fifo] is the chain
    of nodes reached from [bfs_fifo_head], [dfs_filo] the chain reached from
    [dfs_filo_head].  [bfs_fifo_tail] is kept as an address beside the
    chain: once [removeNode] has unlinked the last node of the chain, the
    tail pointer still addresses the unlinked node. *)
Record memory := Memory {
  allocated : nat;
  bfs_fifo : list STATE_NODE;
  bfs_fifo_tail : option nat;
  dfs_filo : list STATE_NODE;
  visited : state_table
}.

Definition program_start : memory := Memory 0 [] None [] initStateHashTable.

Definition with_visited (m : memory) (t : state_table) : memory :=
  Memory (allocated m) (bfs_fifo m) (bfs_fifo_tail m) (dfs_filo m) t.

Definition with_fifo (m : memory) (chain : list STATE_NODE) : memory :=
  Memory (allocated m) chain (bfs_fifo_tail m) (dfs_filo m) (visited m).

Definition with_filo (m : memory) (chain : list STATE_NODE) : memory :=
  Memory (allocated m) (bfs_fifo m) (bfs_fifo_tail m) chain (visited m).

(** The node both [bfsEnqueue] and [dfsPushStack] create. *)
Definition new_node (m : memory) (b : board) (input_move : option MOVE)
    (parent_node : option STATE_NODE) : STATE_NODE :=
  StateNode (allocated m)
            (match parent_node with Some p => path_cost p + 1 | None => 0 end)
            b input_move (node_addr <$> parent_node).

(** [bfsEnqueue].  With an empty chain the new node becomes the head.
    Otherwise it is linked behind the node [bfs_fifo_tail] points to, which
    extends the chain only if that node is the last one of the chain. *)
Definition bfsEnqueue (m : memory) (b : board) (input_move : option MOVE)
    (parent_node : option STATE_NODE) : memory :=
  let n := new_node m b input_move parent_node in
  let chain :=
    match bfs_fifo m with
    | [] => [n]
    | _ => if bool_decide (node_addr <$> list.last (bfs_fifo m) = bfs_fifo_tail m)
           then bfs_fifo m ++ [n] else bfs_fifo m
    end in
  Memory (S (allocated m)) chain (Some (node_addr n)) (dfs_filo m) (visited m).

(** [bfsDequeue]; on an empty queue the head pointer is null and is
    dereferenced. *)
Definition bfsDequeue (m : memory) : option (STATE_NODE * memory) :=
  match bfs_fifo m with
  | [] => None
  | return_node :: new_head => Some (return_node, with_fifo m new_head)
  end.

Definition bfsQueueIsEmpty (m : memory) : bool :=
  match bfs_fifo m with [] => true | _ => false end.

(** [drainQueue] *)
Definition drainQueue (m : memory) : memory := with_fifo m [].

(** [dfsPushStack] *)
Definition dfsPushStack (m : memory) (b : board) (input_move : option MOVE)
    (parent_node : option STATE_NODE) : memory :=
  let n := new_node m b input_move parent_node in
  Memory (S (allocated m)) (bfs_fifo m) (bfs_fifo_tail m) (n :: dfs_filo m) (visited m).

(** [dfsPopStack] *)
Definition dfsPopStack (m : memory) : option (STATE_NODE * memory) :=
  match dfs_filo m with
  | [] => None
  | return_node :: new_head => Some (return_node, with_filo m new_head)
  end.

Definition dfsStackIsEmpty (m : memory) : bool :=
  match dfs_filo m with [] => true | _ => false end.

(** ** a_star_search.c: heuristic and selection *)

Definition WORST_CASE_DISTANCE : Z := 1000.

(** The four indexes [get_heuristic] tracks. *)
Record extents := Extents {
  start_block_row : Z;
  start_block_col : Z;
  end_block_row : Z;
  end_block_col : Z
}.

(** Body of the loop of [get_heuristic]. *)
Definition extend (b : board) (e : extents) (ij : nat * nat) : extents :=
  let '(i, j) := ij in
  let e :=
    if cell b i j =? 2 then
      Extents (if start_block_row e <? Z.of_nat i then Z.of_nat i else start_block_row e)
              (if start_block_col e <? Z.of_nat j then Z.of_nat j else start_block_col e)
              (end_block_row e) (end_block_col e)
    else e in
  if cell b i j =? -1 then
    Extents (start_block_row e) (start_block_col e)
            (if end_block_row e <? Z.of_nat i then Z.of_nat i else end_block_row e)
            (if end_block_col e <? Z.of_nat j then Z.of_nat j else end_block_col e)
  else e.

(** [get_heuristic] *)
Definition get_heuristic (b : board) : Z :=
  let e := fold_left (extend b) (row_major board_height board_width)
                     (Extents (-1) (-1) (-1) (-1)) in
  let row_range := end_block_row e - start_block_row e in
  let row_range := if row_range <? 0 then - row_range else row_range in
  let col_range := end_block_col e - start_block_col e in
  let col_range := if col_range <? 0 then - col_range else col_range in
  row_range + col_range.

(** [f_of_n = g_of_n + h_of_n] *)
Definition f_of_n (search_node : STATE_NODE) : Z :=
  path_cost search_node + get_heuristic (board_state search_node).

(** Body of the loop of [getBestNode] on the pair
    [(shortest_path, shortest_node)]. *)
Definition better (best : Z * option STATE_NODE) (search_node : STATE_NODE)
    : Z * option STATE_NODE :=
  if f_of_n search_node <? fst best then (f_of_n search_node, Some search_node)
  else best.

(** [getBestNode]; [None] is the null pointer. *)
Definition getBestNode (m : memory) : option STATE_NODE :=
  snd (fold_left better (bfs_fifo m) (WORST_CASE_DISTANCE, None)).

(** The loop of [removeNode]: the first node behind the head whose board
    compares equal is unlinked. *)
Fixpoint unlink (chain : list STATE_NODE) (b : board) : list STATE_NODE :=
  match chain with
  | [] => []
  | next_node :: chain' =>
      if compareStates (board_state next_node) b then chain'
      else next_node :: unlink chain' b
  end.

(** [removeNode]; the head of the queue is dereferenced first. *)
Definition removeNode (m : memory) (nodeToRemove : STATE_NODE) : option memory :=
  match bfs_fifo m with
  | [] => None
  | head :: chain =>
      if compareStates (board_state head) (board_state nodeToRemove)
      then Some (with_fifo m chain)
      else Some (with_fifo m (head :: unlink chain (board_state nodeToRemove)))
  end.

(** ** The search drivers *)

(** "Generate and Normalize Next State": [applyMoveCloning] followed by
    [normalizeState], on the contents of the boards. *)
Definition next_state (b : board) (mv : MOVE) : option board :=
  b' ← applyMove (cloneGameState b) mv; normalizeState b'.

(** What a driver hands back: the value it returns with the globals it
    leaves behind, or an execution that left the defined behaviour of the
    program, or one cut short by the bound on the number of iterations. *)
Inductive result :=
  | Returned (cost : Z) (m : memory)
  | Undefined
  | OutOfFuel.

(** The end of the body of the inner loop of [breadthFirstSearch] and of
    [aStarSearch]: "Add to FIFO Queue (if not already part of the closed
    Set)". *)
Definition bfs_visit (m : memory) (current_state_node : STATE_NODE) (mv : MOVE)
    (next_board_state : board) (next_board_depth : Z) : option memory :=
  next_board_hash ← getStateHashKey next_board_state;
  hash_table_value ← getHashTableValue (visited m) next_board_hash;
  if 0 <=? hash_table_value then Some m
  else
    let m := bfsEnqueue m next_board_state (Some mv) (Some current_state_node) in
    t ← insertIntoStateHashTable (visited m) next_board_hash next_board_depth;
    Some (with_visited m t).

(** The same place in [generalDepthFirstSearch]. *)
Definition dfs_visit (m : memory) (current_state_node : STATE_NODE) (mv : MOVE)
    (next_board_state : board) (next_board_depth : Z) : option memory :=
  next_board_hash ← getStateHashKey next_board_state;
  hash_table_value ← getHashTableValue (visited m) next_board_hash;
  if hash_table_value <? 0 then
    let m := dfsPushStack m next_board_state (Some mv) (Some current_state_node) in
    t ← insertIntoStateHashTable (visited m) next_board_hash next_board_depth;
    Some (with_visited m t)
  else if next_board_depth <? hash_table_value then
    let m := dfsPushStack m next_board_state (Some mv) (Some current_state_node) in
    t ← updateHashTableValue (visited m) next_board_hash next_board_depth;
    Some (with_visited m t)
  else Some m.

(** The inner loop [for (i = 0; i < num_moves; i++)], which the three
    drivers share up to the treatment of a successor that is not a goal. *)
Inductive expansion :=
  | GoalReached (next_board_depth : Z) (m : memory)
  | Expanded (m : memory)
  | Broken.

(** The body of the inner loop behind "Generate and Normalize Next State":
    the goal test on the successor and its way into the frontier. *)
Definition visit_successor
    (visit : memory -> STATE_NODE -> MOVE -> board -> Z -> option memory)
    (m : memory) (current_state_node : STATE_NODE) (mv : MOVE)
    (next_board_state : board) : expansion :=
  let next_board_depth := path_cost current_state_node + 1 in
  if checkGameComplete next_board_state then GoalReached next_board_depth m
  else match visit m current_state_node mv next_board_state next_board_depth with
       | None => Broken
       | Some m' => Expanded m'
       end.

Fixpoint expand (visit : memory -> STATE_NODE -> MOVE -> board -> Z -> option memory)
    (m : memory) (current_state_node : STATE_NODE) (available_moves : list MOVE)
    : expansion :=
  match available_moves with
  | [] => Expanded m
  | mv :: moves' =>
      match next_state (board_state current_state_node) mv with
      | None => Broken
      | Some next_board_state =>
          match visit_successor visit m current_state_node mv next_board_state with
          | Expanded m' => expand visit m' current_state_node moves'
          | stop => stop
          end
      end
  end.

(** "Generate list of legal moves from Current State" and the inner loop. *)
Definition expand_node (visit : memory -> STATE_NODE -> MOVE -> board -> Z -> option memory)
    (m : memory) (current_state_node : STATE_NODE) : expansion :=
  match getAllAvailableMoves (board_state current_state_node) with
  | None => Broken
  | Some available_moves => expand visit m current_state_node available_moves
  end.

(** The part all drivers start with: the root node enters the frontier, the
    table is initialised and receives the key of the root at cost 0. *)
Definition seed (enter : memory -> board -> option MOVE -> option STATE_NODE -> memory)
    (m : memory) (root : board) : option memory :=
  let m := enter m root None None in
  k ← getStateHashKey root;
  t ← insertIntoStateHashTable initStateHashTable k 0;
  Some (with_visited m t).

(** The [while] loop of [breadthFirstSearch]. *)
Fixpoint bfs_loop (fuel : nat) (m : memory) : result :=
  match fuel with
  | O => OutOfFuel
  | S fuel' =>
      match bfsDequeue m with
      | None => Returned (-1) m
      | Some (current_state_node, m) =>
          match expand_node bfs_visit m current_state_node with
          | GoalReached d m => Returned d m
          | Expanded m => bfs_loop fuel' m
          | Broken => Undefined
          end
      end
  end.

(** [breadthFirstSearch] *)
Definition breadthFirstSearch (fuel : nat) (m : memory) (root : board) : result :=
  match seed bfsEnqueue m root with
  | None => Undefined
  | Some m => bfs_loop fuel m
  end.

(** The [while] loop of [generalDepthFirstSearch]. *)
Fixpoint dfs_loop (fuel : nat) (depth_limited : bool) (max_depth : Z) (m : memory)
    : result :=
  match fuel with
  | O => OutOfFuel
  | S fuel' =>
      match dfsPopStack m with
      | None => Returned (-1) m
      | Some (current_state_node, m) =>
          if negb depth_limited || (path_cost current_state_node <? max_depth) then
            match expand_node dfs_visit m current_state_node with
            | GoalReached d m => Returned d m
            | Expanded m => dfs_loop fuel' depth_limited max_depth m
            | Broken => Undefined
            end
          else dfs_loop fuel' depth_limited max_depth m
      end
  end.

(** [generalDepthFirstSearch] *)
Definition generalDepthFirstSearch (fuel : nat) (m : memory) (root : board)
    (depth_limited : bool) (max_depth : Z) : result :=
  match seed dfsPushStack m root with
  | None => Undefined
  | Some m => dfs_loop fuel depth_limited max_depth m
  end.

(** [depthFirstSearch] *)
Definition depthFirstSearch (fuel : nat) (m : memory) (root : board) : result :=
  generalDepthFirstSearch fuel m root false 0.

(** [depthLimitedSearch] *)
Definition depthLimitedSearch (fuel : nat) (m : memory) (root : board) (max_depth : Z)
    : result :=
  generalDepthFirstSearch fuel m root true max_depth.

(** The [while] loop of [interativeDeepeningSearch]: [rounds] bounds the
    number of rounds, [fuel] the iterations of each depth-limited search.
    [++search_depth] is an [int] increment. *)
Fixpoint ids_loop (rounds fuel : nat) (m : memory) (root : board) (search_depth : Z)
    : result :=
  match rounds with
  | O => OutOfFuel
  | S rounds' =>
      match resetHashTable (visited m) with
      | None => Undefined
      | Some t =>
          let m := with_visited m t in
          match int_of (search_depth + 1) with
          | None => Undefined
          | Some search_depth =>
              match depthLimitedSearch fuel m root search_depth with
              | Returned search_result m =>
                  if 0 <? search_result then Returned search_depth m
                  else ids_loop rounds' fuel m root search_depth
              | Undefined => Undefined
              | OutOfFuel => OutOfFuel
              end
          end
      end
  end.

(** [interativeDeepeningSearch] *)
Definition interativeDeepeningSearch (rounds fuel : nat) (m : memory) (root : board)
    : result :=
  ids_loop rounds fuel m root 0.

(** The [while] loop of [aStarSearch]: the node [getBestNode] returns is
    handed to [removeNode] and then read, whatever it is. *)
Fixpoint astar_loop (fuel : nat) (m : memory) : result :=
  match fuel with
  | O => OutOfFuel
  | S fuel' =>
      if bfsQueueIsEmpty m then Returned (-1) m
      else
        match getBestNode m with
        | None => Undefined
        | Some current_state_node =>
            match removeNode m current_state_node with
            | None => Undefined
            | Some m =>
                match expand_node bfs_visit m current_state_node with
                | GoalReached d m => Returned d m
                | Expanded m => astar_loop fuel' m
                | Broken => Undefined
                end
            end
        end
  end.

(** [aStarSearch] *)
Definition aStarSearch (fuel : nat) (m : memory) (root : board) : result :=
  match seed bfsEnqueue (drainQueue m) root with
  | None => Undefined
  | Some m => astar_loop fuel m
  end.

(** ** The puzzle, in the words of the specification *)

(** One move of the puzzle: "apply" a legal move of a movable block, then
    "normalize". *)
Definition step (b nb : board) : Prop :=
  exists mv b', produced b mv /\ applyMove b mv = Some b' /\ nb = normalize_spec b'.

(** [n] moves lead from [b] to a solved state. *)
Fixpoint moves_to_solved (n : nat) (b : board) : Prop :=
  match n with
  | O => checkGameComplete b = true
  | S n' => exists nb, step b nb /\ moves_to_solved n' nb
  end.

(** "The minimum number of moves from the root to a solved state." *)
Definition minimum_moves (root : board) (k : nat) : Prop :=
  moves_to_solved k root /\ forall n, moves_to_solved n root -> (k <= n)%nat.

End Game.

(** * Definitions used by the proofs *)

Section ProofDefinitions.
Context `{G : Globals}.

(** The tables after the scan has met the labels of [order], in this order. *)
Definition plan_inv (entries : nat) (p : remap_plan) (order : list Z) : Prop :=
  length (block_seen p) = entries /\
  length (remap p) = entries /\
  remap_counter p = 3 + Z.of_nat (length order) /\
  (forall x, 0 <= x < Z.of_nat entries ->
     table_get (block_seen p) x = Some (bool_decide (x ∈ order))) /\
  (forall x, 0 <= x < Z.of_nat entries ->
     table_get (remap p) x =
     Some (match index_of x order with Some k => 3 + Z.of_nat k | None => 0 end)).

(** "Top-to-bottom, then left-to-right": the first cell is read before the
    second. *)
Definition read_before (ij ij' : nat * nat) : Prop :=
  (ij.1 < ij'.1)%nat \/ (ij.1 = ij'.1 /\ (ij.2 < ij'.2)%nat).

(** The block labeled [x] is met before the block labeled [y]: one of its
    cells is read before every cell of the other. *)
Definition met_before (b : board) (x y : Z) : Prop :=
  exists i j, (i < board_height)%nat /\ (j < board_width)%nat /\ cell b i j = x /\
    forall i' j', (i' < board_height)%nat -> (j' < board_width)%nat ->
                  cell b i' j' = y -> read_before (i, j) (i', j').

(** The cell does not forbid direction [d] to block [piece_num]. *)
Definition cell_allows (b : board) (piece_num : Z) (d : Move_Direction)
    (ij : nat * nat) : bool :=
  negb ((cell b ij.1 ij.2 =? piece_num) && violates b piece_num d ij.1 ij.2).

(** [num_available_moves] counts the directions still legal. *)
Definition count_consistent (s : move_scan) : Prop :=
  num_available_moves s
  = Z.of_nat (length (filter (fun d => legal_flag s d = true) [UP; DOWN; LEFT; RIGHT])).

(** The array the out-parameter cell points to, if any, holds such moves. *)
Definition cell_legal (b : board) (c : option (list MOVE)) : Prop :=
  forall arr, c = Some arr -> Forall (produced b) arr.

(** The cell [(i, j)] is where a cell of the moving block lands. *)
Definition covered (b : board) (m : MOVE) (i j : nat) : Prop :=
  exists i0 j0, (i0 < board_height)%nat /\ (j0 < board_width)%nat /\
                cell b i0 j0 = block_num m /\
                neighbour (direction m) i0 j0 = Some (i, j).

(** The same for the cells of the block among [ps], as the loop sees it. *)
Definition stamped (b : board) (m : MOVE) (ps : list (nat * nat)) (i j : nat) : bool :=
  existsb (fun ij0 => (cell b ij0.1 ij0.2 =? block_num m)
                      && bool_decide (neighbour (direction m) ij0.1 ij0.2 = Some (i, j))) ps.

(** The root node a driver creates at program start. *)
Definition root_node (b : board) : STATE_NODE := StateNode 0 0 b None None.

(** The characters of the key of a board. *)
Definition key_of (b : board) : list Z :=
  (fun '(i, j) => to_char (to_char (cell b i j) + 65)) <$> interior.

(** [bfs_fifo_tail] addresses the last node of the queue. *)
Definition fifo_linked (m : memory) : Prop :=
  bfs_fifo m = [] \/ node_addr <$> list.last (bfs_fifo m) = bfs_fifo_tail m.

(** The grid is small enough for the key of every well-formed board to
    index a slot of the table: with labels up to 62 the characters of a key
    lie between 64 and 127, and with at most 4000 of them the running total
    of [getHashKeyIndex] stays within the [int] range. *)
Definition keys_fit : Prop :=
  max_block_num <= 62 /\
  0 <= (Z.of_nat board_height - 2) * (Z.of_nat board_width - 2) <= 4000.

(** The table holds no slot whose nodes have been freed. *)
Definition table_live (t : state_table) : Prop :=
  length (state_hashtable t) = Z.to_nat STATE_HASH_TABLE_SIZE /\
  Freed ∉ state_hashtable t.

(** The successors of a board, in the words of the specification. *)
Definition successors (b : board) : list board :=
  omap (fun mv => normalize_spec <$> applyMove b mv) (all_legal_moves b).

(** [moves_to_solved], by enumeration of the moves. *)
Fixpoint solved_within (n : nat) (b : board) : bool :=
  match n with
  | O => checkGameComplete b
  | S n' => existsb (solved_within n') (successors b)
  end.

(** [minimum_moves], decided the same way. *)
Definition minimum_movesb (b : board) (k : nat) : bool :=
  solved_within k b && forallb (fun n => negb (solved_within n b)) (seq 0 k).

End ProofDefinitions.

(** ** The boards of the examples *)

(** A level with two interchangeable blocks above the primary block. *)
Definition level_globals : Globals := Build_Globals 4 5 4.

Definition level_board : board :=
  [[1; -1; -1; 1; 1]; [1; 0; 4; 3; 1]; [1; 0; 2; 2; 1]; [1; 1; 1; 1; 1]].

(** The same level with the labels of the two blocks exchanged. *)
Definition level_twin : board :=
  [[1; -1; -1; 1; 1]; [1; 0; 3; 4; 1]; [1; 0; 2; 2; 1]; [1; 1; 1; 1; 1]].

(** The renaming that exchanges the blocks 3 and 4. *)
Definition swap_3_4 (x : Z) : Z :=
  if x =? 3 then 4 else if x =? 4 then 3 else x.

(** A board on which the label 3 is missing. *)
Definition gap_globals : Globals := Build_Globals 5 5 4.

Definition gap_board : board :=
  [[1; 1; 1; 1; 1]; [1; 0; 0; 0; 1]; [1; 0; 2; 0; -1]; [1; 0; 0; 4; 1]; [1; 1; 1; 1; 1]].

(** A board without a goal cell whose only block is walled in: it is
    solved and has no legal move. *)
Definition sealed_globals : Globals := Build_Globals 3 3 2.

Definition sealed_board : board := [[1; 1; 1]; [1; 2; 1]; [1; 1; 1]].

(** A level that holds the blocks 2 to 6: the primary block reaches the
    goal cell at the left edge in two moves. *)
Definition crowded_globals : Globals := Build_Globals 4 6 6.

Definition crowded_board : board :=
  [[1; 1; 1; 1; 1; 1]; [1; 3; 4; 5; 6; 1]; [-1; 0; 2; 0; 0; 1]; [1; 1; 1; 1; 1; 1]].

(** A board whose primary block is walled in, one cell away from the goal. *)
Definition stuck_globals : Globals := Build_Globals 3 4 2.

Definition stuck_board : board := [[1; 1; 1; 1]; [1; 2; 1; -1]; [1; 1; 1; 1]].

(** The state reached from [level_board] by the move of block 2 to the left, its
    key, and the globals once the table holds this key at cost 3. *)
Definition level_next : board :=
  [[1; -1; -1; 1; 1]; [1; 0; 3; 4; 1]; [1; 2; 2; 0; 1]; [1; 1; 1; 1; 1]].

Definition level_next_key : list Z := [65; 68; 69; 67; 67; 65].

Definition level_table : state_table :=
  StateTable (<[401%nat := Chain [HashNode level_next_key 3]]>
                (replicate (Z.to_nat STATE_HASH_TABLE_SIZE) (Chain []))) 1.


(** A row of 1001 cells with the primary block at one end and the goal at
    the other: the estimate of [get_heuristic] is 1000. *)
Definition wide_globals : Globals := Build_Globals 1 1001 2.

Definition wide_board : board := [2 :: replicate 999 0 ++ [-1]].

(** ** The tables of the drivers *)

(** A table as the drivers build it: [initStateHashTable], then insertions
    and updates of path costs, which are not negative. *)
Inductive driver_table : state_table -> Prop :=
  | table_init : driver_table initStateHashTable
  | table_insert t k v t' :
      0 <= v -> driver_table t -> insertIntoStateHashTable t k v = Some t' ->
      driver_table t'
  | table_update t k v t' :
      0 <= v -> driver_table t -> updateHashTableValue t k v = Some t' ->
      driver_table t'.

(** ** Sequences of queue operations *)

(** [bfsEnqueue] for each entry of [items] in turn: a board, the move that
    led to it and its parent node. *)
Definition enqueue_all (m : memory)
    (items : list (board * option MOVE * option STATE_NODE)) : memory :=
  fold_left (fun m '(b, input_move, parent_node) => bfsEnqueue m b input_move parent_node)
            items m.

(** Two boards of the level to enqueue, and the queue that holds them. *)
Definition level_items : list (board * option MOVE * option STATE_NODE) :=
  [(level_board, None, None); (level_next, None, None)].

Definition level_queue : memory := enqueue_all program_start level_items.

(** Three nodes whose estimates are 3, 3 and 2: the best one is the last. *)
Definition level_frontier : memory :=
  enqueue_all program_start
    [(level_board, None, None); (level_twin, None, None); (level_next, None, None)].

(** ** The extents of a label *)

Section Extents.
Context `{G : Globals}.

(** The rows (columns) of the cells of [ps] that hold the label [l]. *)
Definition label_rows (b : board) (l : Z) (ps : list (nat * nat)) : list Z :=
  (fun ij => Z.of_nat ij.1) <$> filter (fun ij => cell b ij.1 ij.2 = l) ps.

Definition label_cols (b : board) (l : Z) (ps : list (nat * nat)) : list Z :=
  (fun ij => Z.of_nat ij.2) <$> filter (fun ij => cell b ij.1 ij.2 = l) ps.

(** The greatest of the indexes, -1 when there is none. *)
Definition extent (xs : list Z) : Z := fold_left Z.max xs (-1).

(** The distance between the last row and column of the goal cells and the
    last row and column of the primary block. *)
Definition extent_distance (b : board) : Z :=
  let grid := row_major board_height board_width in
  Z.abs (extent (label_rows b (-1) grid) - extent (label_rows b 2 grid))
  + Z.abs (extent (label_cols b (-1) grid) - extent (label_cols b 2 grid)).

End Extents.

(** ** Moving back *)

(** The direction that undoes a move. *)
Definition opposite (d : Move_Direction) : Move_Direction :=
  match d with
  | UP => DOWN
  | DOWN => UP
  | LEFT => RIGHT
  | RIGHT => LEFT
  end.

(** [level_board] after the move of block 4 to the left, before it is
    normalized. *)
Definition level_moved : board :=
  [[1; -1; -1; 1; 1]; [1; 4; 0; 3; 1]; [1; 0; 2; 2; 1]; [1; 1; 1; 1; 1]].

(** * Facts about grids *)

Lemma in_row_major h w i j :
  In (i, j) (row_major h w) <-> (i < h)%nat /\ (j < w)%nat.
Proof.
  unfold row_major. rewrite in_flat_map. split.
  - intros (i' & Hi & Hj). apply list_elem_of_In, list_elem_of_fmap in Hj as (j' & Heq & Hj).
    inversion Heq; subst. apply in_seq in Hi. apply elem_of_seq in Hj. lia.
  - intros [Hi Hj]. exists i. split; [apply in_seq; lia|].
    apply list_elem_of_In, list_elem_of_fmap. exists j. split; [done|apply elem_of_seq; lia].
Qed.

Lemma cell_tabulate h w f i j :
  (i < h)%nat -> (j < w)%nat -> cell (tabulate h w f) i j = f i j.
Proof.
  intros Hi Hj. unfold cell, tabulate.
  rewrite list_lookup_fmap, lookup_seq_lt by done. simpl.
  rewrite list_lookup_fmap, lookup_seq_lt by done. done.
Qed.

Lemma tabulate_length h w f : length (tabulate h w f) = h.
Proof. unfold tabulate. by rewrite length_fmap, length_seq. Qed.

Lemma tabulate_rows h w f : Forall (fun row => length row = w) (tabulate h w f).
Proof.
  unfold tabulate. apply list.Forall_forall. intros row Hrow.
  apply list_elem_of_fmap in Hrow as (i & -> & _). by rewrite length_fmap, length_seq.
Qed.

Lemma cell_lookup (b : board) i j row :
  b !! i = Some row -> cell b i j = default 0 (row !! j).
Proof. intros H. unfold cell. by rewrite H. Qed.

Lemma cell_outside_rows (b : board) i j : (length b <= i)%nat -> cell b i j = 0.
Proof. intros H. unfold cell. by rewrite lookup_ge_None_2. Qed.

(** Two grids of the same shape with the same cells are the same grid. *)
Lemma board_ext h w (b1 b2 : board) :
  length b1 = h -> Forall (fun row => length row = w) b1 ->
  length b2 = h -> Forall (fun row => length row = w) b2 ->
  (forall i j, (i < h)%nat -> (j < w)%nat -> cell b1 i j = cell b2 i j) ->
  b1 = b2.
Proof.
  intros Hl1 Hw1 Hl2 Hw2 Hcell. apply list_eq_same_length with h; [done..|].
  intros i r1 r2 Hi Hr1 Hr2.
  assert (length r1 = w) as Hlr1.
  { eapply list.Forall_forall in Hw1; [exact Hw1|]. by eapply list_elem_of_lookup_2. }
  assert (length r2 = w) as Hlr2.
  { eapply list.Forall_forall in Hw2; [exact Hw2|]. by eapply list_elem_of_lookup_2. }
  apply list_eq_same_length with w; [done..|].
  intros j x y Hj Hx Hy. specialize (Hcell i j Hi Hj).
  rewrite (cell_lookup _ _ _ _ Hr1), (cell_lookup _ _ _ _ Hr2), Hx, Hy in Hcell.
  done.
Qed.

Lemma set_cell_length (b : board) i j v : length (set_cell b i j v) = length b.
Proof. unfold set_cell. apply length_alter. Qed.

Lemma set_cell_rows w (b : board) i j v :
  Forall (fun row => length row = w) b ->
  Forall (fun row => length row = w) (set_cell b i j v).
Proof.
  intros H. unfold set_cell. apply Forall_alter; [done|].
  intros row _ Hrow. by rewrite length_insert.
Qed.

Lemma cell_set_cell_eq w (b : board) i j v :
  (i < length b)%nat -> Forall (fun row => length row = w) b -> (j < w)%nat ->
  cell (set_cell b i j v) i j = v.
Proof.
  intros Hi Hw Hj. destruct (lookup_lt_is_Some_2 b i Hi) as [row Hrow].
  unfold cell, set_cell. rewrite list_lookup_alter_eq, Hrow. simpl.
  rewrite list_lookup_insert_eq; [done|].
  eapply list.Forall_forall in Hw; [|by eapply list_elem_of_lookup_2]. simpl in Hw. lia.
Qed.

Lemma cell_set_cell_ne (b : board) i j v i' j' :
  (i, j) <> (i', j') -> cell (set_cell b i j v) i' j' = cell b i' j'.
Proof.
  intros Hne. unfold cell, set_cell.
  destruct (decide (i = i')) as [<-|Hi].
  - rewrite list_lookup_alter_eq. destruct (b !! i) as [row|]; [|done]. simpl.
    rewrite list_lookup_insert_ne; [done|]. congruence.
  - by rewrite list_lookup_alter_ne.
Qed.

Section GridFacts.
Context `{G : Globals}.

Lemma well_formed_rectangular b : well_formed b -> rectangular b.
Proof. intros [? ? ?]. by split. Qed.

Lemma well_formed_label b i j :
  well_formed b -> -1 <= cell b i j <= max_block_num \/ cell b i j = 0.
Proof.
  intros [_ _ Hl]. unfold cell.
  destruct (b !! i) as [row|] eqn:Hrow; simpl; [|by right].
  destruct (row !! j) as [x|] eqn:Hx; simpl; [|by right]. left.
  eapply list.Forall_forall in Hl; [|by eapply list_elem_of_lookup_2].
  eapply list.Forall_forall in Hl; [exact Hl|by eapply list_elem_of_lookup_2].
Qed.

Lemma well_formedb_spec b : well_formedb b = true <-> well_formed b.
Proof.
  unfold well_formedb. rewrite !andb_true_iff, Nat.eqb_eq. split.
  - intros [[H1 H2] H3]. split; [done| |].
    + apply list.Forall_forall. intros row Hrow. rewrite forallb_forall in H2.
      apply Nat.eqb_eq, H2. by apply list_elem_of_In.
    + apply list.Forall_forall. intros row Hrow. apply list.Forall_forall. intros x Hx.
      rewrite forallb_forall in H3. specialize (H3 row). rewrite forallb_forall in H3.
      apply list_elem_of_In in Hrow, Hx. specialize (H3 Hrow x Hx). lia.
  - intros [H1 H2 H3]. split; [split; [done|]|].
    + apply forallb_forall. intros row Hrow. apply Nat.eqb_eq.
      eapply list.Forall_forall in H2; [exact H2|]. by apply list_elem_of_In.
    + apply forallb_forall. intros row Hrow. apply forallb_forall. intros x Hx.
      apply list_elem_of_In in Hrow, Hx.
      eapply list.Forall_forall in H3; [|exact Hrow].
      eapply list.Forall_forall in H3; [|exact Hx]. simpl in H3. lia.
Qed.

(** [cloneGameState] returns a copy. *)
Lemma cloneGameState_id b : rectangular b -> cloneGameState b = b.
Proof.
  intros [Hh Hw]. unfold cloneGameState.
  apply board_ext with board_height board_width;
    [apply tabulate_length|apply tabulate_rows|done..|].
  intros i j Hi Hj. by apply cell_tabulate.
Qed.

Lemma compareStates_refl b : compareStates b b = true.
Proof.
  unfold compareStates. apply forallb_forall. intros [i j] _. apply Z.eqb_refl.
Qed.

Lemma compareStates_true a b :
  rectangular a -> rectangular b -> compareStates a b = true -> a = b.
Proof.
  intros [Ha1 Ha2] [Hb1 Hb2] H. unfold compareStates in H. rewrite forallb_forall in H.
  apply board_ext with board_height board_width; [done..|].
  intros i j Hi Hj. apply Z.eqb_eq. apply (H (i, j)). apply in_row_major. done.
Qed.

Lemma checkGameComplete_true b :
  checkGameComplete b = true <->
  forall i j, (i < board_height)%nat -> (j < board_width)%nat -> cell b i j <> -1.
Proof.
  unfold checkGameComplete. rewrite forallb_forall. split.
  - intros H i j Hi Hj. specialize (H (i, j)). simpl in H.
    rewrite negb_true_iff, Z.eqb_neq in H. apply H. by apply in_row_major.
  - intros H [i j] Hij. apply in_row_major in Hij as [Hi Hj].
    rewrite negb_true_iff, Z.eqb_neq. by apply H.
Qed.

End GridFacts.

(** * Facts about checked loops and tables *)

Lemma foldM_app {S A : Type} (f : S -> A -> option S) l1 l2 s :
  foldM f (l1 ++ l2) s = foldM f l1 s ≫= foldM f l2.
Proof.
  revert s. induction l1 as [|x l1 IH]; intros s; simpl; [done|].
  destruct (f s x) as [s'|]; simpl; [apply IH|done].
Qed.

(** An invariant of the body holds after the loop, if the loop completes. *)
Lemma foldM_invariant {S A : Type} (f : S -> A -> option S) (P : S -> Prop) l s s' :
  (forall s x s', P s -> f s x = Some s' -> P s') ->
  P s -> foldM f l s = Some s' -> P s'.
Proof.
  intros Hstep. revert s. induction l as [|x l IH]; intros s Hs Hrun; simpl in Hrun.
  - by inversion Hrun; subst.
  - destruct (f s x) as [s1|] eqn:Hf; simpl in Hrun; [|done]. eauto.
Qed.

Lemma table_set_length {A : Type} (t t' : list A) i v :
  table_set t i v = Some t' -> length t' = length t.
Proof.
  unfold table_set. destruct (_ && _); [|done]. intros [= <-]. apply length_insert.
Qed.

Lemma table_set_Some {A : Type} (t : list A) i v :
  0 <= i < Z.of_nat (length t) -> table_set t i v = Some (<[Z.to_nat i := v]> t).
Proof.
  intros H. unfold table_set.
  destruct (0 <=? i) eqn:H1; [|lia]. destruct (i <? Z.of_nat (length t)) eqn:H2; [done|lia].
Qed.

Lemma table_set_None {A : Type} (t : list A) i v :
  Z.of_nat (length t) <= i -> table_set t i v = None.
Proof.
  intros H. unfold table_set.
  destruct (i <? Z.of_nat (length t)) eqn:H2; [lia|]. by rewrite andb_false_r.
Qed.

Lemma table_get_Some {A : Type} (t : list A) i x :
  table_get t i = Some x <-> 0 <= i /\ t !! Z.to_nat i = Some x.
Proof.
  unfold table_get. destruct (i <? 0) eqn:Hi; split; intros H; try done.
  - lia.
  - split; [lia|done].
  - by destruct H.
Qed.

Lemma table_get_set {A : Type} (t t' : list A) i j v :
  table_set t i v = Some t' -> 0 <= j ->
  table_get t' j = if decide (i = j) then Some v else table_get t j.
Proof.
  unfold table_set. destruct (0 <=? i) eqn:H1; [|done].
  destruct (i <? Z.of_nat (length t)) eqn:H2; [|done]. simpl. intros [= <-] Hj.
  unfold table_get. destruct (j <? 0) eqn:H3; [lia|].
  destruct (decide (i = j)) as [->|Hne].
  - apply list_lookup_insert_eq. lia.
  - apply list_lookup_insert_ne. lia.
Qed.

Section NormalizeBounds.
Context `{G : Globals}.

Lemma init_entry_lengths p i p' :
  init_entry p i = Some p' ->
  length (block_seen p') = length (block_seen p) /\ length (remap p') = length (remap p).
Proof.
  unfold init_entry. intros H.
  destruct (table_set (block_seen p) i false) as [bs|] eqn:Hbs; simpl in H; [|done].
  destruct (table_set (remap p) i 0) as [rm|] eqn:Hrm; simpl in H; [|done].
  inversion H; subst; simpl. split; by eapply table_set_length.
Qed.

(** The initialisation loop of [normalizeState] runs [i] up to
    [max_block_num] inclusive: with tables of [max_block_num] entries its last
    iteration writes one entry past the end of [block_seen]. *)
Lemma init_loop_overruns entries :
  0 <= max_block_num -> (entries <= Z.to_nat max_block_num)%nat ->
  foldM init_entry (seqZ 0 (max_block_num + 1))
        (RemapPlan (replicate entries false) (replicate entries 0) 3) = None.
Proof.
  intros Hmax Hentries.
  rewrite seqZ_app by lia. rewrite foldM_app.
  change (seqZ (0 + max_block_num) 1) with [0 + max_block_num].
  destruct (foldM init_entry (seqZ 0 max_block_num) _) as [p|] eqn:Hrun; [|done].
  simpl. apply (foldM_invariant _
    (fun p => length (block_seen p) = entries /\ length (remap p) = entries)) in Hrun.
  - destruct Hrun as [Hbs _]. unfold init_entry.
    rewrite (table_set_None (block_seen p)) by lia. done.
  - intros s x s' [H1 H2] Hs. apply init_entry_lengths in Hs. lia.
  - simpl. by rewrite !length_replicate.
Qed.

End NormalizeBounds.

(** * Facts about the order of encounter *)

Lemma index_of_None x l : index_of x l = None <-> x ∉ l.
Proof.
  induction l as [|y l IH]; simpl.
  - split; [intros _; apply not_elem_of_nil|done].
  - rewrite not_elem_of_cons. destruct (decide (x = y)) as [->|Hne].
    + split; [done|]. by intros [? _].
    + destruct (index_of x l); simpl; split; try done.
      * intros [_ H]. by apply IH in H.
      * intros _. split; [done|]. by apply IH.
Qed.

Lemma index_of_Some x l k : index_of x l = Some k -> l !! k = Some x.
Proof.
  revert k. induction l as [|y l IH]; intros k; simpl; [done|].
  destruct (decide (x = y)) as [->|Hne].
  - by intros [= <-].
  - destruct (index_of x l) as [k'|]; simpl; [|done]. intros [= <-]. by apply IH.
Qed.

Lemma index_of_elem x l : x ∈ l -> exists k, index_of x l = Some k.
Proof.
  intros H. destruct (index_of x l) as [k|] eqn:Hk; [by exists k|].
  by apply index_of_None in Hk.
Qed.

Lemma index_of_app_l x l l' : x ∈ l -> index_of x (l ++ l') = index_of x l.
Proof.
  induction l as [|y l IH]; simpl; [by intros ?%elem_of_nil|].
  intros H. destruct (decide (x = y)); [done|].
  apply elem_of_cons in H as [?|H]; [done|]. by rewrite IH.
Qed.

Lemma index_of_app_new x l : x ∉ l -> index_of x (l ++ [x]) = Some (length l).
Proof.
  induction l as [|y l IH]; simpl; intros H.
  - by rewrite decide_True.
  - apply not_elem_of_cons in H as [Hne H]. rewrite decide_False by done.
    by rewrite IH.
Qed.

Lemma index_of_app_other x y l : x ∉ l -> x <> y -> index_of x (l ++ [y]) = None.
Proof.
  intros H Hne. apply index_of_None. rewrite elem_of_app, list_elem_of_singleton. tauto.
Qed.

(** The same index means the same label. *)
Lemma index_of_inj x y l k :
  index_of x l = Some k -> index_of y l = Some k -> x = y.
Proof. intros Hx%index_of_Some Hy%index_of_Some. congruence. Qed.

Lemma first_seen_prefix seen labels : seen `prefix_of` first_seen seen labels.
Proof.
  revert seen. induction labels as [|x labels IH]; intros seen; simpl; [done|].
  destruct (_ && _); [|apply IH].
  etrans; [|apply IH]. by apply prefix_app_r.
Qed.

Lemma first_seen_app seen l1 l2 :
  first_seen seen (l1 ++ l2) = first_seen (first_seen seen l1) l2.
Proof.
  revert seen. induction l1 as [|x l1 IH]; intros seen; simpl; [done|].
  destruct (_ && _); apply IH.
Qed.

(** What the order of encounter contains: the labels above 2. *)
Lemma elem_of_first_seen seen labels x :
  x ∈ first_seen seen labels <-> x ∈ seen \/ (2 < x /\ x ∈ labels).
Proof.
  revert seen. induction labels as [|y labels IH]; intros seen; simpl.
  - split; [by left|]. intros [H|[_ H]]; [done|]. by apply elem_of_nil in H.
  - destruct (2 <? y) eqn:Hy; simpl.
    + destruct (bool_decide (y ∈ seen)) eqn:Hs; simpl; rewrite IH, elem_of_cons.
      * apply bool_decide_eq_true in Hs.
        split; [intros [H|[H1 H2]]; auto|intros [H|[H1 [->|H2]]]; auto].
      * rewrite elem_of_app, list_elem_of_singleton.
        split; [intros [[H| ->]|[H1 H2]]; auto; right; split; [lia|auto]
               |intros [H|[H1 [->|H2]]]; auto].
    + rewrite IH, elem_of_cons. split; [intros [H|[H1 H2]]; auto|].
      intros [H|[H1 [->|H2]]]; auto. lia.
Qed.

Lemma first_seen_NoDup seen labels : NoDup seen -> NoDup (first_seen seen labels).
Proof.
  revert seen. induction labels as [|y labels IH]; intros seen Hnd; simpl; [done|].
  destruct (2 <? y); simpl; [|by apply IH].
  destruct (bool_decide (y ∈ seen)) eqn:Hs; simpl; [by apply IH|].
  apply bool_decide_eq_false in Hs. apply IH. apply list.NoDup_app. split_and!; [done| |].
  - intros x Hx ->%list_elem_of_singleton. done.
  - apply NoDup_singleton.
Qed.

Lemma NoDup_row_major h w : NoDup (row_major h w).
Proof.
  unfold row_major. generalize (NoDup_seq 0 h). generalize (seq 0 h) as rows.
  induction rows as [|i rows IH]; intros Hnd; simpl; [apply NoDup_nil_2|].
  apply list.NoDup_cons in Hnd as [Hi Hnd]. apply list.NoDup_app. split_and!.
  - apply NoDup_fmap_2; [intros ?? [=]; done|apply NoDup_seq].
  - intros [i' j'] H1 H2. apply list_elem_of_fmap in H1 as (j & [= -> ->] & _).
    apply list_elem_of_In, in_flat_map in H2 as (i'' & Hi'' & H2).
    apply list_elem_of_In, list_elem_of_fmap in H2 as (j'' & [= -> ->] & _).
    apply Hi. by apply list_elem_of_In.
  - by apply IH.
Qed.

Lemma elem_of_row_major h w i j :
  (i, j) ∈ row_major h w <-> (i < h)%nat /\ (j < w)%nat.
Proof. rewrite list_elem_of_In. apply in_row_major. Qed.

Section Labels.
Context `{G : Globals}.

Lemma elem_of_labels_row_major b x :
  x ∈ labels_row_major b <->
  exists i j, (i < board_height)%nat /\ (j < board_width)%nat /\ cell b i j = x.
Proof.
  unfold labels_row_major. rewrite list_elem_of_fmap. split.
  - intros ([i j] & -> & H%elem_of_row_major). exists i, j. simpl. tauto.
  - intros (i & j & Hi & Hj & <-). exists (i, j). split; [done|].
    by apply elem_of_row_major.
Qed.

Lemma elem_of_encounter_order b x :
  x ∈ encounter_order b <->
  2 < x /\ exists i j, (i < board_height)%nat /\ (j < board_width)%nat /\ cell b i j = x.
Proof.
  unfold encounter_order. rewrite elem_of_first_seen, elem_of_labels_row_major.
  split; [intros [H%elem_of_nil|H]; done|by right].
Qed.

Lemma encounter_order_NoDup b : NoDup (encounter_order b).
Proof. apply first_seen_NoDup, NoDup_nil_2. Qed.

(** There are at most [max_block_num - 2] blocks above 2. *)
Lemma encounter_order_length b :
  well_formed b -> Z.of_nat (length (encounter_order b)) <= Z.max 0 (max_block_num - 2).
Proof.
  intros Hwf.
  assert (encounter_order b ⊆+ seqZ 3 (max_block_num - 2)) as Hsub.
  { apply NoDup_submseteq; [apply encounter_order_NoDup|].
    intros x (Hx & i & j & Hi & Hj & <-)%elem_of_encounter_order.
    apply elem_of_seqZ. destruct (well_formed_label b i j Hwf); lia. }
  apply submseteq_length in Hsub. rewrite length_seqZ in Hsub. lia.
Qed.

End Labels.

(** * [normalizeState] computes the canonical form *)

Section NormalizeRefines.
Context `{G : Globals}.

Lemma init_entry_fresh entries i :
  0 <= i < Z.of_nat entries ->
  init_entry (RemapPlan (replicate entries false) (replicate entries 0) 3) i
  = Some (RemapPlan (replicate entries false) (replicate entries 0) 3).
Proof.
  intros Hi. unfold init_entry. cbn [block_seen remap remap_counter].
  rewrite !table_set_Some by (rewrite length_replicate; lia). cbn [mbind option_bind].
  by rewrite !list_insert_id by (apply lookup_replicate_2; lia).
Qed.

Lemma init_loop_completes entries :
  max_block_num + 1 <= Z.of_nat entries ->
  foldM init_entry (seqZ 0 (max_block_num + 1))
        (RemapPlan (replicate entries false) (replicate entries 0) 3)
  = Some (RemapPlan (replicate entries false) (replicate entries 0) 3).
Proof.
  intros Hentries.
  assert (forall i, i ∈ seqZ 0 (max_block_num + 1) -> 0 <= i < Z.of_nat entries) as Hl.
  { intros i Hi%elem_of_seqZ. lia. }
  revert Hl. generalize (seqZ 0 (max_block_num + 1)) as l.
  induction l as [|i l IH]; intros Hl; cbn [foldM]; [done|].
  assert (0 <= i < Z.of_nat entries) as Hi by (apply Hl; left).
  rewrite init_entry_fresh by done. cbn [mbind option_bind].
  apply IH. intros i' Hi'. apply Hl. by right.
Qed.

Lemma plan_inv_init entries :
  plan_inv entries (RemapPlan (replicate entries false) (replicate entries 0) 3) [].
Proof.
  unfold plan_inv; simpl. rewrite !length_replicate. split_and!; try done.
  - intros x Hx. apply table_get_Some. split; [lia|]. apply lookup_replicate_2. lia.
  - intros x Hx. apply table_get_Some. split; [lia|]. apply lookup_replicate_2. lia.
Qed.

Lemma plan_cell_step entries b p order ij :
  plan_inv entries p order ->
  cell b ij.1 ij.2 < Z.of_nat entries ->
  exists p', plan_cell b p ij = Some p' /\
             plan_inv entries p' (first_seen order [cell b ij.1 ij.2]).
Proof.
  intros (Hbs & Hrm & Hctr & Hseen & Hmap) Hx. unfold plan_cell. simpl.
  set (x := cell b ij.1 ij.2) in *.
  destruct (2 <? x) eqn:H2; simpl; [|exists p; split; [done|by split_and!]].
  rewrite Hseen by lia. simpl.
  destruct (bool_decide (x ∈ order)) eqn:Hin; simpl; [exists p; split; [done|by split_and!]|].
  apply bool_decide_eq_false in Hin.
  rewrite !table_set_Some by lia. simpl. eexists. split; [done|].
  unfold plan_inv; simpl. rewrite !length_insert, length_app. simpl.
  split_and!; [done|done|lia| |].
  - intros y Hy. erewrite table_get_set; [|apply table_set_Some; lia|lia].
    destruct (decide (x = y)) as [<-|Hne].
    + f_equal. symmetry. apply bool_decide_eq_true.
      apply elem_of_app. right. by apply list_elem_of_singleton.
    + rewrite Hseen by done. f_equal. apply bool_decide_ext.
      rewrite elem_of_app, list_elem_of_singleton.
          split; [by left|intros [?|?]; [done|congruence]].
  - intros y Hy. erewrite table_get_set; [|apply table_set_Some; lia|lia].
    destruct (decide (x = y)) as [<-|Hne].
    + rewrite index_of_app_new by done. f_equal. lia.
    + rewrite Hmap by done. f_equal.
      destruct (index_of y order) as [k|] eqn:Hk.
      * rewrite index_of_app_l, Hk; [done|].
        apply index_of_Some in Hk. by eapply list_elem_of_lookup_2.
      * apply index_of_None in Hk. by rewrite index_of_app_other.
Qed.

Lemma plan_loop_completes entries b ps : forall p order,
  plan_inv entries p order ->
  (forall ij, ij ∈ ps -> cell b ij.1 ij.2 < Z.of_nat entries) ->
  exists p', foldM (plan_cell b) ps p = Some p' /\
             plan_inv entries p' (first_seen order ((fun ij => cell b ij.1 ij.2) <$> ps)).
Proof.
  induction ps as [|ij ps IH]; intros p order Hinv Hps; simpl.
  - by exists p.
  - destruct (plan_cell_step entries b p order ij Hinv) as (p1 & Hp1 & Hinv1).
    { apply Hps. left. }
    rewrite Hp1. simpl. simpl in Hinv1.
    destruct (IH p1 _ Hinv1) as (p' & Hp' & Hinv'); [intros; apply Hps; by right|].
    exists p'. split; [done|].
    destruct (_ && _); exact Hinv'.
Qed.

(** The in-place loop: cells already visited hold their new label, the
    others still hold their old one. *)
Lemma remap_loop_completes entries p order b : forall ps visited b',
  plan_inv entries p order ->
  (forall i j, cell b i j < Z.of_nat entries) ->
  NoDup (visited ++ ps) ->
  (forall ij, ij ∈ ps -> (ij.1 < board_height)%nat /\ (ij.2 < board_width)%nat) ->
  rectangular b' ->
  (forall i j, cell b' i j =
     if bool_decide ((i, j) ∈ visited) then canonical_label order (cell b i j)
     else cell b i j) ->
  exists b'', foldM (remap_cell p) ps b' = Some b'' /\ rectangular b'' /\
    forall i j, cell b'' i j =
      if bool_decide ((i, j) ∈ visited ++ ps) then canonical_label order (cell b i j)
      else cell b i j.
Proof.
  induction ps as [|[i j] ps IH]; intros visited b' Hinv Hlab Hnd Hps Hrect Hcells; simpl.
  - exists b'. rewrite app_nil_r. done.
  - assert (NoDup ((visited ++ [(i, j)]) ++ ps)) as Hnd' by by rewrite <- app_assoc.
    assert ((i, j) ∉ visited) as Hfresh.
    { apply list.NoDup_app in Hnd as (_ & Hdisj & _). intros Hin.
      apply (Hdisj _ Hin). left. }
    destruct (Hps (i, j)) as [Hi Hj]; [left|]. simpl in Hi, Hj.
    assert (cell b' i j = cell b i j) as Hcur.
    { rewrite Hcells. by rewrite bool_decide_eq_false_2. }
    assert (exists b1, remap_cell p b' (i, j) = Some b1 /\ rectangular b1 /\
              forall i' j', cell b1 i' j' =
                if bool_decide ((i', j') ∈ visited ++ [(i, j)])
                then canonical_label order (cell b i' j') else cell b i' j')
      as (b1 & Hb1 & Hrect1 & Hcells1).
    { unfold remap_cell. simpl. rewrite Hcur.
      destruct Hinv as (_ & _ & _ & _ & Hmap). destruct Hrect as [Hh Hw].
      destruct (2 <? cell b i j) eqn:H2; simpl.
      - rewrite Hmap by (specialize (Hlab i j); lia). simpl. eexists. split; [done|].
        split; [split; [by rewrite set_cell_length|by apply set_cell_rows]|].
        intros i' j'. destruct (decide ((i, j) = (i', j'))) as [[= <- <-]|Hne].
        + rewrite (cell_set_cell_eq board_width) by (done || lia).
          rewrite bool_decide_eq_true_2
            by (apply elem_of_app; right; by apply list_elem_of_singleton).
          unfold canonical_label. by rewrite H2.
        + rewrite cell_set_cell_ne by done. rewrite Hcells.
          rewrite (bool_decide_ext _ ((i', j') ∈ visited ++ [(i, j)])); [done|].
          rewrite elem_of_app, list_elem_of_singleton.
          split; [by left|intros [?|?]; [done|congruence]].
      - exists b'. split; [done|]. split; [done|].
        intros i' j'. destruct (decide ((i, j) = (i', j'))) as [[= <- <-]|Hne].
        + rewrite bool_decide_eq_true_2
            by (apply elem_of_app; right; by apply list_elem_of_singleton).
          unfold canonical_label. by rewrite H2.
        + rewrite Hcells.
          rewrite (bool_decide_ext _ ((i', j') ∈ visited ++ [(i, j)])); [done|].
          rewrite elem_of_app, list_elem_of_singleton.
          split; [by left|intros [?|?]; [done|congruence]]. }
    rewrite Hb1. simpl.
    destruct (IH (visited ++ [(i, j)]) b1) as (b'' & Hb'' & Hrect'' & Hcells'');
      [done|done|done|intros; apply Hps; by right|done|done|].
    exists b''. split; [done|]. split; [done|].
    intros i' j'. rewrite Hcells''. by rewrite <- app_assoc.
Qed.

End NormalizeRefines.

Section NormalizeSpec.
Context `{G : Globals}.

Lemma well_formed_cell b i j :
  well_formed b -> (i < board_height)%nat -> (j < board_width)%nat ->
  -1 <= cell b i j <= max_block_num.
Proof.
  intros [Hh Hw Hl] Hi Hj.
  destruct (lookup_lt_is_Some_2 b i) as [row Hrow]; [lia|].
  assert (length row = board_width) as Hlen.
  { eapply list.Forall_forall in Hw; [exact Hw|]. by eapply list_elem_of_lookup_2. }
  destruct (lookup_lt_is_Some_2 row j) as [x Hx]; [lia|].
  rewrite (cell_lookup _ _ _ _ Hrow), Hx. simpl.
  eapply list.Forall_forall in Hl; [|by eapply list_elem_of_lookup_2].
  eapply list.Forall_forall in Hl; [exact Hl|by eapply list_elem_of_lookup_2].
Qed.

Lemma well_formed_tabulate f :
  (forall i j, (i < board_height)%nat -> (j < board_width)%nat ->
     -1 <= f i j <= max_block_num) ->
  well_formed (tabulate board_height board_width f).
Proof.
  intros Hf. split; [apply tabulate_length|apply tabulate_rows|].
  unfold tabulate. apply list.Forall_forall. intros row (i & -> & Hi%elem_of_seq)%list_elem_of_fmap.
  apply list.Forall_forall. intros x (j & -> & Hj%elem_of_seq)%list_elem_of_fmap.
  apply Hf; lia.
Qed.

Lemma cell_bound entries b i j :
  well_formed b -> 0 <= max_block_num < Z.of_nat entries ->
  cell b i j < Z.of_nat entries.
Proof. intros Hwf Hentries. destruct (well_formed_label b i j Hwf); lia. Qed.

(** [normalizeState], run with tables that hold the entry its loops reach,
    computes the canonical form of the specification. *)
Lemma normalizeState_with_spec entries b :
  well_formed b -> 0 <= max_block_num < Z.of_nat entries ->
  normalizeState_with entries b = Some (normalize_spec b).
Proof.
  intros Hwf Hentries. unfold normalizeState_with.
  rewrite init_loop_completes by lia. cbn [mbind option_bind].
  destruct (plan_loop_completes entries b
              (row_major board_height board_width) _ [] (plan_inv_init _))
    as (p & Hp & Hinv); [intros; by apply cell_bound|].
  rewrite Hp. cbn [mbind option_bind]. fold (labels_row_major b) in Hinv.
  fold (encounter_order b) in Hinv.
  destruct (remap_loop_completes _ p (encounter_order b) b
              (row_major board_height board_width) [] b Hinv)
    as (b'' & Hb'' & [Hh Hw] & Hcells).
  - intros; by apply cell_bound.
  - apply NoDup_row_major.
  - intros [i j] Hij%elem_of_row_major. done.
  - by apply well_formed_rectangular.
  - intros i j. rewrite bool_decide_eq_false_2; [done|apply not_elem_of_nil].
  - rewrite Hb''. f_equal.
    apply board_ext with board_height board_width;
      [done|done|apply tabulate_length|apply tabulate_rows|].
    intros i j Hi Hj. unfold normalize_spec. rewrite cell_tabulate by done.
    rewrite Hcells. simpl. rewrite bool_decide_eq_true_2; [done|].
    by apply elem_of_row_major.
Qed.

Lemma normalize_spec_cell b i j :
  (i < board_height)%nat -> (j < board_width)%nat ->
  cell (normalize_spec b) i j = canonical_label (encounter_order b) (cell b i j).
Proof. intros. unfold normalize_spec. by rewrite cell_tabulate. Qed.

Lemma canonical_label_low order x : x <= 2 -> canonical_label order x = x.
Proof. intros H. unfold canonical_label. destruct (2 <? x) eqn:E; [lia|done]. Qed.

Lemma canonical_label_high order x k :
  2 < x -> index_of x order = Some k -> canonical_label order x = 3 + Z.of_nat k.
Proof. intros H Hk. unfold canonical_label. destruct (2 <? x) eqn:E; [|lia]. by rewrite Hk. Qed.

Lemma normalize_spec_well_formed b : well_formed b -> well_formed (normalize_spec b).
Proof.
  intros Hwf. apply well_formed_tabulate. intros i j Hi Hj.
  pose proof (well_formed_cell b i j Hwf Hi Hj) as Hc.
  destruct (decide (cell b i j <= 2)) as [Hlow|Hhigh].
  - by rewrite canonical_label_low.
  - destruct (index_of_elem (cell b i j) (encounter_order b)) as [k Hk].
    { apply elem_of_encounter_order. split; [lia|]. by exists i, j. }
    rewrite (canonical_label_high _ _ k) by (done || lia).
    pose proof (encounter_order_length b Hwf) as Hlen.
    apply index_of_Some, lookup_lt_Some in Hk. lia.
Qed.

Lemma index_of_fmap (sigma : Z -> Z) x l :
  (forall y, y ∈ l -> sigma x = sigma y -> x = y) ->
  index_of (sigma x) (sigma <$> l) = index_of x l.
Proof.
  induction l as [|y l IH]; intros Hinj; simpl; [done|].
  destruct (decide (x = y)) as [->|Hne].
  - by rewrite decide_True.
  - rewrite decide_False; [|intros Heq; apply Hne, Hinj; [left|done]].
    f_equal. apply IH. intros y' Hy'. apply Hinj. by right.
Qed.

(** Renaming the labels above 2 one-to-one renames the order of encounter. *)
Lemma first_seen_fmap (sigma : Z -> Z) labels : forall seen,
  (forall x, x ∈ labels -> (2 <? sigma x) = (2 <? x)) ->
  (forall x y, x ∈ seen ++ labels -> y ∈ seen ++ labels -> 2 < x -> 2 < y ->
     sigma x = sigma y -> x = y) ->
  (forall x, x ∈ seen -> 2 < x) ->
  first_seen (sigma <$> seen) (sigma <$> labels) = sigma <$> first_seen seen labels.
Proof.
  induction labels as [|x labels IH]; intros seen Hhigh Hinj Hseen; simpl; [done|].
  rewrite Hhigh by left.
  assert (bool_decide (sigma x ∈ sigma <$> seen) = bool_decide (x ∈ seen) \/ (2 <? x) = false)
    as [Hdec|Hlow].
  { destruct (2 <? x) eqn:Hx; [left|by right]. apply bool_decide_ext. split.
    - intros (y & Heq & Hy)%list_elem_of_fmap.
      assert (x = y) as ->; [|done].
      apply Hinj; [apply elem_of_app; right; left|apply elem_of_app; by left|lia|by apply Hseen|done].
    - intros H. by apply list_elem_of_fmap_2. }
  - rewrite Hdec. destruct (_ && _) eqn:Hcond.
    + rewrite <- IH.
      * by rewrite fmap_app.
      * intros y Hy. apply Hhigh. by right.
      * intros y z Hy Hz. apply Hinj.
        -- rewrite <- app_assoc in Hy. exact Hy.
        -- rewrite <- app_assoc in Hz. exact Hz.
      * intros y [Hy| ->%list_elem_of_singleton]%elem_of_app; [by apply Hseen|].
        apply andb_true_iff in Hcond as [Hx _]. lia.
    + apply IH; [intros y Hy; apply Hhigh; by right| |done].
      intros y z Hy Hz. apply Hinj.
      * apply elem_of_app in Hy as [Hy|Hy]; apply elem_of_app; [by left|right; by right].
      * apply elem_of_app in Hz as [Hz|Hz]; apply elem_of_app; [by left|right; by right].
  - rewrite Hlow. simpl. apply IH; [intros y Hy; apply Hhigh; by right| |done].
    intros y z Hy Hz. apply Hinj.
    * apply elem_of_app in Hy as [Hy|Hy]; apply elem_of_app; [by left|right; by right].
    * apply elem_of_app in Hz as [Hz|Hz]; apply elem_of_app; [by left|right; by right].
Qed.

Lemma labels_row_major_relabel sigma b :
  labels_row_major (relabel sigma b) = sigma <$> labels_row_major b.
Proof.
  unfold labels_row_major. rewrite <- list_fmap_compose.
  apply list_fmap_ext. intros k [i j] Hk. simpl.
  apply list_elem_of_lookup_2, elem_of_row_major in Hk as [Hi Hj].
  unfold relabel. by rewrite cell_tabulate.
Qed.

(** The canonical form forgets how the blocks above 2 are named. *)
Lemma normalize_spec_relabel sigma b :
  (forall x, x ∈ labels_row_major b -> x <= 2 -> sigma x = x) ->
  (forall x, x ∈ labels_row_major b -> 2 < x -> 2 < sigma x) ->
  (forall x y, x ∈ labels_row_major b -> y ∈ labels_row_major b -> 2 < x -> 2 < y ->
     sigma x = sigma y -> x = y) ->
  normalize_spec (relabel sigma b) = normalize_spec b.
Proof.
  intros Hlow Hhigh Hinj.
  assert (encounter_order (relabel sigma b) = sigma <$> encounter_order b) as Horder.
  { unfold encounter_order. rewrite labels_row_major_relabel.
    apply (first_seen_fmap sigma _ []).
    - intros x Hx. destruct (2 <? x) eqn:E.
      + apply Z.ltb_lt. apply Hhigh; [done|lia].
      + rewrite Hlow by (done || lia). done.
    - done.
    - by intros x ?%elem_of_nil. }
  unfold normalize_spec at 1. rewrite Horder. unfold normalize_spec.
  apply board_ext with board_height board_width;
    [apply tabulate_length|apply tabulate_rows|apply tabulate_length|apply tabulate_rows|].
  intros i j Hi Hj. rewrite !cell_tabulate by done. unfold relabel.
  rewrite cell_tabulate by done.
  assert (cell b i j ∈ labels_row_major b) as Hin.
  { apply elem_of_labels_row_major. by exists i, j. }
  unfold canonical_label. destruct (2 <? cell b i j) eqn:E.
  - assert ((2 <? sigma (cell b i j)) = true) as -> by (apply Z.ltb_lt, Hhigh; [done|lia]).
    rewrite index_of_fmap; [done|].
    intros y (Hy & i' & j' & Hi' & Hj' & <-)%elem_of_encounter_order. apply Hinj; try done; try lia.
    apply elem_of_labels_row_major. by exists i', j'.
  - rewrite Hlow by (done || lia). by rewrite E.
Qed.

(** The canonical form is canonical. *)
Lemma normalize_spec_idempotent b : normalize_spec (normalize_spec b) = normalize_spec b.
Proof.
  change (normalize_spec b) with (relabel (canonical_label (encounter_order b)) b) at 1.
  apply normalize_spec_relabel.
  - intros x _ Hx. by apply canonical_label_low.
  - intros x Hx H2.
    destruct (index_of_elem x (encounter_order b)) as [k Hk].
    { apply elem_of_encounter_order. split; [done|]. by apply elem_of_labels_row_major. }
    rewrite (canonical_label_high _ _ k) by done. lia.
  - intros x y Hx Hy H2x H2y Heq.
    destruct (index_of_elem x (encounter_order b)) as [k Hk].
    { apply elem_of_encounter_order. split; [done|]. by apply elem_of_labels_row_major. }
    destruct (index_of_elem y (encounter_order b)) as [k' Hk'].
    { apply elem_of_encounter_order. split; [done|]. by apply elem_of_labels_row_major. }
    rewrite (canonical_label_high _ _ k), (canonical_label_high _ _ k') in Heq by done.
    assert (k = k') as -> by lia. by eapply index_of_inj.
Qed.

End NormalizeSpec.

(** * Facts about the table of visited states *)

Lemma strcmp_eq_refl k : strcmp_eq k k = true.
Proof. unfold strcmp_eq. by apply bool_decide_eq_true. Qed.

Lemma strcmp_eq_index k1 k2 :
  strcmp_eq k1 k2 = true -> getHashKeyIndex k1 = getHashKeyIndex k2.
Proof.
  unfold strcmp_eq, getHashKeyIndex. intros H%bool_decide_eq_true. by rewrite H.
Qed.

Lemma strcmp_eq_trans_l k1 k2 k :
  strcmp_eq k1 k2 = true -> strcmp_eq k1 k = strcmp_eq k2 k.
Proof.
  unfold strcmp_eq. intros H%bool_decide_eq_true. by rewrite H.
Qed.

Lemma chain_find_app chain n k :
  chain_find (chain ++ [n]) k =
  if chain_holds chain k then chain_find chain k
  else if strcmp_eq (key n) k then value n else -1.
Proof.
  induction chain as [|n' chain IH]; simpl; [done|].
  destruct (strcmp_eq (key n') k); simpl; [done|apply IH].
Qed.

Lemma chain_holds_app chain n k :
  chain_holds (chain ++ [n]) k = chain_holds chain k || strcmp_eq (key n) k.
Proof. unfold chain_holds. rewrite existsb_app. simpl. by rewrite orb_false_r. Qed.

Lemma chain_find_absent chain k : chain_holds chain k = false -> chain_find chain k = -1.
Proof.
  induction chain as [|n chain IH]; simpl; [done|].
  destruct (strcmp_eq (key n) k); simpl; [done|apply IH].
Qed.

Lemma chain_find_nonneg chain k :
  (forall n, n ∈ chain -> 0 <= value n) ->
  chain_holds chain k = (0 <=? chain_find chain k).
Proof.
  induction chain as [|n chain IH]; intros Hnn; simpl; [done|].
  destruct (strcmp_eq (key n) k); simpl.
  - symmetry. apply Z.leb_le, Hnn. left.
  - apply IH. intros n' Hn'. apply Hnn. by right.
Qed.

Lemma chain_find_update chain k v k' :
  chain_find (chain_update chain k v) k' =
  if chain_holds chain k && strcmp_eq k k' then v else chain_find chain k'.
Proof.
  induction chain as [|n chain IH]; simpl; [done|].
  destruct (strcmp_eq (key n) k) eqn:Hk; simpl.
  - rewrite (strcmp_eq_trans_l _ _ k' Hk). by destruct (strcmp_eq k k').
  - destruct (strcmp_eq (key n) k') eqn:Hk'; [|apply IH].
    destruct (chain_holds chain k && strcmp_eq k k') eqn:Hc; [|done].
    apply andb_true_iff in Hc as [_ Hc]. unfold strcmp_eq in *.
    apply bool_decide_eq_true in Hc, Hk'. apply bool_decide_eq_false in Hk. congruence.
Qed.

Lemma chain_holds_update chain k v k' :
  chain_holds (chain_update chain k v) k' = chain_holds chain k'.
Proof.
  induction chain as [|n chain IH]; simpl; [done|].
  destruct (strcmp_eq (key n) k) eqn:Hk; simpl; [done|]. by rewrite IH.
Qed.

Lemma chain_update_nonneg chain k v :
  0 <= v -> (forall n, n ∈ chain -> 0 <= value n) ->
  forall n, n ∈ chain_update chain k v -> 0 <= value n.
Proof.
  intros Hv. induction chain as [|n chain IH]; intros Hnn n'; simpl;
    [by intros ?%elem_of_nil|].
  destruct (strcmp_eq (key n) k).
  - intros [->|Hn']%elem_of_cons; [simpl; lia|]. apply Hnn. by right.
  - intros [->|Hn']%elem_of_cons; [apply Hnn; left|].
    apply IH; [|done]. intros n0 Hn0. apply Hnn. by right.
Qed.

(** ** The slots *)

Lemma slot_chain_Some t index chain :
  slot_chain t index = Some chain <->
  0 <= index /\ state_hashtable t !! Z.to_nat index = Some (Chain chain).
Proof.
  unfold slot_chain. destruct (table_get (state_hashtable t) index) as [s|] eqn:Hs.
  - apply table_get_Some in Hs as [Hi Hs]. cbn [mbind option_bind]. rewrite Hs.
    destruct s as [nodes|]; split.
    + by intros [= <-].
    + by intros [_ [= <-]].
    + done.
    + by intros [_ [=]].
  - cbn [mbind option_bind]. split; [done|]. intros [Hi Hl].
    assert (table_get (state_hashtable t) index = Some (Chain chain)) as H
      by by apply table_get_Some.
    congruence.
Qed.

Lemma slot_chain_range t index chain :
  slot_chain t index = Some chain ->
  0 <= index < Z.of_nat (length (state_hashtable t)).
Proof.
  intros [Hi Hl]%slot_chain_Some. apply lookup_lt_Some in Hl. lia.
Qed.

(** The slots after one of them was written. *)
Lemma slot_chain_set t index chain' slots n j :
  table_set (state_hashtable t) index (Chain chain') = Some slots ->
  slot_chain (StateTable slots n) j =
  if decide (index = j) then Some chain' else slot_chain t j.
Proof.
  intros Hset. unfold slot_chain. cbn [state_hashtable].
  destruct (Z.ltb_spec j 0) as [Hj|Hj].
  - unfold table_get. rewrite (proj2 (Z.ltb_lt j 0)) by done.
    destruct (decide (index = j)) as [->|]; [|done].
    unfold table_set in Hset. destruct (0 <=? j) eqn:H0; [lia|done].
  - rewrite (table_get_set _ _ _ _ _ Hset) by done.
    by destruct (decide (index = j)).
Qed.

Lemma slot_chain_init index :
  0 <= index < STATE_HASH_TABLE_SIZE -> slot_chain initStateHashTable index = Some [].
Proof.
  intros Hi. apply slot_chain_Some. split; [lia|].
  unfold initStateHashTable. cbn [state_hashtable]. apply lookup_replicate_2.
  unfold STATE_HASH_TABLE_SIZE in *. lia.
Qed.

(** ** Insertion, lookup and update *)

Lemma insertIntoStateHashTable_Some t k v index chain :
  getHashKeyIndex k = Some index -> slot_chain t index = Some chain ->
  insertIntoStateHashTable t k v
  = Some (StateTable (<[Z.to_nat index := Chain (chain ++ [HashNode k v])]>
                        (state_hashtable t))
                     (hash_table_node_count t + 1)).
Proof.
  intros Hi Hc. unfold insertIntoStateHashTable. rewrite Hi. cbn [mbind option_bind].
  rewrite Hc. cbn [mbind option_bind].
  by rewrite table_set_Some by by eapply slot_chain_range.
Qed.

Lemma insertIntoStateHashTable_inv t k v t' :
  insertIntoStateHashTable t k v = Some t' ->
  exists index chain slots,
    getHashKeyIndex k = Some index /\ slot_chain t index = Some chain /\
    table_set (state_hashtable t) index (Chain (chain ++ [HashNode k v])) = Some slots /\
    t' = StateTable slots (hash_table_node_count t + 1).
Proof.
  unfold insertIntoStateHashTable. intros H.
  destruct (getHashKeyIndex k) as [index|]; [|done]. cbn [mbind option_bind] in H.
  destruct (slot_chain t index) as [chain|] eqn:Hc; [|done]. cbn [mbind option_bind] in H.
  destruct (table_set _ _ _) as [slots|] eqn:Hs; [|done]. cbn [mbind option_bind] in H.
  injection H as <-. by exists index, chain, slots.
Qed.

Lemma updateHashTableValue_Some t k v index chain :
  getHashKeyIndex k = Some index -> slot_chain t index = Some chain ->
  updateHashTableValue t k v
  = Some (StateTable (<[Z.to_nat index := Chain (chain_update chain k v)]>
                        (state_hashtable t))
                     (hash_table_node_count t)).
Proof.
  intros Hi Hc. unfold updateHashTableValue. rewrite Hi. cbn [mbind option_bind].
  rewrite Hc. cbn [mbind option_bind].
  by rewrite table_set_Some by by eapply slot_chain_range.
Qed.

Lemma updateHashTableValue_inv t k v t' :
  updateHashTableValue t k v = Some t' ->
  exists index chain slots,
    getHashKeyIndex k = Some index /\ slot_chain t index = Some chain /\
    table_set (state_hashtable t) index (Chain (chain_update chain k v)) = Some slots /\
    t' = StateTable slots (hash_table_node_count t).
Proof.
  unfold updateHashTableValue. intros H.
  destruct (getHashKeyIndex k) as [index|]; [|done]. cbn [mbind option_bind] in H.
  destruct (slot_chain t index) as [chain|] eqn:Hc; [|done]. cbn [mbind option_bind] in H.
  destruct (table_set _ _ _) as [slots|] eqn:Hs; [|done]. cbn [mbind option_bind] in H.
  injection H as <-. by exists index, chain, slots.
Qed.


(** What a lookup finds after an insertion. *)
Lemma getHashTableValue_insert t k v t' k' :
  insertIntoStateHashTable t k v = Some t' ->
  getHashTableValue t' k' =
  if table_holds t k' then getHashTableValue t k'
  else if strcmp_eq k k' then Some v else getHashTableValue t k'.
Proof.
  intros (index & chain & slots & Hi & Hc & Hs & ->)%insertIntoStateHashTable_inv.
  unfold getHashTableValue, table_holds.
  destruct (strcmp_eq k k') eqn:Hk.
  - rewrite <- (strcmp_eq_index _ _ Hk), Hi. cbn [mbind option_bind].
    rewrite (slot_chain_set _ _ _ _ _ _ Hs), decide_True by done. rewrite Hc.
    cbn [mbind option_bind]. rewrite chain_find_app. cbn [key value]. rewrite Hk.
    by destruct (chain_holds chain k').
  - destruct (getHashKeyIndex k') as [j|]; cbn [mbind option_bind]; [|done].
    rewrite (slot_chain_set _ _ _ _ _ _ Hs).
    destruct (decide (index = j)) as [<-|Hne].
    + rewrite Hc. cbn [mbind option_bind]. rewrite chain_find_app. cbn [key value].
      rewrite Hk. destruct (chain_holds chain k') eqn:Hh; [done|].
      by rewrite chain_find_absent.
    + by destruct (slot_chain t j) as [c|]; cbn [mbind option_bind];
        [destruct (chain_holds c k')|].
Qed.

Lemma table_holds_insert t k v t' k' :
  insertIntoStateHashTable t k v = Some t' ->
  table_holds t' k' = table_holds t k' || strcmp_eq k k'.
Proof.
  intros (index & chain & slots & Hi & Hc & Hs & ->)%insertIntoStateHashTable_inv.
  unfold table_holds.
  destruct (strcmp_eq k k') eqn:Hk.
  - rewrite <- (strcmp_eq_index _ _ Hk), Hi. cbn [mbind option_bind].
    rewrite (slot_chain_set _ _ _ _ _ _ Hs), decide_True by done. rewrite Hc.
    rewrite chain_holds_app. cbn [key]. by rewrite Hk, !orb_true_r.
  - rewrite orb_false_r.
    destruct (getHashKeyIndex k') as [j|]; cbn [mbind option_bind]; [|done].
    rewrite (slot_chain_set _ _ _ _ _ _ Hs).
    destruct (decide (index = j)) as [<-|Hne]; [|done].
    rewrite Hc, chain_holds_app. cbn [key]. by rewrite Hk, orb_false_r.
Qed.

(** What a lookup finds after an update. *)
Lemma getHashTableValue_update t k v t' k' :
  updateHashTableValue t k v = Some t' ->
  getHashTableValue t' k' =
  if table_holds t k && strcmp_eq k k' then Some v else getHashTableValue t k'.
Proof.
  intros (index & chain & slots & Hi & Hc & Hs & ->)%updateHashTableValue_inv.
  unfold getHashTableValue, table_holds. rewrite Hi. cbn [mbind option_bind]. rewrite Hc.
  destruct (strcmp_eq k k') eqn:Hk.
  - rewrite <- (strcmp_eq_index _ _ Hk), Hi. cbn [mbind option_bind].
    rewrite (slot_chain_set _ _ _ _ _ _ Hs), decide_True by done. rewrite Hc.
    cbn [mbind option_bind]. rewrite chain_find_update, Hk.
    by destruct (chain_holds chain k).
  - rewrite andb_false_r.
    destruct (getHashKeyIndex k') as [j|]; cbn [mbind option_bind]; [|done].
    rewrite (slot_chain_set _ _ _ _ _ _ Hs).
    destruct (decide (index = j)) as [<-|Hne]; [|done].
    rewrite Hc. cbn [mbind option_bind]. rewrite chain_find_update, Hk.
    by rewrite andb_false_r.
Qed.

Lemma table_holds_update t k v t' k' :
  updateHashTableValue t k v = Some t' -> table_holds t' k' = table_holds t k'.
Proof.
  intros (index & chain & slots & Hi & Hc & Hs & ->)%updateHashTableValue_inv.
  unfold table_holds.
  destruct (getHashKeyIndex k') as [j|]; cbn [mbind option_bind]; [|done].
  rewrite (slot_chain_set _ _ _ _ _ _ Hs).
  destruct (decide (index = j)) as [<-|Hne]; [|done].
  by rewrite Hc, chain_holds_update.
Qed.

(** With costs in the table, a key is in the table exactly when its lookup
    is defined and not negative. *)
Lemma table_holds_nonneg t k :
  table_costs_nonneg t ->
  table_holds t k = match getHashTableValue t k with
                    | Some hash_table_value => 0 <=? hash_table_value
                    | None => false
                    end.
Proof.
  intros Hnn. unfold table_holds, getHashTableValue.
  destruct (getHashKeyIndex k) as [index|]; cbn [mbind option_bind]; [|done].
  destruct (slot_chain t index) as [chain|] eqn:Hc; cbn [mbind option_bind]; [|done].
  apply chain_find_nonneg. intros n Hn. apply slot_chain_Some in Hc as [_ Hc].
  by apply (Hnn _ _ _ Hc).
Qed.

Lemma table_holds_value t k :
  table_costs_nonneg t -> table_holds t k = true ->
  exists hash_table_value, getHashTableValue t k = Some hash_table_value /\
                           0 <= hash_table_value.
Proof.
  intros Hnn Hh. rewrite table_holds_nonneg in Hh by done.
  destruct (getHashTableValue t k) as [x|]; [|done]. exists x. split; [done|lia].
Qed.

Lemma initStateHashTable_nonneg : table_costs_nonneg initStateHashTable.
Proof.
  intros index nodes n Hl Hn. unfold initStateHashTable in Hl. cbn [state_hashtable] in Hl.
  apply lookup_replicate in Hl as [Heq _]. injection Heq as Heq. subst nodes. by apply elem_of_nil in Hn.
Qed.

Lemma table_set_nonneg t index chain' slots n :
  table_costs_nonneg t ->
  table_set (state_hashtable t) index (Chain chain') = Some slots ->
  (forall x, x ∈ chain' -> 0 <= value x) ->
  table_costs_nonneg (StateTable slots n).
Proof.
  intros Hnn Hs Hc j nodes x Hl Hx. cbn [state_hashtable] in Hl.
  unfold table_set in Hs. destruct (_ && _) eqn:Hb; [|done]. injection Hs as <-.
  destruct (decide (Z.to_nat index = j)) as [<-|Hne].
  - rewrite list_lookup_insert_eq in Hl by lia. injection Hl as <-. by apply Hc.
  - rewrite list_lookup_insert_ne in Hl by done. by apply (Hnn _ _ _ Hl).
Qed.

Lemma insertIntoStateHashTable_nonneg t k v t' :
  0 <= v -> table_costs_nonneg t -> insertIntoStateHashTable t k v = Some t' ->
  table_costs_nonneg t'.
Proof.
  intros Hv Hnn (index & chain & slots & Hi & Hc & Hs & ->)%insertIntoStateHashTable_inv.
  apply (table_set_nonneg t index _ slots _ Hnn Hs).
  apply slot_chain_Some in Hc as [_ Hc].
  intros x [Hx| ->%list_elem_of_singleton]%elem_of_app; [by apply (Hnn _ _ _ Hc)|done].
Qed.

Lemma updateHashTableValue_nonneg t k v t' :
  0 <= v -> table_costs_nonneg t -> updateHashTableValue t k v = Some t' ->
  table_costs_nonneg t'.
Proof.
  intros Hv Hnn (index & chain & slots & Hi & Hc & Hs & ->)%updateHashTableValue_inv.
  apply (table_set_nonneg t index _ slots _ Hnn Hs).
  apply slot_chain_Some in Hc as [_ Hc].
  apply chain_update_nonneg; [done|]. intros x. by apply (Hnn _ _ _ Hc).
Qed.

(** ** Tables without freed nodes *)

Lemma initStateHashTable_live : table_live initStateHashTable.
Proof.
  split; [apply length_replicate|]. unfold initStateHashTable. cbn [state_hashtable].
  by intros [? _]%elem_of_replicate.
Qed.

Lemma table_set_live t index chain' slots n :
  table_live t ->
  table_set (state_hashtable t) index (Chain chain') = Some slots ->
  table_live (StateTable slots n).
Proof.
  intros [Hlen Hfree] Hs. split; cbn [state_hashtable].
  - by rewrite (table_set_length _ _ _ _ Hs).
  - unfold table_set in Hs. destruct (_ && _); [|done]. injection Hs as <-.
    intros (i & Hi)%list_elem_of_lookup_1.
    destruct (decide (Z.to_nat index = i)) as [<-|Hne].
    + apply list_lookup_insert_Some in Hi as [(_ & [=] & _)|[? _]]; done.
    + rewrite list_lookup_insert_ne in Hi by done.
      by apply Hfree, (list_elem_of_lookup_2 _ i).
Qed.

Lemma insertIntoStateHashTable_live t k v t' :
  table_live t -> insertIntoStateHashTable t k v = Some t' -> table_live t'.
Proof.
  intros Hl (index & chain & slots & _ & _ & Hs & ->)%insertIntoStateHashTable_inv.
  by eapply table_set_live.
Qed.

Lemma updateHashTableValue_live t k v t' :
  table_live t -> updateHashTableValue t k v = Some t' -> table_live t'.
Proof.
  intros Hl (index & chain & slots & _ & _ & Hs & ->)%updateHashTableValue_inv.
  by eapply table_set_live.
Qed.

(** In a table without freed nodes every index within the array leads to a
    chain. *)
Lemma table_live_slot t index :
  table_live t -> 0 <= index < STATE_HASH_TABLE_SIZE ->
  exists chain, slot_chain t index = Some chain.
Proof.
  intros [Hlen Hfree] Hi.
  destruct (lookup_lt_is_Some_2 (state_hashtable t) (Z.to_nat index)) as [s Hs].
  { rewrite Hlen. unfold STATE_HASH_TABLE_SIZE in *. lia. }
  destruct s as [chain|].
  - exists chain. apply slot_chain_Some. split; [lia|done].
  - destruct Hfree. by apply (list_elem_of_lookup_2 _ (Z.to_nat index)).
Qed.

(** [resetHashTable] of a table without freed nodes is defined. *)
Lemma resetHashTable_live t :
  table_live t -> is_Some (resetHashTable t).
Proof.
  intros [_ Hfree]. unfold resetHashTable.
  assert (is_Some (mapM free_chain (state_hashtable t))) as [slots ->]; [|by eexists].
  apply mapM_is_Some. apply list.Forall_forall. intros [[|n chain]|] Hs;
    [by eexists|by eexists|by destruct Hfree].
Qed.

(** * The move generator *)

Lemma filter_all {A : Type} (P : A -> Prop) `{forall x, Decision (P x)} (l : list A) :
  Forall P l -> filter P l = l.
Proof. induction 1 as [|x l Hx Hl IH]; [done|]. rewrite filter_cons_True by done. by f_equal. Qed.

Section MoveGenerator.
Context `{G : Globals}.

Lemma scan_cell_unfold b piece_num s i j :
  scan_cell b piece_num s (i, j) =
  if cell b i j =? piece_num then
    let u := up_legal s && negb (violates b piece_num UP i j) in
    let d := down_legal s && negb (violates b piece_num DOWN i j) in
    let l := left_legal s && negb (violates b piece_num LEFT i j) in
    let r := right_legal s && negb (violates b piece_num RIGHT i j) in
    MoveScan true u d l r
      (num_available_moves s
       - (if up_legal s && violates b piece_num UP i j then 1 else 0)
       - (if down_legal s && violates b piece_num DOWN i j then 1 else 0)
       - (if left_legal s && violates b piece_num LEFT i j then 1 else 0)
       - (if right_legal s && violates b piece_num RIGHT i j then 1 else 0))
  else s.
Proof.
  unfold scan_cell, check_direction.
  generalize (violates b piece_num UP i j) (violates b piece_num DOWN i j)
             (violates b piece_num LEFT i j) (violates b piece_num RIGHT i j).
  intros vu vd vl vr. destruct (cell b i j =? piece_num); [|done].
  destruct s as [f u dn l r n]; cbn [up_legal down_legal left_legal right_legal
                                     num_available_moves].
  destruct u, dn, l, r, vu, vd, vl, vr; simpl; f_equal; lia.
Qed.

Lemma scan_cell_flag b piece_num s ij d :
  legal_flag (scan_cell b piece_num s ij) d
  = legal_flag s d && cell_allows b piece_num d ij.
Proof.
  destruct ij as [i j]. rewrite scan_cell_unfold. unfold cell_allows.
  cbn [fst snd]. destruct (cell b i j =? piece_num); [|by rewrite andb_true_r].
  by destruct d.
Qed.

Lemma scan_fold_flag b piece_num d ps : forall s,
  legal_flag (fold_left (scan_cell b piece_num) ps s) d
  = legal_flag s d && forallb (cell_allows b piece_num d) ps.
Proof.
  induction ps as [|ij ps IH]; intros s; cbn [fold_left forallb];
    [by rewrite andb_true_r|].
  by rewrite IH, scan_cell_flag, andb_assoc.
Qed.

Lemma scan_cell_found b piece_num s ij :
  piece_found (scan_cell b piece_num s ij)
  = piece_found s || (cell b ij.1 ij.2 =? piece_num).
Proof.
  destruct ij as [i j]. rewrite scan_cell_unfold. cbn [fst snd].
  destruct (cell b i j =? piece_num); [by rewrite orb_true_r|by rewrite orb_false_r].
Qed.

Lemma scan_fold_found b piece_num ps : forall s,
  piece_found (fold_left (scan_cell b piece_num) ps s)
  = piece_found s || existsb (fun '(i, j) => cell b i j =? piece_num) ps.
Proof.
  induction ps as [|[i j] ps IH]; intros s; cbn [fold_left existsb];
    [by rewrite orb_false_r|].
  rewrite IH, scan_cell_found. cbn [fst snd]. by rewrite orb_assoc.
Qed.

Lemma scan_cell_count b piece_num s ij :
  count_consistent s -> count_consistent (scan_cell b piece_num s ij).
Proof.
  destruct ij as [i j]. rewrite scan_cell_unfold. unfold count_consistent.
  destruct (cell b i j =? piece_num); [|done].
  generalize (violates b piece_num UP i j) (violates b piece_num DOWN i j)
             (violates b piece_num LEFT i j) (violates b piece_num RIGHT i j).
  intros vu vd vl vr. destruct s as [f u dn l r n].
  cbn [up_legal down_legal left_legal right_legal num_available_moves].
  intros ->. destruct u, dn, l, r, vu, vd, vl, vr; reflexivity.
Qed.

Lemma scan_board_count b piece_num : count_consistent (scan_board b piece_num).
Proof.
  unfold scan_board. generalize (row_major board_height board_width) as ps.
  assert (count_consistent move_scan_init) as H by reflexivity. revert H.
  generalize move_scan_init as s. intros s Hs ps. revert s Hs.
  induction ps as [|ij ps IH]; intros s Hs; cbn [fold_left]; [done|].
  by apply IH, scan_cell_count.
Qed.

Lemma scan_board_found b piece_num :
  piece_found (scan_board b piece_num) = label_present b piece_num.
Proof. unfold scan_board. by rewrite scan_fold_found. Qed.

Lemma obstructs_false piece_num v :
  obstructs piece_num v = false <-> passable piece_num v.
Proof.
  unfold obstructs, passable.
  destruct (Z.eqb_spec piece_num 2), (Z.eqb_spec v 0), (Z.eqb_spec v (-1)),
           (Z.eqb_spec v piece_num); simpl; split; intros; try done; lia.
Qed.

Lemma violates_false b piece_num d i j :
  (i < board_height)%nat -> (j < board_width)%nat ->
  violates b piece_num d i j = false <->
  exists i' j', neighbour d i j = Some (i', j') /\
                (i' < board_height)%nat /\ (j' < board_width)%nat /\
                passable piece_num (cell b i' j').
Proof.
  intros Hi Hj. unfold violates, neighbour.
  destruct d; rewrite orb_false_iff, obstructs_false.
  - destruct (Nat.eqb_spec i 0); split.
    + by intros [? _].
    + by intros (? & ? & ? & _).
    + intros [_ H]. exists (i - 1)%nat, j. split_and!; [done|lia|done|done].
    + intros (? & ? & [= <- <-] & _ & _ & H). done.
  - destruct (Nat.eqb_spec i (board_height - 1)); split.
    + by intros [? _].
    + intros (? & ? & [= <- <-] & ? & _). lia.
    + intros [_ H]. exists (i + 1)%nat, j. split_and!; [done|lia|done|done].
    + intros (? & ? & [= <- <-] & _ & _ & H). done.
  - destruct (Nat.eqb_spec j 0); split.
    + by intros [? _].
    + by intros (? & ? & ? & _).
    + intros [_ H]. exists i, (j - 1)%nat. split_and!; [done|done|lia|done].
    + intros (? & ? & [= <- <-] & _ & _ & H). done.
  - destruct (Nat.eqb_spec j (board_width - 1)); split.
    + by intros [? _].
    + intros (? & ? & [= <- <-] & _ & ? & _). lia.
    + intros [_ H]. exists i, (j + 1)%nat. split_and!; [done|done|lia|done].
    + intros (? & ? & [= <- <-] & _ & _ & H). done.
Qed.

(** The flag [getAvailableMoves] computes for a direction says that every
    cell of the block has an in-grid, passable neighbour in that direction. *)
Lemma legal_flag_iff b piece_num d :
  legal_flag (scan_board b piece_num) d = true <-> may_move b piece_num d.
Proof.
  unfold scan_board. rewrite scan_fold_flag.
  assert (legal_flag move_scan_init d = true) as -> by by destruct d.
  rewrite andb_true_l, forallb_forall. unfold may_move. split.
  - intros H i j Hi Hj Hc. apply violates_false; [done..|].
    specialize (H (i, j)). unfold cell_allows in H. simpl in H.
    rewrite Hc, Z.eqb_refl in H. simpl in H.
    apply negb_true_iff, H, in_row_major. done.
  - intros H [i j] [Hi Hj]%in_row_major. unfold cell_allows. simpl.
    destruct (Z.eqb_spec (cell b i j) piece_num) as [Hc|]; [|done]. simpl.
    apply negb_true_iff, violates_false; auto.
Qed.

Lemma elem_of_legal_moves b piece_num m :
  m ∈ legal_moves b piece_num <->
  block_num m = piece_num /\ may_move b piece_num (direction m).
Proof.
  unfold legal_moves, moves_of_scan. rewrite list_elem_of_fmap. split.
  - intros (d & -> & Hd). apply list_elem_of_filter in Hd as [Hd _]. simpl.
    split; [done|]. by apply legal_flag_iff.
  - intros [<- Hd]. exists (direction m). split; [by destruct m|].
    apply list_elem_of_filter. split; [by apply legal_flag_iff|].
    destruct (direction m); set_solver.
Qed.

Lemma getAvailableMoves_present b piece_num c :
  label_present b piece_num = true ->
  getAvailableMoves b piece_num c =
  (Z.of_nat (length (legal_moves b piece_num)),
   match legal_moves b piece_num with [] => c | ms => Some ms end).
Proof.
  intros Hp. unfold getAvailableMoves. rewrite scan_board_found, Hp.
  pose proof (scan_board_count b piece_num) as Hn. unfold count_consistent in Hn.
  unfold legal_moves, moves_of_scan. rewrite length_fmap, Hn.
  destruct (filter _ _) as [|d ds]; cbn [length fmap list_fmap]; [done|].
  destruct (0 <? Z.of_nat (S (length ds))) eqn:E; [done|apply Z.ltb_ge in E; lia].
Qed.

Lemma getAvailableMoves_absent b piece_num c :
  label_present b piece_num = false ->
  getAvailableMoves b piece_num c = (4, c).
Proof.
  intros Hp. unfold getAvailableMoves. rewrite scan_board_found, Hp.
  f_equal. unfold scan_board.
  assert (forall ps s, existsb (fun '(i, j) => cell b i j =? piece_num) ps = false ->
            fold_left (scan_cell b piece_num) ps s = s) as Hfix.
  { induction ps as [|[i j] ps IH]; intros s; cbn [fold_left existsb]; [done|].
    intros [Hc Hps]%orb_false_iff. rewrite scan_cell_unfold, Hc. by apply IH. }
  rewrite Hfix; [done|exact Hp].
Qed.

(** On a board that holds every label from 2 to [max_block_num], the
    enumeration is the union of the per-block moves in label order. *)
Lemma copy_moves_present b labels : forall c acc,
  (forall l, l ∈ labels -> label_present b l = true) ->
  copy_moves b labels c acc = Some (acc ++ flat_map (legal_moves b) labels).
Proof.
  induction labels as [|l labels IH]; intros c acc Hp; simpl.
  - by rewrite app_nil_r.
  - rewrite getAvailableMoves_present by (apply Hp; left).
    destruct (legal_moves b l) as [|m ms] eqn:Hms.
    + simpl. apply IH. intros; apply Hp; by right.
    + assert ((Z.of_nat (length (m :: ms)) <=? 0) = false) as ->
        by (apply Z.leb_gt; cbn [length]; lia).
      rewrite Z.leb_refl, Nat2Z.id, firstn_all.
      rewrite IH by (intros; apply Hp; by right). by rewrite <- app_assoc.
Qed.

Lemma getAllAvailableMoves_all_present b :
  (forall l, l ∈ movable_labels -> label_present b l = true) ->
  getAllAvailableMoves b = Some (all_legal_moves b).
Proof.
  intros Hp. unfold getAllAvailableMoves.
  destruct (count_moves b movable_labels None) as [n c].
  rewrite copy_moves_present by done. simpl. unfold all_legal_moves.
  rewrite filter_all; [done|]. apply list.Forall_forall. exact Hp.
Qed.

End MoveGenerator.

Section ProducedMoves.
Context `{G : Globals}.

Lemma legal_moves_produced b piece_num :
  label_present b piece_num = true -> 2 <= piece_num <= max_block_num ->
  Forall (produced b) (legal_moves b piece_num).
Proof.
  intros Hp Hrange. apply list.Forall_forall. intros m [Hm Hd]%elem_of_legal_moves.
  split; [split|]; by rewrite Hm.
Qed.

Lemma getAvailableMoves_cell_legal b piece_num c :
  2 <= piece_num <= max_block_num ->
  cell_legal b c -> cell_legal b (getAvailableMoves b piece_num c).2.
Proof.
  intros Hrange Hc. destruct (label_present b piece_num) eqn:Hp.
  - rewrite getAvailableMoves_present by done. cbn [snd].
    pose proof (legal_moves_produced b piece_num Hp Hrange) as Hl.
    destruct (legal_moves b piece_num); [done|]. by intros arr [= <-].
  - by rewrite getAvailableMoves_absent.
Qed.

Lemma count_moves_cell_legal b labels : forall total c,
  (forall l, l ∈ labels -> 2 <= l <= max_block_num) ->
  cell_legal b c ->
  cell_legal b (fold_left (fun '(total, c) i =>
                   let '(n, c') := getAvailableMoves b i c in (total + n, c'))
                 labels (total, c)).2.
Proof.
  induction labels as [|l labels IH]; intros total c Hl Hc; cbn [fold_left]; [done|].
  pose proof (getAvailableMoves_cell_legal b l c (Hl l (list_elem_of_here _ _)) Hc) as Hc'.
  destruct (getAvailableMoves b l c) as [n c']. apply IH; [|done].
  intros l' Hl'. apply Hl. by right.
Qed.

Lemma copy_moves_legal b labels : forall c acc ms,
  (forall l, l ∈ labels -> 2 <= l <= max_block_num) ->
  cell_legal b c -> Forall (produced b) acc ->
  copy_moves b labels c acc = Some ms -> Forall (produced b) ms.
Proof.
  induction labels as [|l labels IH]; intros c acc ms Hl Hc Hacc; cbn [copy_moves].
  - by intros [= <-].
  - pose proof (getAvailableMoves_cell_legal b l c (Hl l (list_elem_of_here _ _)) Hc) as Hc'.
    assert (forall l', l' ∈ labels -> 2 <= l' <= max_block_num) as Hl'
      by (intros l' ?; apply Hl; by right).
    destruct (getAvailableMoves b l c) as [n c']. cbn [snd] in Hc'.
    destruct (n <=? 0); [by apply IH|].
    destruct c' as [arr|]; [|done].
    destruct (n <=? Z.of_nat (length arr)); [|done].
    apply IH; [done|done|]. apply Forall_app. split; [done|].
    apply Forall_take. by apply Hc'.
Qed.

Lemma movable_labels_range l : l ∈ movable_labels -> 2 <= l <= max_block_num.
Proof. unfold movable_labels. rewrite elem_of_seqZ. lia. Qed.

(** Whatever [getAllAvailableMoves] returns, and whatever array a stale
    count made it copy from, each move of the result is a legal move of a
    movable block. *)
Lemma getAllAvailableMoves_produced b ms :
  getAllAvailableMoves b = Some ms -> Forall (produced b) ms.
Proof.
  unfold getAllAvailableMoves.
  pose proof (count_moves_cell_legal b movable_labels 0 None movable_labels_range) as Hc.
  unfold count_moves. destruct (fold_left _ _ _) as [n c]. cbn [snd] in Hc.
  apply copy_moves_legal; [apply movable_labels_range| |done]. apply Hc. by intros arr.
Qed.

End ProducedMoves.

(** ** A board on which a label below the highest is missing *)

(** C1, at a board the loader accepts on which block 3 is missing.  The
    block is not found, [getAvailableMoves] still returns its initial count
    of 4 and leaves the out-parameter alone, and [getAllAvailableMoves]
    copies the four moves of block 2 a second time: the enumeration is not
    the union of the moves of the blocks present. *)
Theorem getAllAvailableMoves_absent_label :
  @well_formed gap_globals gap_board /\
  @getAvailableMoves gap_globals gap_board 3 None = (4, None) /\
  @getAllAvailableMoves gap_globals gap_board
  = Some [Move 2 UP; Move 2 DOWN; Move 2 LEFT; Move 2 RIGHT;
          Move 2 UP; Move 2 DOWN; Move 2 LEFT; Move 2 RIGHT;
          Move 4 UP; Move 4 LEFT] /\
  @all_legal_moves gap_globals gap_board
  = [Move 2 UP; Move 2 DOWN; Move 2 LEFT; Move 2 RIGHT; Move 4 UP; Move 4 LEFT].
Proof.
  split; [apply well_formedb_spec; reflexivity|].
  split; [apply getAvailableMoves_absent; reflexivity|].
  split; vm_compute; reflexivity.
Qed.

(** * Applying a move *)

Lemma cell_set_cell h w (b : board) i j v i' j' :
  length b = h -> Forall (fun row => length row = w) b ->
  (i < h)%nat -> (j < w)%nat ->
  cell (set_cell b i j v) i' j' = if decide ((i, j) = (i', j')) then v else cell b i' j'.
Proof.
  intros Hh Hw Hi Hj. destruct (decide ((i, j) = (i', j'))) as [[= <- <-]|Hne].
  - apply (cell_set_cell_eq w); [lia|done|done].
  - by apply cell_set_cell_ne.
Qed.

Section ApplyMove.
Context `{G : Globals}.

Lemma stamped_covered b m i j :
  stamped b m (row_major board_height board_width) i j = true <-> covered b m i j.
Proof.
  unfold stamped, covered. rewrite existsb_exists. split.
  - intros ([i0 j0] & [Hi Hj]%in_row_major & [Hc Hn]%andb_true_iff).
    exists i0, j0. apply Z.eqb_eq in Hc. apply bool_decide_eq_true in Hn. done.
  - intros (i0 & j0 & Hi & Hj & Hc & Hn). exists (i0, j0).
    split; [by apply in_row_major|]. apply andb_true_iff. simpl.
    split; [by apply Z.eqb_eq|by apply bool_decide_eq_true].
Qed.

Lemma lift_block_cell b m i j :
  (i < board_height)%nat -> (j < board_width)%nat ->
  cell (lift_block b m) i j = if cell b i j =? block_num m then 0 else cell b i j.
Proof. intros. unfold lift_block. by rewrite cell_tabulate. Qed.

Lemma lift_block_rectangular b m : rectangular (lift_block b m).
Proof. split; [apply tabulate_length|apply tabulate_rows]. Qed.

(** The second loop of [applyMove] stays inside [temp_board] when the block
    may move, and stamps the label on the cells the block lands on. *)
Lemma drop_loop_completes b m ps :
  may_move b (block_num m) (direction m) ->
  (forall ij, ij ∈ ps -> (ij.1 < board_height)%nat /\ (ij.2 < board_width)%nat) ->
  forall temp, rectangular temp ->
  exists temp', foldM (drop_cell b m) ps temp = Some temp' /\ rectangular temp' /\
    forall i j, cell temp' i j = if stamped b m ps i j then block_num m else cell temp i j.
Proof.
  intros Hmove. induction ps as [|[i0 j0] ps IH]; intros Hps temp Hrect; cbn [foldM].
  - by exists temp.
  - destruct (Hps (i0, j0)) as [Hi0 Hj0]; [left|]. cbn [fst snd] in Hi0, Hj0.
    assert (exists temp1, drop_cell b m temp (i0, j0) = Some temp1 /\ rectangular temp1 /\
              forall i j, cell temp1 i j =
                if (cell b i0 j0 =? block_num m)
                   && bool_decide (neighbour (direction m) i0 j0 = Some (i, j))
                then block_num m else cell temp i j) as (temp1 & Hstep & Hrect1 & Hcells1).
    { unfold drop_cell. destruct (Z.eqb_spec (cell b i0 j0) (block_num m)) as [Hc|Hc].
      - destruct (Hmove i0 j0 Hi0 Hj0 Hc) as (i' & j' & Hn & Hi' & Hj' & _).
        rewrite Hn. cbn [mbind option_bind]. unfold store.
        destruct (Nat.ltb_spec i' board_height); [|lia].
        destruct (Nat.ltb_spec j' board_width); [|lia]. cbn [andb].
        destruct Hrect as [Hh Hw]. eexists. split; [done|].
        split; [split; [by rewrite set_cell_length|by apply set_cell_rows]|].
        intros i j. rewrite (cell_set_cell board_height board_width) by done.
        cbn [andb]. destruct (decide ((i', j') = (i, j))) as [[= <- <-]|Hne].
        + by rewrite bool_decide_eq_true_2.
        + rewrite bool_decide_eq_false_2; [done|]. congruence.
      - exists temp. done. }
    rewrite Hstep. cbn [mbind option_bind].
    destruct (IH (fun ij H => Hps ij (list_elem_of_further _ _ _ H)) temp1 Hrect1)
      as (temp' & Hrun & Hrect' & Hcells').
    exists temp'. split; [done|]. split; [done|].
    intros i j. rewrite Hcells', Hcells1. unfold stamped. cbn [existsb fst snd].
    destruct (existsb _ ps); [by rewrite orb_true_r|]. by rewrite orb_false_r.
Qed.

(** The contents of the board after [applyMove] with a move that may be
    made. *)
Lemma applyMove_spec b m :
  may_move b (block_num m) (direction m) ->
  exists b', applyMove b m = Some b' /\ rectangular b' /\
    forall i j, (i < board_height)%nat -> (j < board_width)%nat ->
      cell b' i j =
      if stamped b m (row_major board_height board_width) i j then block_num m
      else if cell b i j =? block_num m then 0 else cell b i j.
Proof.
  intros Hmove. unfold applyMove.
  destruct (drop_loop_completes b m (row_major board_height board_width) Hmove)
    with (temp := lift_block b m) as (b' & Hrun & Hrect & Hcells).
  - intros [i j] Hij%elem_of_row_major. done.
  - apply lift_block_rectangular.
  - exists b'. split; [done|]. split; [done|].
    intros i j Hi Hj. rewrite Hcells. by rewrite lift_block_cell.
Qed.

Lemma label_present_true b x :
  label_present b x = true <->
  exists i j, (i < board_height)%nat /\ (j < board_width)%nat /\ cell b i j = x.
Proof.
  unfold label_present. rewrite existsb_exists. split.
  - intros ([i j] & [Hi Hj]%in_row_major & Hc%Z.eqb_eq). by exists i, j.
  - intros (i & j & Hi & Hj & Hc). exists (i, j). split; [by apply in_row_major|].
    by apply Z.eqb_eq.
Qed.

(** A legal move leads from a well-formed board to a well-formed board. *)
Lemma applyMove_well_formed b m b' :
  0 <= max_block_num ->
  well_formed b -> legal b m -> applyMove b m = Some b' -> well_formed b'.
Proof.
  intros Hmax Hwf [Hp Hmove] Hrun.
  destruct (applyMove_spec b m Hmove) as (b'' & Hrun' & [Hh Hw] & Hcells).
  assert (b'' = b') as -> by congruence.
  apply label_present_true in Hp as (i0 & j0 & Hi0 & Hj0 & Hc0).
  pose proof (well_formed_cell b i0 j0 Hwf Hi0 Hj0) as Hl.
  rewrite <- (cloneGameState_id b') by by split. unfold cloneGameState.
  apply well_formed_tabulate. intros i j Hi Hj. rewrite Hcells by done.
  pose proof (well_formed_cell b i j Hwf Hi Hj).
  destruct (stamped _ _ _ _ _); [lia|]. destruct (_ =? _); lia.
Qed.

(** A legal move does not bring back a goal cell. *)
Lemma applyMove_complete b m b' :
  checkGameComplete b = true -> legal b m -> applyMove b m = Some b' ->
  checkGameComplete b' = true.
Proof.
  intros Hdone [Hp Hmove] Hrun.
  destruct (applyMove_spec b m Hmove) as (b'' & Hrun' & _ & Hcells).
  assert (b'' = b') as -> by congruence.
  rewrite checkGameComplete_true in Hdone. apply checkGameComplete_true.
  apply label_present_true in Hp as (i0 & j0 & Hi0 & Hj0 & Hc0).
  intros i j Hi Hj. rewrite Hcells by done.
  pose proof (Hdone i j Hi Hj). pose proof (Hdone i0 j0 Hi0 Hj0).
  destruct (stamped _ _ _ _ _); [lia|]. destruct (_ =? _); lia.
Qed.

(** C6.  For a well-formed board [b] stored at [input_state] and a move
    legal for it, [applyMoveCloning] returns the address of a board that
    was not allocated before; every board allocated before, [b] included,
    is left as it was; in the new board each cell of the block has its
    neighbour in the direction of the move labeled with the block, a cell
    the block does not land on is 0 if it held the block and is as in [b]
    otherwise. *)
Theorem applyMoveCloning_frame (hp : board_heap) (input_state : nat) (b : board) (m : MOVE) :
  hp !! input_state = Some b -> well_formed b -> legal b m ->
  exists board_clone hp' b',
    applyMoveCloning hp input_state m = Some (board_clone, hp') /\
    hp !! board_clone = None /\
    hp' !! board_clone = Some b' /\
    hp' !! input_state = Some b /\
    (forall p, (p < length hp)%nat -> hp' !! p = hp !! p) /\
    rectangular b' /\
    (forall i j, (i < board_height)%nat -> (j < board_width)%nat ->
       cell b i j = block_num m ->
       exists i' j', neighbour (direction m) i j = Some (i', j') /\
                     (i' < board_height)%nat /\ (j' < board_width)%nat /\
                     cell b' i' j' = block_num m) /\
    (forall i j, (i < board_height)%nat -> (j < board_width)%nat ->
       ~ covered b m i j ->
       cell b' i j = if cell b i j =? block_num m then 0 else cell b i j).
Proof.
  intros Hin Hwf [Hp Hmove].
  destruct (applyMove_spec b m Hmove) as (b' & Hrun & Hrect & Hcells).
  exists (length hp), (hp ++ [b']), b'.
  assert ((length hp ≠ input_state)%nat) as Hne.
  { apply lookup_lt_Some in Hin. lia. }
  split_and!.
  - unfold applyMoveCloning, cloneGameState_alloc, applyMove_in_place.
    rewrite Hin. cbn [mbind option_bind].
    rewrite cloneGameState_id by by apply well_formed_rectangular.
    rewrite list_lookup_middle by done. cbn [mbind option_bind].
    rewrite Hrun. cbn [mbind option_bind].
    rewrite insert_app_r_alt by done. by rewrite Nat.sub_diag.
  - by apply lookup_ge_None_2.
  - by apply list_lookup_middle.
  - rewrite lookup_app_l by (by eapply lookup_lt_Some). done.
  - intros p Hp'. by rewrite lookup_app_l.
  - done.
  - intros i j Hi Hj Hc. destruct (Hmove i j Hi Hj Hc) as (i' & j' & Hn & Hi' & Hj' & _).
    exists i', j'. split_and!; [done..|]. rewrite Hcells by done.
    rewrite (proj2 (stamped_covered b m i' j')); [done|]. by exists i, j.
  - intros i j Hi Hj Hcov. rewrite Hcells by done.
    destruct (stamped _ _ _ _ _) eqn:Hs; [|done]. by apply stamped_covered in Hs.
Qed.

End ApplyMove.

Lemma applyMoveCloning_frame_witness :
  exists board_clone hp',
    @applyMoveCloning level_globals [level_board] 0 (Move 2 LEFT) = Some (board_clone, hp')
    /\ hp' !! 0%nat = Some level_board.
Proof.
  destruct (@applyMoveCloning_frame level_globals [level_board] 0%nat level_board (Move 2 LEFT))
    as (board_clone & hp' & b' & H1 & _ & _ & H2 & _).
  - reflexivity.
  - apply well_formedb_spec. reflexivity.
  - split; [reflexivity|]. apply legal_flag_iff. reflexivity.
  - exists board_clone, hp'. split; assumption.
Defined.

(** * The order of encounter is the reading order *)

Lemma index_of_app_skip x l l' k :
  x ∉ l -> index_of x (l ++ l') = Some k -> (length l <= k)%nat.
Proof.
  revert k. induction l as [|y l IH]; intros k Hx; cbn [app index_of length]; [lia|].
  apply not_elem_of_cons in Hx as [Hne Hx]. rewrite decide_False by done.
  destruct (index_of x (l ++ l')) as [k'|] eqn:Hk; [|done]. intros [= <-].
  specialize (IH k' Hx eq_refl). lia.
Qed.

Lemma index_of_prefix x l l' k :
  l `prefix_of` l' -> index_of x l = Some k -> index_of x l' = Some k.
Proof.
  intros [rest ->] Hk. rewrite index_of_app_l; [done|].
  apply index_of_Some in Hk. by eapply list_elem_of_lookup_2.
Qed.

(** Of two labels above 2 that the scan had not seen, the one comes first
    in the order of encounter that occurs in the scanned list before any
    occurrence of the other. *)
Lemma first_seen_order labels : forall seen x y kx ky,
  x ∉ seen -> y ∉ seen -> 2 < x -> 2 < y -> x <> y ->
  index_of x (first_seen seen labels) = Some kx ->
  index_of y (first_seen seen labels) = Some ky ->
  ((kx < ky)%nat <-> exists l1 l2, labels = l1 ++ x :: l2 /\ y ∉ l1).
Proof.
  induction labels as [|z labels IH]; intros seen x y kx ky Hx Hy Hx2 Hy2 Hne Hkx Hky.
  - cbn [first_seen] in Hkx. apply index_of_Some, list_elem_of_lookup_2 in Hkx. done.
  - cbn [first_seen] in Hkx, Hky.
    destruct (decide (z = x)) as [->|Hzx]; [|destruct (decide (z = y)) as [->|Hzy]].
    + rewrite (proj2 (Z.ltb_lt 2 x)), bool_decide_eq_false_2 in Hkx, Hky by done.
      cbn [negb andb] in Hkx, Hky.
      pose proof (first_seen_prefix (seen ++ [x]) labels) as Hpre.
      rewrite (index_of_prefix x _ _ (length seen) Hpre) in Hkx
        by by apply index_of_app_new.
      injection Hkx as <-. destruct Hpre as [rest Hrest]. rewrite Hrest in Hky.
      apply index_of_app_skip in Hky.
      * rewrite length_app in Hky. cbn [length] in Hky.
        split; [intros _|lia]. exists [], labels. split; [done|apply not_elem_of_nil].
      * rewrite elem_of_app, list_elem_of_singleton. intros [?|?]; [done|congruence].
    + rewrite (proj2 (Z.ltb_lt 2 y)), bool_decide_eq_false_2 in Hkx, Hky by done.
      cbn [negb andb] in Hkx, Hky.
      pose proof (first_seen_prefix (seen ++ [y]) labels) as Hpre.
      rewrite (index_of_prefix y _ _ (length seen) Hpre) in Hky
        by by apply index_of_app_new.
      injection Hky as <-. destruct Hpre as [rest Hrest]. rewrite Hrest in Hkx.
      apply index_of_app_skip in Hkx.
      * rewrite length_app in Hkx. cbn [length] in Hkx. split; [lia|].
        intros ([|z l1] & l2 & Heq & Hnot).
        -- injection Heq as Heq _. congruence.
        -- injection Heq as -> _. destruct Hnot. left.
      * rewrite elem_of_app, list_elem_of_singleton. intros [?|?]; [done|congruence].
    + assert ((kx < ky)%nat <-> exists l1 l2, labels = l1 ++ x :: l2 /\ y ∉ l1) as Hrec.
      { destruct ((2 <? z) && negb (bool_decide (z ∈ seen))).
        - apply (IH (seen ++ [z])); try done.
          + rewrite elem_of_app, list_elem_of_singleton. intros [?|?]; [done|congruence].
          + rewrite elem_of_app, list_elem_of_singleton. intros [?|?]; [done|congruence].
        - by apply (IH seen). }
      rewrite Hrec. split.
      * intros (l1 & l2 & -> & Hnot). exists (z :: l1), l2. split; [done|].
        apply not_elem_of_cons. split; [congruence|done].
      * intros ([|z' l1] & l2 & Heq & Hnot).
        -- injection Heq as Heq _. congruence.
        -- injection Heq as -> ->. exists l1, l2. split; [done|].
           by apply not_elem_of_cons in Hnot as [_ ?].
Qed.

Lemma read_before_asym p q : read_before p q -> read_before q p -> False.
Proof. unfold read_before. lia. Qed.

(** The double loops visit the grid in reading order. *)
Lemma row_sorted i w : forall a,
  StronglySorted read_before (pair i <$> seq a w).
Proof.
  induction w as [|w IH]; intros a; cbn [seq fmap list_fmap]; constructor; [apply IH|].
  apply list.Forall_forall. intros [i' j] (j' & [= -> ->] & Hj%elem_of_seq)%list_elem_of_fmap.
  right. cbn [fst snd]. lia.
Qed.

Lemma row_major_sorted h w : StronglySorted read_before (row_major h w).
Proof.
  unfold row_major. generalize 0%nat at 2 as s.
  induction h as [|h IH]; intros s; cbn [seq flat_map]; [constructor|].
  apply StronglySorted_app_2; [|apply row_sorted|apply IH].
  intros [i1 j1] [i2 j2] (j & [= -> ->] & _)%list_elem_of_fmap H2.
  apply list_elem_of_In, in_flat_map in H2 as (i & Hi%in_seq & H2).
  apply list_elem_of_In, list_elem_of_fmap in H2 as (j' & [= -> ->] & _).
  left. cbn [fst]. lia.
Qed.

Section EncounterOrder.
Context `{G : Globals}.

Lemma canonical_label_present b x :
  2 < x -> x ∈ labels_row_major b ->
  exists k, index_of x (encounter_order b) = Some k /\
            (k < length (encounter_order b))%nat /\
            canonical_label (encounter_order b) x = 3 + Z.of_nat k.
Proof.
  intros Hx Hin. destruct (index_of_elem x (encounter_order b)) as [k Hk].
  { apply elem_of_encounter_order. split; [done|]. by apply elem_of_labels_row_major. }
  exists k. split; [done|]. split; [|by apply canonical_label_high].
  apply index_of_Some in Hk. by eapply lookup_lt_Some.
Qed.

(** The canonical labels of two blocks above 2 compare as the blocks are
    met: the first cell of the one is read before the first cell of the
    other. *)
Lemma normalize_spec_order b i j i' j' :
  (i < board_height)%nat -> (j < board_width)%nat ->
  (i' < board_height)%nat -> (j' < board_width)%nat ->
  2 < cell b i j -> 2 < cell b i' j' ->
  (cell (normalize_spec b) i j < cell (normalize_spec b) i' j'
   <-> met_before b (cell b i j) (cell b i' j')).
Proof.
  intros Hi Hj Hi' Hj' Hx Hy. rewrite !normalize_spec_cell by done.
  set (x := cell b i j) in *. set (y := cell b i' j') in *.
  destruct (canonical_label_present b x) as (kx & Hkx & _ & ->);
    [done|apply elem_of_labels_row_major; by exists i, j|].
  destruct (canonical_label_present b y) as (ky & Hky & _ & ->);
    [done|apply elem_of_labels_row_major; by exists i', j'|].
  destruct (decide (x = y)) as [Heq|Hne].
  - rewrite Heq in *. assert (kx = ky) as -> by congruence. split; [lia|].
    intros (i0 & j0 & Hi0 & Hj0 & Hc & Hall).
    destruct (read_before_asym (i0, j0) (i0, j0)); by apply Hall.
  - unfold encounter_order in Hkx, Hky.
    assert (3 + Z.of_nat kx < 3 + Z.of_nat ky <-> (kx < ky)%nat) as -> by lia.
    rewrite (first_seen_order _ [] x y kx ky) by (done || apply not_elem_of_nil).
    pose proof (row_major_sorted board_height board_width) as Hsorted. split.
    + intros (l1 & l2 & Hsplit & Hnot). unfold labels_row_major in Hsplit.
      apply fmap_app_inv in Hsplit as (P1 & P' & -> & Hx' & Hgrid).
      symmetry in Hx'. apply fmap_cons_inv in Hx' as ([i0 j0] & P2 & Hc & -> & ->).
      cbn [fst snd] in Hc.
      assert ((i0, j0) ∈ row_major board_height board_width) as Hin.
      { rewrite Hgrid. apply elem_of_app. right. left. }
      apply elem_of_row_major in Hin as [Hi0 Hj0].
      exists i0, j0. split; [done|]. split; [done|]. split; [done|].
      intros i1 j1 Hi1 Hj1 Hc1.
      assert ((i1, j1) ∈ row_major board_height board_width) as Hin1
        by by apply elem_of_row_major.
      rewrite Hgrid in Hin1, Hsorted.
      apply elem_of_app in Hin1 as [Hin1|Hin1].
      * destruct Hnot. apply list_elem_of_fmap. by exists (i1, j1).
      * apply elem_of_cons in Hin1 as [[= -> ->]|Hin1]; [congruence|].
        apply StronglySorted_app_1_r, StronglySorted_cons in Hsorted as [Hall _].
        by apply (proj1 (list.Forall_forall _ _) Hall).
    + intros (i0 & j0 & Hi0 & Hj0 & Hc & Hall).
      assert ((i0, j0) ∈ row_major board_height board_width) as Hin
        by by apply elem_of_row_major.
      apply list_elem_of_split in Hin as (P1 & P2 & Hgrid).
      exists ((fun ij => cell b ij.1 ij.2) <$> P1), ((fun ij => cell b ij.1 ij.2) <$> P2).
      split.
      * unfold labels_row_major. rewrite Hgrid, fmap_app, fmap_cons. cbn [fst snd].
        by rewrite Hc.
      * intros ([i1 j1] & Hc1 & Hin1)%list_elem_of_fmap. cbn [fst snd] in Hc1.
        assert ((i1, j1) ∈ row_major board_height board_width) as Hin1'.
        { rewrite Hgrid. apply elem_of_app. by left. }
        apply elem_of_row_major in Hin1' as [Hi1 Hj1].
        rewrite Hgrid in Hsorted.
        apply (read_before_asym (i0, j0) (i1, j1)); [by apply Hall|].
        apply (StronglySorted_app_1_elem_of _ _ _ _ _ Hsorted); [done|left].
Qed.

Lemma index_of_lookup x l k : NoDup l -> l !! k = Some x -> index_of x l = Some k.
Proof.
  intros Hnd Hk. destruct (index_of_elem x l) as [k' Hk']; [by eapply list_elem_of_lookup_2|].
  rewrite Hk'. f_equal. apply index_of_Some in Hk'. by eapply NoDup_lookup.
Qed.

(** The labels above 2 of the canonical form are 3, 4, ... without a gap,
    as many as there are blocks above 2. *)
Lemma normalize_spec_labels b l :
  2 < l ->
  (label_present (normalize_spec b) l = true
   <-> l < 3 + Z.of_nat (length (encounter_order b))).
Proof.
  intros Hl. rewrite label_present_true. split.
  - intros (i & j & Hi & Hj & Hc). rewrite normalize_spec_cell in Hc by done.
    destruct (decide (cell b i j <= 2)) as [Hlow|Hhigh].
    + rewrite canonical_label_low in Hc by done. lia.
    + destruct (canonical_label_present b (cell b i j)) as (k & _ & Hlt & Hk);
        [lia|apply elem_of_labels_row_major; by exists i, j|]. lia.
  - intros Hlt.
    destruct (lookup_lt_is_Some_2 (encounter_order b) (Z.to_nat (l - 3))) as [x Hx]; [lia|].
    assert (x ∈ encounter_order b) as Hxin by by eapply list_elem_of_lookup_2.
    apply elem_of_encounter_order in Hxin as (Hx2 & i & j & Hi & Hj & Hc).
    exists i, j. split; [done|]. split; [done|].
    rewrite normalize_spec_cell, Hc by done.
    rewrite (canonical_label_high _ x (Z.to_nat (l - 3))); [lia|done|].
    apply index_of_lookup; [apply encounter_order_NoDup|done].
Qed.

End EncounterOrder.

(** * Normalization: the results *)

Section NormalizeResults.
Context `{G : Globals}.

(** C9.  [normalizeState] allocates [max_block_num] entries for [block_seen]
    and for [remap] and initialises the entries [0 .. max_block_num]: the
    write [block_seen[max_block_num] = false] falls outside the allocation,
    whatever the board, so that no run of the function as written stays within
    its tables. *)
Theorem normalizeState_out_of_bounds (b : board) :
  0 <= max_block_num -> normalizeState b = None.
Proof.
  intros Hmax. unfold normalizeState, normalizeState_with.
  by rewrite init_loop_overruns.
Qed.

(** A key that was inserted at a cost is found from then on. *)
Lemma inserted_key_is_hit t k v t' :
  table_costs_nonneg t -> 0 <= v -> insertIntoStateHashTable t k v = Some t' ->
  exists hash_table_value, getHashTableValue t' k = Some hash_table_value /\
                           0 <= hash_table_value.
Proof.
  intros Hnn Hv Hins. rewrite (getHashTableValue_insert _ _ _ _ _ Hins), strcmp_eq_refl.
  destruct (table_holds t k) eqn:Hh; [by apply table_holds_value|by exists v].
Qed.

(** C4.  As written, with tables of [max_block_num] entries,
    [normalizeState] writes past its tables on every board and yields no
    canonical form, neither of a board nor of its twin.  The loops
    themselves do what the claim says: run with tables of more than
    [max_block_num] entries they keep the cells labeled 2 or below and give
    the blocks labeled 3 or more the labels 3, 4, ... without a gap, in the
    order in which a scan from the top row down and from left to right
    first meets them, so that a board [b2] that is [b1]
    with the labels above 2 renamed one-to-one is normalized to the same
    board, yields the same key, and is found in the table once the key of
    the first has been inserted. *)
Theorem normalizeState_canonical_overrun (entries : nat) (b1 b2 : board)
    (sigma : Z -> Z) :
  well_formed b1 -> well_formed b2 -> 0 <= max_block_num ->
  (forall x, x <= 2 -> sigma x = x) ->
  (forall x, 2 < x -> 2 < sigma x) ->
  (forall x y, 2 < x -> 2 < y -> sigma x = sigma y -> x = y) ->
  b2 = relabel sigma b1 ->
  normalizeState b1 = None /\ normalizeState b2 = None /\
  (max_block_num < Z.of_nat entries ->
   exists n,
     normalizeState_with entries b1 = Some n /\
     (forall i j, (i < board_height)%nat -> (j < board_width)%nat ->
        cell b1 i j <= 2 -> cell n i j = cell b1 i j) /\
     (forall i j, (i < board_height)%nat -> (j < board_width)%nat ->
        2 < cell b1 i j ->
        exists k, encounter_order b1 !! k = Some (cell b1 i j) /\
                  cell n i j = 3 + Z.of_nat k) /\
     (forall i j i' j',
        (i < board_height)%nat -> (j < board_width)%nat ->
        (i' < board_height)%nat -> (j' < board_width)%nat ->
        2 < cell b1 i j -> 2 < cell b1 i' j' ->
        (cell n i j < cell n i' j' <-> met_before b1 (cell b1 i j) (cell b1 i' j'))) /\
     (forall l l', 3 <= l <= l' ->
        label_present n l' = true -> label_present n l = true) /\
     normalizeState_with entries b2 = Some n /\
     (forall k t c t',
        getStateHashKey n = Some k -> table_costs_nonneg t -> 0 <= c ->
        insertIntoStateHashTable t k c = Some t' ->
        exists hash_table_value,
          getHashTableValue t' k = Some hash_table_value /\ 0 <= hash_table_value)).
Proof.
  intros Hwf1 Hwf2 Hmax Hlow Hhigh Hinj ->.
  split; [by apply normalizeState_out_of_bounds|].
  split; [by apply normalizeState_out_of_bounds|].
  intros Hentries. exists (normalize_spec b1).
  split; [by apply normalizeState_with_spec|]. split_and!.
  - intros i j Hi Hj Hc. rewrite normalize_spec_cell by done.
    by apply canonical_label_low.
  - intros i j Hi Hj Hc.
    destruct (index_of_elem (cell b1 i j) (encounter_order b1)) as [k Hk].
    { apply elem_of_encounter_order. split; [done|]. by exists i, j. }
    exists k. split; [by apply index_of_Some|].
    rewrite normalize_spec_cell by done. by apply canonical_label_high.
  - intros i j i' j' Hi Hj Hi' Hj' Hc Hc'. by apply normalize_spec_order.
  - intros l l' Hl. rewrite !normalize_spec_labels by lia. lia.
  - rewrite normalizeState_with_spec by done. f_equal.
    apply normalize_spec_relabel; auto.
  - intros k t c t' _ Hnn Hc Hins. by apply (inserted_key_is_hit t k c).
Qed.

(** C5.  As written [normalizeState] writes past its tables on every
    board, so that there is no normalized board to normalize again.  Run
    with tables of more than [max_block_num] entries, normalizing twice is
    normalizing once, and no cell labeled 0, 1, -1 or 2 is changed. *)
Theorem normalizeState_idempotent_overrun (entries : nat) (b : board) :
  well_formed b -> 0 <= max_block_num ->
  normalizeState b = None /\
  (max_block_num < Z.of_nat entries ->
   exists n,
     normalizeState_with entries b = Some n /\
     normalizeState_with entries n = Some n /\
     normalizeState n = None /\
     forall i j, (i < board_height)%nat -> (j < board_width)%nat ->
       cell b i j = 0 \/ cell b i j = 1 \/ cell b i j = -1 \/ cell b i j = 2 ->
       cell n i j = cell b i j).
Proof.
  intros Hwf Hmax. split; [by apply normalizeState_out_of_bounds|].
  intros Hentries. exists (normalize_spec b). split_and!.
  - by apply normalizeState_with_spec.
  - rewrite normalizeState_with_spec by (by try apply normalize_spec_well_formed).
    by rewrite normalize_spec_idempotent.
  - by apply normalizeState_out_of_bounds.
  - intros i j Hi Hj Hc. rewrite normalize_spec_cell by done.
    apply canonical_label_low. lia.
Qed.

End NormalizeResults.

(** ** Instances *)

Lemma normalizeState_out_of_bounds_witness :
  0 <= @max_block_num level_globals /\ @normalizeState level_globals level_board = None.
Proof.
  split; [vm_compute; discriminate|].
  apply (@normalizeState_out_of_bounds level_globals level_board).
  vm_compute; discriminate.
Defined.

Lemma normalizeState_canonical_overrun_witness :
  @normalizeState level_globals level_board = None /\
  @normalizeState level_globals level_twin = None /\
  @normalizeState_with level_globals 5 level_twin
  = @normalizeState_with level_globals 5 level_board.
Proof.
  destruct (@normalizeState_canonical_overrun level_globals 5 level_board level_twin
              swap_3_4) as (Hnone1 & Hnone2 & Hsome).
  - apply well_formedb_spec. reflexivity.
  - apply well_formedb_spec. reflexivity.
  - vm_compute. discriminate.
  - intros x Hx. unfold swap_3_4.
    destruct (Z.eqb_spec x 3); [lia|]. destruct (Z.eqb_spec x 4); [lia|]. reflexivity.
  - intros x Hx. unfold swap_3_4.
    destruct (Z.eqb_spec x 3); [lia|]. destruct (Z.eqb_spec x 4); lia.
  - intros x y Hx Hy. unfold swap_3_4.
    destruct (Z.eqb_spec x 3); destruct (Z.eqb_spec x 4);
      destruct (Z.eqb_spec y 3); destruct (Z.eqb_spec y 4); lia.
  - reflexivity.
  - destruct Hsome as (n & H1 & _ & _ & _ & _ & H2 & _); [vm_compute; reflexivity|].
    split; [exact Hnone1|]. split; [exact Hnone2|]. rewrite H1, H2. reflexivity.
Defined.

Lemma normalizeState_idempotent_overrun_witness :
  @normalizeState level_globals level_board = None /\
  exists n, @normalizeState_with level_globals 5 level_board = Some n
            /\ @normalizeState_with level_globals 5 n = Some n.
Proof.
  destruct (@normalizeState_idempotent_overrun level_globals 5 level_board)
    as (Hnone & Hsome).
  - apply well_formedb_spec. reflexivity.
  - vm_compute. discriminate.
  - destruct Hsome as (n & H1 & H2 & _); [vm_compute; reflexivity|].
    split; [exact Hnone|]. exists n. split; assumption.
Defined.

(** * The policy on visited states *)

Section VisitedPolicy.
Context `{G : Globals}.


(** Without the key in the table, and with a slot for it, both policies
    take the successor in. *)
Lemma unvisited_state_policy (m : memory) (current_state_node : STATE_NODE)
    (mv : MOVE) (next_board_state : board) (k : list Z) (depth : Z) (t' : state_table) :
  getStateHashKey next_board_state = Some k ->
  table_costs_nonneg (visited m) ->
  table_holds (visited m) k = false ->
  insertIntoStateHashTable (visited m) k depth = Some t' ->
  bfs_visit m current_state_node mv next_board_state depth
  = Some (with_visited (bfsEnqueue m next_board_state (Some mv) (Some current_state_node)) t')
  /\
  dfs_visit m current_state_node mv next_board_state depth
  = Some (with_visited (dfsPushStack m next_board_state (Some mv) (Some current_state_node))
            t').
Proof.
  intros Hkey Hnn Hholds Hins. unfold bfs_visit, dfs_visit. rewrite Hkey.
  cbn [mbind option_bind]. rewrite table_holds_nonneg in Hholds by done.
  destruct (insertIntoStateHashTable_inv _ _ _ _ Hins) as (index & chain & _ & Hi & Hc & _).
  assert (getHashTableValue (visited m) k = Some (chain_find chain k)) as Hget.
  { unfold getHashTableValue. rewrite Hi. cbn [mbind option_bind]. by rewrite Hc. }
  rewrite Hget in *. cbn [mbind option_bind].
  apply Z.leb_gt in Hholds. rewrite (proj2 (Z.leb_gt 0 _)) by done.
  rewrite (proj2 (Z.ltb_lt _ 0)) by done. cbn [bfsEnqueue dfsPushStack visited].
  by rewrite Hins.
Qed.

End VisitedPolicy.

(** * Selection of the best node *)

Section BestNode.
Context `{G : Globals}.

(** The pair [(shortest_path, shortest_node)] after the scan of [chain]. *)
Lemma better_fold chain : forall shortest_path shortest_node,
  (forall n, n ∈ chain ->
     (fold_left better chain (shortest_path, shortest_node)).1 <= f_of_n n) /\
  ((fold_left better chain (shortest_path, shortest_node) = (shortest_path, shortest_node)
    /\ forall n, n ∈ chain -> shortest_path <= f_of_n n)
   \/ (exists best, best ∈ chain
         /\ fold_left better chain (shortest_path, shortest_node) = (f_of_n best, Some best)
         /\ f_of_n best < shortest_path)).
Proof.
  induction chain as [|x chain IH]; intros sp sn; cbn [fold_left].
  - split; [by intros n ?%elem_of_nil|]. left. split; [done|]. by intros n ?%elem_of_nil.
  - unfold better at 2 4 6. cbn [fst].
    destruct (Z.ltb_spec (f_of_n x) sp) as [Hlt|Hge].
    + destruct (IH (f_of_n x) (Some x)) as [Hmin [[Hr Hall]|(best & Hin & Hr & Hbest)]].
      * split.
        -- intros n [->|Hn]%elem_of_cons; [by rewrite Hr|by apply Hmin].
        -- right. exists x. split; [left|]. split; [exact Hr|exact Hlt].
      * split.
        -- intros n [->|Hn]%elem_of_cons; [rewrite Hr; cbn [fst]; lia|by apply Hmin].
        -- right. exists best. split; [by right|]. split; [exact Hr|lia].
    + destruct (IH sp sn) as [Hmin [[Hr Hall]|(best & Hin & Hr & Hbest)]].
      * split.
        -- intros n [->|Hn]%elem_of_cons; [by rewrite Hr|by apply Hmin].
        -- left. split; [exact Hr|].
           intros n [->|Hn]%elem_of_cons; [done|by apply Hall].
      * split.
        -- intros n [->|Hn]%elem_of_cons; [rewrite Hr; cbn [fst]; lia|by apply Hmin].
        -- right. exists best. split; [by right|]. split; [exact Hr|exact Hbest].
Qed.

(** C10.  With a node of cost-plus-estimate below [WORST_CASE_DISTANCE] in
    the queue, [getBestNode] returns a node of the queue that minimizes
    [path_cost + get_heuristic].  Without one it returns the null pointer,
    and [aStarSearch], which hands the result to [removeNode] and reads it
    without a test, leaves the defined behaviour as soon as the queue is not
    empty. *)
Theorem getBestNode_minimizes (m : memory) :
  ((exists n, n ∈ bfs_fifo m /\
              path_cost n + get_heuristic (board_state n) < WORST_CASE_DISTANCE) ->
   exists best, getBestNode m = Some best /\ best ∈ bfs_fifo m /\
                forall n, n ∈ bfs_fifo m ->
                  path_cost best + get_heuristic (board_state best)
                  <= path_cost n + get_heuristic (board_state n)) /\
  ((forall n, n ∈ bfs_fifo m ->
      WORST_CASE_DISTANCE <= path_cost n + get_heuristic (board_state n)) ->
   getBestNode m = None /\
   (bfs_fifo m <> [] -> forall fuel, astar_loop (S fuel) m = Undefined)).
Proof.
  unfold getBestNode.
  destruct (better_fold (bfs_fifo m) WORST_CASE_DISTANCE None)
    as [Hmin [[Hr Hall]|(best & Hin & Hr & Hbest)]]; unfold f_of_n in *.
  - split.
    + intros (n & Hn & Hlt). specialize (Hall n Hn). lia.
    + intros _. rewrite Hr. split; [done|]. intros Hne fuel. cbn [astar_loop].
      unfold bfsQueueIsEmpty, getBestNode. rewrite Hr.
      by destruct (bfs_fifo m).
  - split.
    + intros _. exists best. rewrite Hr. split; [done|]. split; [done|].
      intros n Hn. specialize (Hmin n Hn). by rewrite Hr in Hmin.
    + intros Hall. specialize (Hall best Hin). lia.
Qed.

End BestNode.

(** * Successors *)

Section Successors.
Context `{G : Globals}.

Lemma normalize_spec_complete b :
  checkGameComplete b = true -> checkGameComplete (normalize_spec b) = true.
Proof.
  rewrite !checkGameComplete_true. intros Hb i j Hi Hj.
  rewrite normalize_spec_cell by done. specialize (Hb i j Hi Hj).
  unfold canonical_label. destruct (2 <? cell b i j); [|done].
  destruct (index_of _ _); lia.
Qed.

Lemma normalize_spec_incomplete b :
  checkGameComplete b = false -> checkGameComplete (normalize_spec b) = false.
Proof.
  intros Hb. apply not_true_is_false. intros Hn. apply not_true_iff_false in Hb.
  apply Hb. rewrite checkGameComplete_true in *. intros i j Hi Hj Hc.
  apply (Hn i j Hi Hj). rewrite normalize_spec_cell by done.
  rewrite canonical_label_low by lia. done.
Qed.

(** What the second loop of [getAllAvailableMoves] has copied stays in the
    array, and the moves of a block that is on the board are copied. *)
Lemma copy_moves_keeps b labels : forall c acc ms,
  copy_moves b labels c acc = Some ms ->
  (forall mv, mv ∈ acc -> mv ∈ ms) /\
  (forall l mv, l ∈ labels -> label_present b l = true ->
                mv ∈ legal_moves b l -> mv ∈ ms).
Proof.
  induction labels as [|l labels IH]; intros c acc ms; cbn [copy_moves].
  - intros [= <-]. split; [done|]. by intros l mv ?%elem_of_nil.
  - destruct (label_present b l) eqn:Hp.
    + rewrite getAvailableMoves_present by done.
      destruct (legal_moves b l) as [|m0 ms0] eqn:Hms.
      * cbn [length Z.of_nat Z.leb Z.compare]. intros Hrun.
        destruct (IH _ _ _ Hrun) as [Hacc Hrest]. split; [done|].
        intros l' mv [->|Hl']%elem_of_cons Hp' Hmv; [|by eapply Hrest].
        rewrite Hms in Hmv. by apply elem_of_nil in Hmv.
      * assert ((Z.of_nat (length (m0 :: ms0)) <=? 0) = false) as ->
          by (apply Z.leb_gt; cbn [length]; lia).
        rewrite Z.leb_refl, Nat2Z.id, firstn_all. intros Hrun.
        destruct (IH _ _ _ Hrun) as [Hacc Hrest]. split.
        -- intros mv Hmv. apply Hacc, elem_of_app. by left.
        -- intros l' mv [->|Hl']%elem_of_cons Hp' Hmv; [|by eapply Hrest].
           apply Hacc, elem_of_app. right. by rewrite <- Hms.
    + rewrite getAvailableMoves_absent by done.
      cbn [Z.leb Z.compare]. destruct c as [arr|]; [|done].
      destruct (4 <=? Z.of_nat (length arr)); [|done]. intros Hrun.
      destruct (IH _ _ _ Hrun) as [Hacc Hrest]. split.
      * intros mv Hmv. apply Hacc, elem_of_app. by left.
      * intros l' mv [->|Hl']%elem_of_cons Hp' Hmv; [congruence|by eapply Hrest].
Qed.

(** Every legal move of a movable block is in the array
    [getAllAvailableMoves] returns, when it returns one. *)
Lemma getAllAvailableMoves_complete b ms mv :
  getAllAvailableMoves b = Some ms -> produced b mv -> mv ∈ ms.
Proof.
  unfold getAllAvailableMoves. destruct (count_moves b movable_labels None) as [n c].
  intros Hrun [[Hp Hmay] Hrange].
  destruct (copy_moves_keeps _ _ _ _ _ Hrun) as [_ Hall].
  apply (Hall (block_num mv)); [|done|by apply elem_of_legal_moves].
  unfold movable_labels. apply elem_of_seqZ. lia.
Qed.

Lemma produced_max b mv : produced b mv -> 0 <= max_block_num.
Proof. intros [_ Hrange]. lia. Qed.

(** No successor is generated within the defined behaviour of the program:
    the call of [normalizeState] writes past its tables. *)
Lemma next_state_overruns b mv : 0 <= max_block_num -> next_state b mv = None.
Proof.
  intros Hmax. unfold next_state.
  destruct (applyMove (cloneGameState b) mv) as [b'|]; cbn [mbind option_bind]; [|done].
  by apply normalizeState_out_of_bounds.
Qed.

Lemma expand_node_no_moves visit m current :
  getAllAvailableMoves (board_state current) = Some [] ->
  expand_node visit m current = Expanded m.
Proof. intros Hm. unfold expand_node. by rewrite Hm. Qed.

(** The expansion of a node whose board has a legal move leaves the
    defined behaviour at the first successor, if not before. *)
Lemma expand_node_overruns visit m current mv :
  produced (board_state current) mv -> expand_node visit m current = Broken.
Proof.
  intros Hmv. unfold expand_node.
  destruct (getAllAvailableMoves (board_state current)) as [ms|] eqn:Hms; [|done].
  pose proof (getAllAvailableMoves_complete _ _ _ Hms Hmv) as Hin.
  destruct ms as [|mv0 ms]; [by apply elem_of_nil in Hin|]. cbn [expand].
  by rewrite next_state_overruns by by eapply produced_max.
Qed.

(** Without a move in the array no block can move. *)
Lemma no_moves_stuck b mv :
  getAllAvailableMoves b = Some [] -> ~ produced b mv.
Proof.
  intros Hms Hmv. pose proof (getAllAvailableMoves_complete _ _ _ Hms Hmv) as Hin.
  by apply elem_of_nil in Hin.
Qed.

(** ** The deciders *)

Lemma elem_of_all_legal_moves b mv : mv ∈ all_legal_moves b <-> produced b mv.
Proof.
  unfold all_legal_moves, produced, legal.
  rewrite list_elem_of_In, in_flat_map. split.
  - intros (l & Hl & Hmv). apply list_elem_of_In, list_elem_of_filter in Hl as [Hp Hl].
    apply list_elem_of_In, elem_of_legal_moves in Hmv as [<- Hmove] .
    split; [done|]. by apply movable_labels_range.
  - intros [[Hp Hmove] Hrange]. exists (block_num mv). split.
    + apply list_elem_of_In, list_elem_of_filter. split; [done|].
      unfold movable_labels. apply elem_of_seqZ. lia.
    + apply list_elem_of_In, elem_of_legal_moves. done.
Qed.

Lemma elem_of_successors b nb : nb ∈ successors b <-> step b nb.
Proof.
  unfold successors, step. rewrite list_elem_of_omap. split.
  - intros (mv & Hmv%elem_of_all_legal_moves & Hnb).
    destruct (applyMove b mv) as [b'|] eqn:Hb'; [|done]. injection Hnb as <-.
    by exists mv, b'.
  - intros (mv & b' & Hmv & Hb' & ->). exists mv.
    split; [by apply elem_of_all_legal_moves|]. by rewrite Hb'.
Qed.

Lemma solved_within_spec n : forall b, solved_within n b = true <-> moves_to_solved n b.
Proof.
  induction n as [|n IH]; intros b; [done|]. cbn [solved_within moves_to_solved].
  rewrite existsb_exists. split.
  - intros (nb & Hin & Hnb). exists nb. split; [|by apply IH].
    by apply elem_of_successors, list_elem_of_In.
  - intros (nb & Hstep & Hn). exists nb. split; [|by apply IH].
    by apply list_elem_of_In, elem_of_successors.
Qed.

Lemma minimum_movesb_spec b k : minimum_movesb b k = true -> minimum_moves b k.
Proof.
  unfold minimum_movesb. intros [Hk Hlow]%andb_true_iff. split; [by apply solved_within_spec|].
  intros n Hn. destruct (le_lt_dec k n) as [|Hlt]; [done|].
  rewrite forallb_forall in Hlow. specialize (Hlow n). rewrite in_seq in Hlow.
  apply solved_within_spec in Hn. rewrite Hn in Hlow. by discriminate Hlow; lia.
Qed.

End Successors.

(** * The table of visited states: keys, slots and values *)

Lemma int_of_Some x : INT_MIN <= x <= INT_MAX -> int_of x = Some x.
Proof.
  intros Hx. unfold int_of.
  rewrite (proj2 (Z.leb_le INT_MIN x)), (proj2 (Z.leb_le x INT_MAX)) by lia. done.
Qed.

Lemma int_of_None x : INT_MAX < x -> int_of x = None.
Proof.
  intros Hx. unfold int_of. rewrite (proj2 (Z.leb_gt x INT_MAX)) by lia.
  by rewrite andb_false_r.
Qed.

(** With characters between 0 and 127 the running total grows, and stays
    an [int] as long as the bound on it does. *)
Lemma key_sum_bounds s : forall i running_total,
  0 <= i -> 0 <= running_total -> Forall (fun c => 0 <= c <= 127) s ->
  running_total + 127 * Z.of_nat (length s) * (i + Z.of_nat (length s)) <= INT_MAX ->
  exists total, key_sum s i running_total = Some total /\
    running_total <= total
    <= running_total + 127 * Z.of_nat (length s) * (i + Z.of_nat (length s)).
Proof.
  induction s as [|c s IH]; intros i running_total Hi Ht Hs Hmax; cbn [key_sum length].
  - exists running_total. split; [done|lia].
  - apply Forall_cons in Hs as [Hc Hs]. cbn [length] in Hmax.
    rewrite Nat2Z.inj_succ in *.
    pose proof (Nat2Z.is_nonneg (length s)) as Hlen.
    set (n := Z.of_nat (length s)) in *. unfold INT_MAX in *.
    assert (0 <= c * (i + 1) <= 127 * (i + 1)) as Hterm by nia.
    assert (127 * (i + 1) + 127 * n * (i + 1 + n) <= 127 * Z.succ n * (i + Z.succ n))
      as Hsplit by nia.
    assert (0 <= 127 * n * (i + 1 + n)) as Hrest by nia.
    rewrite int_of_Some by (unfold INT_MIN, INT_MAX; lia). cbn [mbind option_bind].
    rewrite int_of_Some by (unfold INT_MIN, INT_MAX; lia). cbn [mbind option_bind].
    destruct (IH (i + 1) (running_total + c * (i + 1))) as (total & Hrun & Hb);
      [lia|lia|done|fold n; lia|].
    fold n in Hb. exists total. split; [done|lia].
Qed.

Lemma to_char_small x : -128 <= x <= 127 -> to_char x = x.
Proof. intros Hx. unfold to_char. rewrite Z.mod_small by lia. lia. Qed.

Lemma c_string_nonzero s : Forall (fun c => c <> 0) s -> c_string s = s.
Proof.
  induction 1 as [|c s Hc Hs IH]; [done|]. cbn [c_string].
  destruct (Z.eqb_spec c 0); [done|]. by rewrite IH.
Qed.

Lemma fmap_eq_iff {A B : Type} (f g : A -> B) (l : list A) :
  f <$> l = g <$> l <-> forall x, x ∈ l -> f x = g x.
Proof.
  induction l as [|x l IH]; cbn [fmap list_fmap].
  - split; [by intros _ ? ?%elem_of_nil|done].
  - split.
    + intros [= Hx Hl] y [->|Hy]%elem_of_cons; [done|]. by apply IH.
    + intros H. f_equal; [apply H; left|]. apply IH. intros y Hy. apply H. by right.
Qed.

Lemma grid_length (a w h : nat) : forall s,
  length (flat_map (fun i => pair i <$> seq a w) (seq s h)) = (h * w)%nat.
Proof.
  induction h as [|h IH]; intros s; [done|].
  cbn [seq flat_map]. rewrite length_app, length_fmap, length_seq, IH. lia.
Qed.

Section TableKeys.
Context `{G : Globals}.

Lemma elem_of_interior i j :
  (i, j) ∈ interior <->
  (1 <= i)%nat /\ (i + 1 < board_height)%nat /\ (1 <= j)%nat /\ (j + 1 < board_width)%nat.
Proof.
  unfold interior. rewrite list_elem_of_In, in_flat_map. split.
  - intros (i' & Hi & Hj). apply list_elem_of_In, list_elem_of_fmap in Hj as (j' & Heq & Hj).
    injection Heq as -> ->. apply in_seq in Hi. apply list_elem_of_In, in_seq in Hj. lia.
  - intros (Hi1 & Hi2 & Hj1 & Hj2). exists i. split; [apply in_seq; lia|].
    apply list_elem_of_In, list_elem_of_fmap. exists j. split; [done|].
    apply list_elem_of_In, in_seq. lia.
Qed.

Lemma key_char b i j :
  well_formed b -> max_block_num <= 62 ->
  to_char (to_char (cell b i j) + 65) = cell b i j + 65 /\ 64 <= cell b i j + 65 <= 127.
Proof.
  intros Hb Hmax. pose proof (well_formed_label b i j Hb) as Hl.
  rewrite (to_char_small (cell b i j)) by lia. rewrite to_char_small by lia. lia.
Qed.

(** The key of a well-formed board on a grid whose keys fit. *)
Lemma getStateHashKey_key_of b :
  0 <= (Z.of_nat board_height - 2) * (Z.of_nat board_width - 2) ->
  getStateHashKey b = Some (key_of b).
Proof.
  intros Hsize. unfold getStateHashKey, key_of.
  by rewrite (proj2 (Z.ltb_lt 0 _)) by lia.
Qed.

Lemma key_of_chars b :
  well_formed b -> max_block_num <= 62 ->
  Forall (fun c => 64 <= c <= 127) (key_of b).
Proof.
  intros Hb Hmax. apply list.Forall_forall. intros c ([i j] & -> & _)%list_elem_of_fmap.
  destruct (key_char b i j Hb Hmax) as [-> ?]. done.
Qed.

Lemma key_of_length b : length (key_of b) = ((board_height - 2) * (board_width - 2))%nat.
Proof. unfold key_of. rewrite length_fmap. unfold interior. apply grid_length. Qed.

(** The index of a key of at most 4000 characters between 0 and 127. *)
Lemma getHashKeyIndex_small hashkey :
  Forall (fun c => 0 <= c <= 127) (c_string hashkey) ->
  (length (c_string hashkey) <= 4000)%nat ->
  exists total, key_sum (c_string hashkey) 0 0 = Some total /\
                0 <= total <= INT_MAX /\
                getHashKeyIndex hashkey = Some (total mod STATE_HASH_TABLE_SIZE) /\
                0 <= total mod STATE_HASH_TABLE_SIZE < STATE_HASH_TABLE_SIZE.
Proof.
  intros Hc Hlen.
  assert (Z.of_nat (length (c_string hashkey)) <= 4000) as Hl by lia.
  destruct (key_sum_bounds (c_string hashkey) 0 0) as (total & Hrun & Hb);
    [lia|lia|done|unfold INT_MAX; nia|].
  exists total. split; [done|]. split; [unfold INT_MAX; nia|].
  unfold getHashKeyIndex. rewrite Hrun. cbn [mbind option_bind].
  unfold STATE_HASH_TABLE_SIZE. rewrite Z.rem_mod_nonneg by lia.
  split; [done|]. apply Z.mod_pos_bound. lia.
Qed.

(** On a grid whose keys fit, the key of a well-formed board indexes a slot
    of the table. *)
Lemma root_key_slot b :
  well_formed b -> keys_fit ->
  exists index, getStateHashKey b = Some (key_of b) /\
                getHashKeyIndex (key_of b) = Some index /\
                0 <= index < STATE_HASH_TABLE_SIZE.
Proof.
  intros Hb [Hmax Hsize].
  pose proof (key_of_chars b Hb Hmax) as Hchars.
  assert (c_string (key_of b) = key_of b) as Hstr.
  { apply c_string_nonzero. eapply Forall_impl; [exact Hchars|]. cbn beta. lia. }
  destruct (getHashKeyIndex_small (key_of b)) as (total & _ & _ & Hidx & Hrange).
  - rewrite Hstr. eapply Forall_impl; [exact Hchars|]. cbn beta. lia.
  - rewrite Hstr, key_of_length. nia.
  - exists (total mod STATE_HASH_TABLE_SIZE).
    split; [apply getStateHashKey_key_of; lia|]. done.
Qed.

End TableKeys.

(** * The drivers, step by step *)

Section Drivers.
Context `{G : Globals}.

(** The table every driver starts with holds the key of the root. *)
Lemma seed_defined enter m b :
  well_formed b -> keys_fit ->
  exists t, insertIntoStateHashTable initStateHashTable (key_of b) 0 = Some t /\
            seed enter m b = Some (with_visited (enter m b None None) t) /\
            table_live t.
Proof.
  intros Hb Hfit. destruct (root_key_slot b Hb Hfit) as (index & Hkey & Hidx & Hrange).
  pose proof (insertIntoStateHashTable_Some initStateHashTable (key_of b) 0 index []
                Hidx (slot_chain_init index Hrange)) as Hins.
  eexists. split; [exact Hins|]. split.
  - unfold seed. rewrite Hkey. cbn [mbind option_bind]. by rewrite Hins.
  - eapply insertIntoStateHashTable_live; [apply initStateHashTable_live|exact Hins].
Qed.

(** ** A root without a legal move *)

(** Breadth-first search takes the root from the queue, finds no move and
    leaves the loop with an empty queue. *)
Lemma bfs_no_moves b m fuel :
  well_formed b -> keys_fit -> getAllAvailableMoves b = Some [] -> bfs_fifo m = [] ->
  exists m', breadthFirstSearch (S (S fuel)) m b = Returned (-1) m' /\ bfs_fifo m' = [].
Proof.
  intros Hb Hfit Hmoves Hq.
  destruct (seed_defined bfsEnqueue m b Hb Hfit) as (t & _ & Hseed & _).
  unfold breadthFirstSearch. rewrite Hseed. cbn [bfs_loop]. unfold bfsDequeue.
  cbn [bfsEnqueue with_visited bfs_fifo]. rewrite Hq. cbn [with_fifo].
  rewrite expand_node_no_moves by done. cbn [bfs_fifo]. by eexists.
Qed.

(** A depth-first search pops the root; whether the limit lets it expand
    the root or not, the stack is as it was before the call when the loop
    looks at it again. *)
Lemma dfs_no_moves b m fuel depth_limited max_depth :
  well_formed b -> keys_fit -> getAllAvailableMoves b = Some [] -> dfs_filo m = [] ->
  exists m', generalDepthFirstSearch (S (S fuel)) m b depth_limited max_depth
             = Returned (-1) m' /\
             dfs_filo m' = [] /\ table_live (visited m').
Proof.
  intros Hb Hfit Hmoves Hq.
  destruct (seed_defined dfsPushStack m b Hb Hfit) as (t & _ & Hseed & Hlive).
  unfold generalDepthFirstSearch. rewrite Hseed. cbn [dfs_loop]. unfold dfsPopStack.
  cbn [dfsPushStack with_visited dfs_filo with_filo]. rewrite Hq.
  destruct (negb depth_limited || _).
  - rewrite expand_node_no_moves by done. cbn [dfs_filo]. by eexists.
  - cbn [dfs_filo]. by eexists.
Qed.

(** The same with any bound on the iterations. *)
Lemma dfs_no_moves_round b m fuel depth_limited max_depth :
  well_formed b -> keys_fit -> getAllAvailableMoves b = Some [] -> dfs_filo m = [] ->
  generalDepthFirstSearch fuel m b depth_limited max_depth = OutOfFuel \/
  exists m', generalDepthFirstSearch fuel m b depth_limited max_depth = Returned (-1) m' /\
             dfs_filo m' = [] /\ table_live (visited m').
Proof.
  intros Hb Hfit Hmoves Hq. destruct fuel as [|[|fuel]].
  - left. destruct (seed_defined dfsPushStack m b Hb Hfit) as (t & _ & Hseed & Hlive).
    unfold generalDepthFirstSearch. by rewrite Hseed.
  - left. destruct (seed_defined dfsPushStack m b Hb Hfit) as (t & _ & Hseed & Hlive).
    unfold generalDepthFirstSearch. rewrite Hseed. cbn [dfs_loop]. unfold dfsPopStack.
    cbn [dfsPushStack with_visited dfs_filo with_filo].
    destruct (negb depth_limited || _); [|done].
    by rewrite expand_node_no_moves.
  - right. by apply dfs_no_moves.
Qed.

(** With a limit of zero or less the root is popped and not expanded,
    whatever moves it has. *)
Lemma dfs_zero_limit b m fuel max_depth :
  well_formed b -> keys_fit -> max_depth <= 0 -> dfs_filo m = [] ->
  exists m', depthLimitedSearch (S (S fuel)) m b max_depth = Returned (-1) m'.
Proof.
  intros Hb Hfit Hlimit Hq.
  destruct (seed_defined dfsPushStack m b Hb Hfit) as (t & _ & Hseed & _).
  unfold depthLimitedSearch, generalDepthFirstSearch. rewrite Hseed.
  cbn [dfs_loop]. unfold dfsPopStack.
  cbn [dfsPushStack with_visited dfs_filo with_filo new_node path_cost negb orb].
  rewrite (proj2 (Z.ltb_ge 0 max_depth)) by done. rewrite Hq. by eexists.
Qed.

(** A* selects the root, the only node of the queue, unlinks it, finds no
    move and leaves the loop. *)
Lemma astar_no_moves b m fuel :
  well_formed b -> keys_fit -> getAllAvailableMoves b = Some [] ->
  get_heuristic b < WORST_CASE_DISTANCE ->
  exists m', aStarSearch (S (S fuel)) m b = Returned (-1) m'.
Proof.
  intros Hb Hfit Hmoves Hh.
  destruct (seed_defined bfsEnqueue (drainQueue m) b Hb Hfit) as (t & _ & Hseed & _).
  unfold aStarSearch. rewrite Hseed. cbn [astar_loop].
  unfold bfsQueueIsEmpty, getBestNode, removeNode.
  cbn [bfs_fifo bfsEnqueue drainQueue with_fifo with_visited
       fold_left snd new_node allocated].
  unfold better, f_of_n, new_node. cbn [path_cost board_state fst].
  rewrite (proj2 (Z.ltb_lt (0 + get_heuristic b) WORST_CASE_DISTANCE)) by lia.
  cbn [snd board_state]. rewrite compareStates_refl.
  rewrite expand_node_no_moves by done. cbn [bfs_fifo with_fifo]. by eexists.
Qed.

(** The rounds of iterative deepening on such a root: each returns -1, so
    that the loop goes on until the bound on the rounds is exhausted or the
    depth counter leaves the [int] range. *)
Lemma ids_loop_no_moves b fuel rounds : forall m search_depth,
  well_formed b -> keys_fit -> getAllAvailableMoves b = Some [] ->
  dfs_filo m = [] -> table_live (visited m) ->
  (forall cost m', ids_loop rounds fuel m b search_depth <> Returned cost m') /\
  (search_depth + Z.of_nat rounds <= INT_MAX -> 0 <= search_depth ->
   ids_loop rounds fuel m b search_depth = OutOfFuel).
Proof.
  induction rounds as [|rounds IH]; intros m search_depth Hb Hfit Hmoves Hq Hlive;
    [done|].
  cbn [ids_loop].
  destruct (resetHashTable_live _ Hlive) as [t ->].
  destruct (int_of (search_depth + 1)) as [d|] eqn:Hd.
  - assert (d = search_depth + 1) as ->.
    { unfold int_of in Hd. destruct (_ && _); [|done]. by injection Hd. }
    unfold depthLimitedSearch.
    destruct (dfs_no_moves_round b (with_visited m t) fuel true (search_depth + 1)
                Hb Hfit Hmoves) as [Hout|(m' & Hret & Hq' & Hlive')]; [by destruct m| |].
    + rewrite Hout. done.
    + rewrite Hret. cbn [Z.ltb Z.compare].
      destruct (IH m' (search_depth + 1) Hb Hfit Hmoves Hq' Hlive') as [Hnever Hout].
      split; [done|]. intros Hsum Hpos. apply Hout; lia.
  - split; [done|]. intros Hsum Hpos. rewrite int_of_Some in Hd; [done|].
    unfold INT_MIN, INT_MAX in *. lia.
Qed.

(** Once the bound on the rounds exceeds the [int] range, the increment of
    the depth counter overflows. *)
Lemma ids_loop_overflow b fuel rounds : forall m search_depth,
  well_formed b -> keys_fit -> getAllAvailableMoves b = Some [] ->
  dfs_filo m = [] -> table_live (visited m) ->
  0 <= search_depth <= INT_MAX -> INT_MAX < search_depth + Z.of_nat rounds ->
  ids_loop rounds (S (S fuel)) m b search_depth = Undefined.
Proof.
  induction rounds as [|rounds IH]; intros m search_depth Hb Hfit Hmoves Hq Hlive Hd Hsum;
    [lia|].
  cbn [ids_loop]. destruct (resetHashTable_live _ Hlive) as [t ->].
  destruct (decide (search_depth = INT_MAX)) as [->|Hne]; [done|].
  rewrite int_of_Some by (unfold INT_MIN, INT_MAX in *; lia).
  unfold depthLimitedSearch.
  destruct (dfs_no_moves b (with_visited m t) fuel true (search_depth + 1)
              Hb Hfit Hmoves) as (m' & -> & Hq' & Hlive'); [by destruct m|].
  cbn [Z.ltb Z.compare]. apply IH; try done; lia.
Qed.

(** ** A root with a legal move *)

(** The root is the first node every driver expands, and the expansion
    generates a successor. *)
Lemma bfs_overruns b mv m fuel :
  produced b mv -> bfs_fifo m = [] -> breadthFirstSearch (S fuel) m b = Undefined.
Proof.
  intros Hmv Hq. unfold breadthFirstSearch, seed.
  destruct (getStateHashKey b) as [k|]; cbn [mbind option_bind]; [|done].
  destruct (insertIntoStateHashTable _ _ _) as [t|]; cbn [mbind option_bind]; [|done].
  cbn [bfs_loop]. unfold bfsDequeue. cbn [bfsEnqueue with_visited bfs_fifo]. rewrite Hq.
  by rewrite (expand_node_overruns _ _ _ mv).
Qed.

Lemma dfs_overruns b mv m fuel depth_limited max_depth :
  produced b mv -> negb depth_limited || (0 <? max_depth) = true ->
  generalDepthFirstSearch (S fuel) m b depth_limited max_depth = Undefined.
Proof.
  intros Hmv Hlimit. unfold generalDepthFirstSearch, seed.
  destruct (getStateHashKey b) as [k|]; cbn [mbind option_bind]; [|done].
  destruct (insertIntoStateHashTable _ _ _) as [t|]; cbn [mbind option_bind]; [|done].
  cbn [dfs_loop]. unfold dfsPopStack.
  cbn [dfsPushStack with_visited dfs_filo with_filo new_node path_cost].
  rewrite Hlimit. by rewrite (expand_node_overruns _ _ _ mv).
Qed.

Lemma astar_overruns b mv m fuel :
  produced b mv -> aStarSearch (S fuel) m b = Undefined.
Proof.
  intros Hmv. unfold aStarSearch, seed.
  destruct (getStateHashKey b) as [k|]; cbn [mbind option_bind]; [|done].
  destruct (insertIntoStateHashTable _ _ _) as [t|]; cbn [mbind option_bind]; [|done].
  cbn [astar_loop]. unfold bfsQueueIsEmpty, getBestNode, removeNode.
  cbn [bfs_fifo bfsEnqueue drainQueue with_fifo with_visited
       fold_left snd new_node allocated].
  unfold better, f_of_n. cbn [fst].
  destruct (_ + _ <? WORST_CASE_DISTANCE); cbn [snd]; [|done].
  rewrite compareStates_refl.
  by rewrite (expand_node_overruns _ _ _ mv).
Qed.

Lemma ids_overruns b mv m rounds fuel :
  produced b mv -> interativeDeepeningSearch (S rounds) (S fuel) m b = Undefined.
Proof.
  intros Hmv. unfold interativeDeepeningSearch. cbn [ids_loop].
  destruct (resetHashTable (visited m)) as [t|]; [|done].
  change (int_of (0 + 1)) with (Some 1). unfold depthLimitedSearch.
  by rewrite (dfs_overruns b mv).
Qed.

End Drivers.

(** * The drivers: results *)

Section DriverResults.
Context `{G : Globals}.


(** C2.  From a board that needs at least one move, the first iteration of
    breadth-first search and the first round of iterative deepening
    generate a successor of the root and normalize it: the call writes past
    the tables of [normalizeState], and neither driver has a defined
    result, let alone the minimum number of moves. *)
Theorem bfs_ids_overrun (root : board) (k rounds fuel : nat) :
  well_formed root -> minimum_moves root (S k) ->
  breadthFirstSearch (S fuel) program_start root = Undefined /\
  interativeDeepeningSearch (S rounds) (S fuel) program_start root = Undefined.
Proof.
  intros Hroot [(nb & (mv & b' & Hmv & _) & _) _]. split.
  - by apply (bfs_overruns root mv).
  - by apply (ids_overruns root mv).
Qed.

End DriverResults.

(** ** A solved board without a legal move *)



(** ** A level solved in two moves *)

Lemma bfs_ids_overrun_witness :
  @breadthFirstSearch crowded_globals 1 program_start crowded_board = Undefined /\
  @interativeDeepeningSearch crowded_globals 1 1 program_start crowded_board = Undefined.
Proof.
  apply (@bfs_ids_overrun crowded_globals crowded_board 1 0 0).
  - apply well_formedb_spec. reflexivity.
  - apply minimum_movesb_spec. vm_compute. reflexivity.
Defined.

(** * Iterative deepening without a solution *)

(** C8, at a board without a solution.  Every depth-limited round returns
    -1, so the loop of [interativeDeepeningSearch], which ends only on a
    positive result, never ends by itself: whatever bounds are put on the
    rounds and on the iterations of each round, the function does not
    return: the bounds are exhausted, or else the depth counter, after as
    many rounds as there are positive [int] values, overflows.  It does
    not return -1, contrary to its header comment. *)
Theorem interativeDeepeningSearch_no_solution (rounds fuel : nat) :
  @well_formed stuck_globals stuck_board /\
  @checkGameComplete stuck_globals stuck_board = false /\
  @getAllAvailableMoves stuck_globals stuck_board = Some [] /\
  (forall cost m,
     @interativeDeepeningSearch stuck_globals rounds fuel program_start stuck_board
     <> Returned cost m) /\
  (Z.of_nat rounds <= INT_MAX ->
   @interativeDeepeningSearch stuck_globals rounds fuel program_start stuck_board
   = OutOfFuel) /\
  (INT_MAX < Z.of_nat rounds -> (2 <= fuel)%nat ->
   @interativeDeepeningSearch stuck_globals rounds fuel program_start stuck_board
   = Undefined).
Proof.
  assert (@well_formed stuck_globals stuck_board) as Hb
    by (apply well_formedb_spec; reflexivity).
  split; [done|]. split; [reflexivity|]. split; [reflexivity|].
  assert (@keys_fit stuck_globals) as Hfit.
  { split; vm_compute; [discriminate|]. split; discriminate. }
  destruct (@ids_loop_no_moves stuck_globals stuck_board fuel rounds program_start 0
              Hb Hfit eq_refl eq_refl initStateHashTable_live) as [Hnever Hout].
  split; [exact Hnever|]. split; [intros Hrounds; apply Hout; lia|].
  intros Hrounds Hfuel. destruct fuel as [|[|fuel]]; [lia|lia|].
  apply (@ids_loop_overflow stuck_globals stuck_board fuel rounds program_start 0
           Hb Hfit eq_refl eq_refl initStateHashTable_live); [done|lia].
Qed.

Lemma interativeDeepeningSearch_no_solution_witness :
  @interativeDeepeningSearch stuck_globals 7 5 program_start stuck_board = OutOfFuel.
Proof.
  destruct (interativeDeepeningSearch_no_solution 7 5) as (_ & _ & _ & _ & Hout & _).
  apply Hout. vm_compute. discriminate.
Defined.

(** ** The policy on a visited state, on the level board *)

(** [level_next] is the successor of [level_board] by the move of block 2
    to the left, and [level_table] the table that received its key at
    cost 3. *)
Lemma level_next_generated :
  normalize_spec (G := level_globals)
    <$> applyMove (G := level_globals) level_board (Move 2 LEFT) = Some level_next.
Proof. vm_compute. reflexivity. Qed.

Lemma level_table_built :
  insertIntoStateHashTable initStateHashTable level_next_key 3 = Some level_table.
Proof. vm_compute. reflexivity. Qed.


(** ** The best node: a queue whose best node is the last, and a queue
    whose only node has an estimate of 1000 *)

Lemma getBestNode_minimizes_witness :
  (exists best,
     @getBestNode level_globals level_frontier = Some best /\
     node_addr best = 2%nat /\
     forall n, n ∈ bfs_fifo level_frontier ->
       path_cost best + @get_heuristic level_globals (board_state best)
       <= path_cost n + @get_heuristic level_globals (board_state n)) /\
  @getBestNode wide_globals (bfsEnqueue program_start wide_board None None) = None /\
  forall fuel,
    @astar_loop wide_globals (S fuel) (bfsEnqueue program_start wide_board None None)
    = Undefined.
Proof.
  split.
  - destruct (proj1 (@getBestNode_minimizes level_globals level_frontier))
      as (best & Hbest & _ & Hmin).
    + exists (root_node level_board). split; [vm_compute; left|vm_compute; reflexivity].
    + exists best. split; [exact Hbest|]. split; [|exact Hmin].
      vm_compute in Hbest. injection Hbest as <-. reflexivity.
  - destruct (proj2 (@getBestNode_minimizes wide_globals
                       (bfsEnqueue program_start wide_board None None)))
      as [Hnone Hloop].
    + intros n Hn. vm_compute in Hn. apply list_elem_of_singleton in Hn as ->.
      vm_compute. discriminate.
    + split; [exact Hnone|]. apply Hloop. discriminate.
Defined.

(** * The move generator on boards that hold every label *)

Section MoveGeneratorResults.
Context `{G : Globals}.

Lemma count_moves_present b labels : forall total c,
  (forall l, l ∈ labels -> label_present b l = true) ->
  (fold_left (fun '(total, c) i =>
                let '(n, c') := getAvailableMoves b i c in (total + n, c'))
             labels (total, c)).1
  = total + Z.of_nat (length (flat_map (legal_moves b) labels)).
Proof.
  induction labels as [|l labels IH]; intros total c Hp; cbn [fold_left flat_map length].
  - cbn [fst]. lia.
  - rewrite getAvailableMoves_present by (apply Hp; left).
    rewrite IH by (intros; apply Hp; by right). rewrite length_app. lia.
Qed.

(** X1.  For a block that is on the board, [getAvailableMoves] returns the
    number of directions in which the block may move and stores the moves
    in the order up, down, left, right; when the block cannot move it
    returns 0 and leaves the out-parameter as it was. *)
Theorem getAvailableMoves_present_block b piece_num c :
  label_present b piece_num = true ->
  exists ms,
    getAvailableMoves b piece_num c
    = (Z.of_nat (length ms), match ms with [] => c | _ => Some ms end) /\
    ms `sublist_of` [Move piece_num UP; Move piece_num DOWN;
                     Move piece_num LEFT; Move piece_num RIGHT] /\
    forall d, Move piece_num d ∈ ms <-> may_move b piece_num d.
Proof.
  intros Hp. exists (legal_moves b piece_num).
  split; [rewrite getAvailableMoves_present by done; by destruct (legal_moves _ _)|].
  split.
  - unfold legal_moves, moves_of_scan.
    change [Move piece_num UP; Move piece_num DOWN; Move piece_num LEFT; Move piece_num RIGHT]
      with (Move piece_num <$> [UP; DOWN; LEFT; RIGHT]).
    apply fmap_sublist, sublist_filter.
  - intros d. rewrite elem_of_legal_moves. cbn [block_num direction].
    split; [by intros [_ ?]|by intros ?].
Qed.

(** X2.  On a board that holds every label from 2 to [max_block_num],
    [getAllAvailableMoves] returns the moves of the blocks in ascending
    label order, each block's in the order up, down, left, right; the
    moves returned are exactly the legal moves of these blocks, and the
    count returned is the length of the array. *)
Theorem getAllAvailableMoves_enumerates b :
  (forall l, l ∈ movable_labels -> label_present b l = true) ->
  exists ms,
    getAllAvailableMoves b = Some ms /\
    num_total_available_moves b = Z.of_nat (length ms) /\
    ms = flat_map (legal_moves b) movable_labels /\
    forall mv, mv ∈ ms <-> produced b mv.
Proof.
  intros Hp. exists (all_legal_moves b).
  assert (all_legal_moves b = flat_map (legal_moves b) movable_labels) as Hall.
  { unfold all_legal_moves. rewrite filter_all; [done|]. by apply list.Forall_forall. }
  split; [by apply getAllAvailableMoves_all_present|]. split; [|split; [done|]].
  - unfold num_total_available_moves. rewrite Hall.
    unfold count_moves. rewrite (count_moves_present b movable_labels 0 None Hp). lia.
  - intros mv. apply elem_of_all_legal_moves.
Qed.

(** X3.  Whatever labels the board holds, a move that
    [getAllAvailableMoves] returns is a legal move of a block whose label
    lies between 2 and [max_block_num]: the array may repeat moves, it
    never holds an illegal one. *)
Theorem getAllAvailableMoves_sound b ms :
  getAllAvailableMoves b = Some ms ->
  forall mv, mv ∈ ms ->
    2 <= block_num mv <= max_block_num /\
    label_present b (block_num mv) = true /\
    may_move b (block_num mv) (direction mv).
Proof.
  intros Hms mv Hmv. pose proof (getAllAvailableMoves_produced b ms Hms) as Hall.
  rewrite list.Forall_forall in Hall. destruct (Hall mv Hmv) as [[Hl Hm] Hr]. done.
Qed.

End MoveGeneratorResults.

Lemma getAvailableMoves_present_block_witness :
  exists ms,
    @getAvailableMoves level_globals level_board 2 None
    = (Z.of_nat (length ms), match ms with [] => None | _ => Some ms end) /\
    ms `sublist_of` [Move 2 UP; Move 2 DOWN; Move 2 LEFT; Move 2 RIGHT] /\
    forall d, Move 2 d ∈ ms <-> @may_move level_globals level_board 2 d.
Proof.
  apply (@getAvailableMoves_present_block level_globals level_board 2 None).
  reflexivity.
Defined.

Lemma getAllAvailableMoves_enumerates_witness :
  exists ms,
    @getAllAvailableMoves level_globals level_board = Some ms /\
    @num_total_available_moves level_globals level_board = Z.of_nat (length ms) /\
    ms = flat_map (@legal_moves level_globals level_board) (@movable_labels level_globals) /\
    forall mv, mv ∈ ms <-> @produced level_globals level_board mv.
Proof.
  apply (@getAllAvailableMoves_enumerates level_globals level_board).
  intros l Hl. vm_compute in Hl.
  repeat (apply elem_of_cons in Hl as [->|Hl]; [reflexivity|]).
  by apply elem_of_nil in Hl.
Defined.

Lemma getAllAvailableMoves_sound_witness :
  2 <= block_num (Move 4 LEFT) <= @max_block_num gap_globals /\
  @label_present gap_globals gap_board (block_num (Move 4 LEFT)) = true /\
  @may_move gap_globals gap_board (block_num (Move 4 LEFT)) (direction (Move 4 LEFT)).
Proof.
  apply (@getAllAvailableMoves_sound gap_globals gap_board
           [Move 2 UP; Move 2 DOWN; Move 2 LEFT; Move 2 RIGHT;
            Move 2 UP; Move 2 DOWN; Move 2 LEFT; Move 2 RIGHT;
            Move 4 UP; Move 4 LEFT]).
  - reflexivity.
  - repeat (apply elem_of_cons; first [by left|right]).
Defined.

(** * The table of visited states: keys and slots *)

Section KeyResults.
Context `{G : Globals}.

(** X4.  The key [getStateHashKey] builds for a well-formed board with
    labels up to 62 consists of one character between '@' and DEL per
    interior cell, none of them the terminator; two such boards have equal
    keys exactly when they agree on every interior cell. *)
Theorem getStateHashKey_interior b1 b2 k1 k2 :
  well_formed b1 -> well_formed b2 -> max_block_num <= 62 ->
  getStateHashKey b1 = Some k1 -> getStateHashKey b2 = Some k2 ->
  c_string k1 = k1 /\
  length k1 = ((board_height - 2) * (board_width - 2))%nat /\
  Forall (fun c => 64 <= c <= 127) k1 /\
  (strcmp_eq k1 k2 = true <->
   forall i j, (1 <= i)%nat -> (i + 1 < board_height)%nat ->
               (1 <= j)%nat -> (j + 1 < board_width)%nat ->
               cell b1 i j = cell b2 i j).
Proof.
  intros Hb1 Hb2 Hmax Hk1 Hk2. unfold getStateHashKey in *.
  destruct (0 <? _); [|done]. injection Hk1 as <-. injection Hk2 as <-.
  assert (forall b, well_formed b ->
            Forall (fun c => 64 <= c <= 127)
              ((fun '(i, j) => to_char (to_char (cell b i j) + 65)) <$> interior)) as Hchars.
  { intros b Hb. apply list.Forall_forall. intros c ([i j] & -> & _)%list_elem_of_fmap.
    destruct (key_char b i j Hb Hmax) as [-> ?]. done. }
  assert (forall b, well_formed b ->
            c_string ((fun '(i, j) => to_char (to_char (cell b i j) + 65)) <$> interior)
            = (fun '(i, j) => to_char (to_char (cell b i j) + 65)) <$> interior) as Hstr.
  { intros b Hb. apply c_string_nonzero. eapply Forall_impl; [by apply Hchars|].
    cbn beta. lia. }
  split; [by apply Hstr|]. split; [|split; [by apply Hchars|]].
  - rewrite length_fmap. unfold interior. apply grid_length.
  - unfold strcmp_eq. rewrite !Hstr by done. rewrite bool_decide_eq_true, fmap_eq_iff. split.
    + intros H i j Hi1 Hi2 Hj1 Hj2. specialize (H (i, j)). cbn beta iota in H.
      destruct (key_char b1 i j Hb1 Hmax) as [E1 _].
      destruct (key_char b2 i j Hb2 Hmax) as [E2 _].
      rewrite E1, E2 in H. assert ((i, j) ∈ interior) as Hin by by apply elem_of_interior.
      specialize (H Hin). lia.
    + intros H [i j] (Hi1 & Hi2 & Hj1 & Hj2)%elem_of_interior. by rewrite H.
Qed.

End KeyResults.

(** X5.  For a key of at most 4000 characters, each between 0 and 127, the
    running total of [getHashKeyIndex] stays within the [int] range and the
    index returned is a slot of the table. *)
Theorem getHashKeyIndex_range (hashkey : list Z) :
  Forall (fun c => 0 <= c <= 127) (c_string hashkey) ->
  (length (c_string hashkey) <= 4000)%nat ->
  exists running_total index,
    key_sum (c_string hashkey) 0 0 = Some running_total /\
    0 <= running_total < 2 ^ 31 /\
    getHashKeyIndex hashkey = Some index /\
    0 <= index < STATE_HASH_TABLE_SIZE.
Proof.
  intros Hc Hlen.
  destruct (getHashKeyIndex_small hashkey Hc Hlen) as (total & Hrun & Hb & Hidx & Hrange).
  exists total, (total mod STATE_HASH_TABLE_SIZE). split; [done|].
  split; [unfold INT_MAX in Hb; change (2 ^ 31) with 2147483648; lia|]. done.
Qed.

Lemma getStateHashKey_interior_witness :
  c_string [65; 68; 69; 67; 67; 65] = [65; 68; 69; 67; 67; 65] /\
  length [65; 68; 69; 67; 67; 65]
  = ((@board_height level_globals - 2) * (@board_width level_globals - 2))%nat /\
  Forall (fun c => 64 <= c <= 127) [65; 68; 69; 67; 67; 65] /\
  (strcmp_eq [65; 68; 69; 67; 67; 65] [65; 69; 68; 65; 67; 67] = true <->
   forall i j, (1 <= i)%nat -> (i + 1 < @board_height level_globals)%nat ->
               (1 <= j)%nat -> (j + 1 < @board_width level_globals)%nat ->
               cell level_next i j = cell level_board i j).
Proof.
  apply (@getStateHashKey_interior level_globals level_next level_board).
  - apply well_formedb_spec. reflexivity.
  - apply well_formedb_spec. reflexivity.
  - vm_compute. discriminate.
  - reflexivity.
  - reflexivity.
Defined.

Lemma getHashKeyIndex_range_witness :
  exists running_total index,
    key_sum (c_string [65; 68; 69; 67; 67; 65]) 0 0 = Some running_total /\
    0 <= running_total < 2 ^ 31 /\
    getHashKeyIndex [65; 68; 69; 67; 67; 65] = Some index /\
    0 <= index < STATE_HASH_TABLE_SIZE.
Proof.
  apply (getHashKeyIndex_range [65; 68; 69; 67; 67; 65]).
  - vm_compute. repeat constructor; discriminate.
  - vm_compute. lia.
Defined.

(** * The table of visited states: insertion, lookup and update *)

(** X6.  For a key whose index lies within the array, at a slot whose
    nodes have not been freed: after [insertIntoStateHashTable] of a key
    that was not in the table, [getHashTableValue] returns the value
    inserted; the lookup of a key that was in the table already still
    returns its first value (the new node is behind the old one in the
    chain), the lookup of any other key is unchanged, and the node counter
    has grown by one. *)
Theorem insert_then_lookup (t : state_table) (k : list Z) (v : Z)
    (index : Z) (chain : list HASH_TABLE_NODE) :
  getHashKeyIndex k = Some index -> slot_chain t index = Some chain ->
  exists t',
    insertIntoStateHashTable t k v = Some t' /\
    (table_holds t k = false -> getHashTableValue t' k = Some v) /\
    (table_holds t k = true -> getHashTableValue t' k = getHashTableValue t k) /\
    (forall k', strcmp_eq k k' = false ->
       getHashTableValue t' k' = getHashTableValue t k' /\
       table_holds t' k' = table_holds t k') /\
    table_holds t' k = true /\
    hash_table_node_count t' = hash_table_node_count t + 1.
Proof.
  intros Hi Hc. pose proof (insertIntoStateHashTable_Some t k v index chain Hi Hc) as Hins.
  eexists. split; [exact Hins|]. split_and!.
  - intros Hk. by rewrite (getHashTableValue_insert _ _ _ _ _ Hins), Hk, strcmp_eq_refl.
  - intros Hk. by rewrite (getHashTableValue_insert _ _ _ _ _ Hins), Hk.
  - intros k' Hne.
    rewrite (getHashTableValue_insert _ _ _ _ _ Hins), (table_holds_insert _ _ _ _ _ Hins).
    rewrite Hne, orb_false_r. split; [|done]. by destruct (table_holds t k').
  - by rewrite (table_holds_insert _ _ _ _ _ Hins), strcmp_eq_refl, orb_true_r.
  - reflexivity.
Qed.

(** X7.  For a key whose index lies within the array, at a slot whose
    nodes have not been freed: [updateHashTableValue] of a key that is in
    the table makes [getHashTableValue] return the new value for it; of a
    key that is not in the table it changes no lookup.  In both cases the
    other keys, the set of keys in the table and the node counter are as
    before. *)
Theorem update_then_lookup (t : state_table) (k : list Z) (v : Z)
    (index : Z) (chain : list HASH_TABLE_NODE) :
  getHashKeyIndex k = Some index -> slot_chain t index = Some chain ->
  exists t',
    updateHashTableValue t k v = Some t' /\
    (table_holds t k = true -> getHashTableValue t' k = Some v) /\
    (table_holds t k = false ->
     forall k', getHashTableValue t' k' = getHashTableValue t k') /\
    (forall k', strcmp_eq k k' = false ->
       getHashTableValue t' k' = getHashTableValue t k') /\
    (forall k', table_holds t' k' = table_holds t k') /\
    hash_table_node_count t' = hash_table_node_count t.
Proof.
  intros Hi Hc. pose proof (updateHashTableValue_Some t k v index chain Hi Hc) as Hupd.
  eexists. split; [exact Hupd|]. split_and!.
  - intros Hk. by rewrite (getHashTableValue_update _ _ _ _ _ Hupd), Hk, strcmp_eq_refl.
  - intros Hk k'. by rewrite (getHashTableValue_update _ _ _ _ _ Hupd), Hk.
  - intros k' Hne. by rewrite (getHashTableValue_update _ _ _ _ _ Hupd), Hne, andb_false_r.
  - intros k'. by apply (table_holds_update _ _ _ _ _ Hupd).
  - reflexivity.
Qed.

(** The tables the drivers build: from the empty table by insertions and
    updates of values that are not negative. *)
Lemma driver_table_nonneg (t : state_table) :
  driver_table t -> table_costs_nonneg t.
Proof.
  induction 1 as [|t k v t' Hv Ht IH Hins|t k v t' Hv Ht IH Hupd].
  - apply initStateHashTable_nonneg.
  - by apply (insertIntoStateHashTable_nonneg t k v).
  - by apply (updateHashTableValue_nonneg t k v).
Qed.

Lemma driver_table_live (t : state_table) : driver_table t -> table_live t.
Proof.
  induction 1 as [|t k v t' Hv Ht IH Hins|t k v t' Hv Ht IH Hupd].
  - apply initStateHashTable_live.
  - by apply (insertIntoStateHashTable_live t k v).
  - by apply (updateHashTableValue_live t k v).
Qed.

(** The index [getHashKeyIndex] returns is below the size of the table. *)
Lemma getHashKeyIndex_below hashkey index :
  getHashKeyIndex hashkey = Some index -> index < STATE_HASH_TABLE_SIZE.
Proof.
  unfold getHashKeyIndex. destruct (key_sum _ _ _) as [total|]; [|done].
  cbn [mbind option_bind]. intros [= <-]. unfold STATE_HASH_TABLE_SIZE.
  pose proof (Z.rem_bound_abs total 1000 ltac:(lia)). lia.
Qed.

(** X8.  In a table built from the empty one by insertions and updates of
    non-negative values, the lookup of a key whose index is not negative
    returns -1 exactly when the key is not in the table, and a non-negative
    value when it is: the sentinel is never a stored value.  The lookup has
    no defined result exactly when the running total of [getHashKeyIndex]
    leaves the [int] range or the index is negative, which addresses a
    slot before the array. *)
Theorem lookup_sentinel (t : state_table) (k : list Z) :
  driver_table t ->
  (forall index, getHashKeyIndex k = Some index -> 0 <= index ->
     exists hash_table_value,
       getHashTableValue t k = Some hash_table_value /\
       (hash_table_value = -1 <-> table_holds t k = false) /\
       (0 <= hash_table_value <-> table_holds t k = true)) /\
  (getHashTableValue t k = None <->
   getHashKeyIndex k = None \/
   exists index, getHashKeyIndex k = Some index /\ index < 0).
Proof.
  intros Ht. pose proof (driver_table_nonneg t Ht) as Hnn.
  pose proof (driver_table_live t Ht) as Hlive. split.
  - intros index Hi Hpos.
    destruct (table_live_slot t index Hlive) as [chain Hc];
      [split; [done|by eapply getHashKeyIndex_below]|].
    exists (chain_find chain k).
    assert (getHashTableValue t k = Some (chain_find chain k)) as Hget.
    { unfold getHashTableValue. rewrite Hi. cbn [mbind option_bind]. by rewrite Hc. }
    split; [done|]. pose proof (table_holds_nonneg t k Hnn) as Hh. rewrite Hget in Hh.
    destruct (table_holds t k) eqn:Hk.
    + symmetry in Hh. apply Z.leb_le in Hh. split; split; intros; (done || lia).
    + symmetry in Hh. apply Z.leb_gt in Hh.
      assert (chain_find chain k = -1) as Hfind.
      { apply chain_find_absent. unfold table_holds in Hk. rewrite Hi in Hk.
        cbn [mbind option_bind] in Hk. by rewrite Hc in Hk. }
      split; split; intros; (done || lia).
  - unfold getHashTableValue. destruct (getHashKeyIndex k) as [index|] eqn:Hi;
      cbn [mbind option_bind]; [|split; [by left|done]].
    destruct (Z.ltb_spec index 0) as [Hneg|Hpos].
    + split; [intros _; right; by exists index|]. intros _.
      unfold slot_chain, table_get. by rewrite (proj2 (Z.ltb_lt index 0)).
    + destruct (table_live_slot t index Hlive) as [chain Hc];
        [split; [done|by eapply getHashKeyIndex_below]|].
      rewrite Hc. cbn [mbind option_bind]. split; [done|].
      intros [?|(index' & [= <-] & ?)]; [done|lia].
Qed.

Lemma insert_then_lookup_witness :
  exists t',
    insertIntoStateHashTable initStateHashTable [65; 66] 3 = Some t' /\
    getHashTableValue t' [65; 66] = Some 3 /\
    getHashTableValue t' [65; 67] = Some (-1).
Proof.
  destruct (insert_then_lookup initStateHashTable [65; 66] 3 197 [])
    as (t' & Hins & Hnew & _ & Hother & _).
  - reflexivity.
  - reflexivity.
  - exists t'. split; [exact Hins|]. split; [by apply Hnew|].
    destruct (Hother [65; 67]) as [-> _]; reflexivity.
Defined.

Lemma update_then_lookup_witness :
  exists t',
    updateHashTableValue level_table level_next_key 1 = Some t' /\
    getHashTableValue t' level_next_key = Some 1.
Proof.
  destruct (update_then_lookup level_table level_next_key 1 401
              [HashNode level_next_key 3]) as (t' & Hupd & Hnew & _).
  - reflexivity.
  - reflexivity.
  - exists t'. split; [exact Hupd|]. by apply Hnew.
Defined.

Lemma lookup_sentinel_witness :
  exists hash_table_value,
    getHashTableValue level_table [65; 67] = Some hash_table_value /\
    (hash_table_value = -1 <-> table_holds level_table [65; 67] = false) /\
    (0 <= hash_table_value <-> table_holds level_table [65; 67] = true).
Proof.
  destruct (lookup_sentinel level_table [65; 67]) as [Hfound _].
  - apply (table_insert initStateHashTable level_next_key 3);
      [lia|apply table_init|exact level_table_built].
  - apply (Hfound 199); [reflexivity|lia].
Defined.

(** * The queue *)

Lemma bfsEnqueue_linked m b mv p :
  fifo_linked m ->
  bfs_fifo (bfsEnqueue m b mv p) = bfs_fifo m ++ [new_node m b mv p] /\
  fifo_linked (bfsEnqueue m b mv p).
Proof.
  intros Hl. unfold bfsEnqueue, fifo_linked. cbn [bfs_fifo bfs_fifo_tail].
  destruct (bfs_fifo m) as [|n q] eqn:Hq.
  - split; [done|]. right. reflexivity.
  - unfold fifo_linked in Hl. rewrite Hq in Hl. destruct Hl as [?|Hl]; [done|].
    rewrite bool_decide_eq_true_2 by done.
    split; [done|]. right. rewrite last_snoc. reflexivity.
Qed.

(** * The queue: order, removal and the tail pointer *)

Lemma fifo_linked_dequeue m n rest :
  fifo_linked m -> bfs_fifo m = n :: rest -> fifo_linked (with_fifo m rest).
Proof.
  unfold fifo_linked. cbn [with_fifo bfs_fifo bfs_fifo_tail]. intros [Hl|Hl] Hq.
  - by rewrite Hq in Hl.
  - destruct rest as [|n' rest]; [by left|]. right. rewrite Hq in Hl.
    by rewrite list.last_cons_cons in Hl.
Qed.

(** X9.  The queue is first-in first-out.  When [bfs_fifo_tail] addresses
    the last node of the chain (or the chain is empty), the boards enqueued
    one after the other are in the chain behind the boards that were there,
    in the order of their insertion, [bfsDequeue] hands out the node at the
    head, and after both the tail pointer addresses the last node again. *)
Theorem bfs_queue_fifo (m : memory) (items : list (board * option MOVE * option STATE_NODE)) :
  fifo_linked m ->
  board_state <$> bfs_fifo (enqueue_all m items)
  = (board_state <$> bfs_fifo m) ++ ((fun item => item.1.1) <$> items) /\
  fifo_linked (enqueue_all m items) /\
  allocated (enqueue_all m items) = (allocated m + length items)%nat /\
  forall n rest, bfs_fifo (enqueue_all m items) = n :: rest ->
    bfsDequeue (enqueue_all m items) = Some (n, with_fifo (enqueue_all m items) rest) /\
    fifo_linked (with_fifo (enqueue_all m items) rest).
Proof.
  intros Hl.
  assert (board_state <$> bfs_fifo (enqueue_all m items)
          = (board_state <$> bfs_fifo m) ++ ((fun item => item.1.1) <$> items) /\
          fifo_linked (enqueue_all m items) /\
          allocated (enqueue_all m items) = (allocated m + length items)%nat) as (H1 & H2 & H3).
  { revert m Hl. unfold enqueue_all.
    induction items as [|[[b mv] p] items IH]; intros m Hl; cbn [fold_left fmap list_fmap length].
    - rewrite app_nil_r. split; [done|]. split; [done|lia].
    - destruct (bfsEnqueue_linked m b mv p Hl) as [Hq Hl'].
      destruct (IH _ Hl') as (IH1 & IH2 & IH3). split; [|split; [done|]].
      + rewrite IH1, Hq, fmap_app, <- app_assoc. done.
      + rewrite IH3. cbn [bfsEnqueue allocated]. lia. }
  split; [done|]. split; [done|]. split; [done|].
  intros n rest Hq. split.
  - unfold bfsDequeue. by rewrite Hq.
  - by apply (fifo_linked_dequeue _ n).
Qed.

Section QueueRemoval.
Context `{G : Globals}.

Lemma unlink_first l1 x l2 b :
  compareStates (board_state x) b = true ->
  Forall (fun y => compareStates (board_state y) b = false) l1 ->
  unlink (l1 ++ x :: l2) b = l1 ++ l2.
Proof.
  intros Hx. induction 1 as [|y l1 Hy Hl1 IH]; cbn [unlink app].
  - by rewrite Hx.
  - by rewrite Hy, IH.
Qed.

Lemma unlink_none chain b :
  Forall (fun y => compareStates (board_state y) b = false) chain ->
  unlink chain b = chain.
Proof.
  induction 1 as [|y chain Hy Hc IH]; cbn [unlink]; [done|]. by rewrite Hy, IH.
Qed.

(** X10.  [removeNode] unlinks the first node of the queue whose board
    compares equal to the board of the node it is given, and nothing else:
    the other nodes keep their order and [bfs_fifo_tail] is not written.
    When no node compares equal the queue is left as it is. *)
Theorem removeNode_unlinks (m : memory) (nodeToRemove : STATE_NODE) :
  (forall l1 x l2,
     bfs_fifo m = l1 ++ x :: l2 ->
     compareStates (board_state x) (board_state nodeToRemove) = true ->
     Forall (fun y => compareStates (board_state y) (board_state nodeToRemove) = false) l1 ->
     removeNode m nodeToRemove = Some (with_fifo m (l1 ++ l2))) /\
  (bfs_fifo m <> [] ->
   Forall (fun y => compareStates (board_state y) (board_state nodeToRemove) = false)
          (bfs_fifo m) ->
   removeNode m nodeToRemove = Some (with_fifo m (bfs_fifo m))) /\
  (forall m', removeNode m nodeToRemove = Some m' ->
              bfs_fifo_tail m' = bfs_fifo_tail m /\ allocated m' = allocated m /\
              dfs_filo m' = dfs_filo m /\ visited m' = visited m).
Proof.
  split_and!.
  - intros l1 x l2 Hq Hx Hl1. unfold removeNode. rewrite Hq.
    destruct l1 as [|y l1]; cbn [app].
    + by rewrite Hx.
    + apply Forall_cons in Hl1 as [Hy Hl1]. rewrite Hy. by rewrite unlink_first.
  - intros Hne Hall. unfold removeNode. destruct (bfs_fifo m) as [|y chain]; [done|].
    apply Forall_cons in Hall as [Hy Hall]. rewrite Hy. by rewrite unlink_none.
  - intros m'. unfold removeNode. destruct (bfs_fifo m) as [|y chain]; [done|].
    by destruct (compareStates _ _); intros [= <-].
Qed.

(** X11.  Once [removeNode] has unlinked the last node of a queue that
    holds other nodes, [bfs_fifo_tail] still addresses the unlinked node:
    every node enqueued from then on is linked behind it and is not in the
    queue, which stays as [removeNode] left it. *)
Theorem removeNode_last_loses_nodes (m : memory) (nodeToRemove x : STATE_NODE)
    (q : list STATE_NODE) (items : list (board * option MOVE * option STATE_NODE)) :
  fifo_linked m ->
  bfs_fifo m = q ++ [x] -> q <> [] ->
  Forall (fun y => (node_addr y < allocated m)%nat) (bfs_fifo m) ->
  NoDup (node_addr <$> bfs_fifo m) ->
  compareStates (board_state x) (board_state nodeToRemove) = true ->
  Forall (fun y => compareStates (board_state y) (board_state nodeToRemove) = false) q ->
  exists m', removeNode m nodeToRemove = Some m' /\
             bfs_fifo m' = q /\
             bfs_fifo (enqueue_all m' items) = q.
Proof.
  intros Hl Hq Hne Halloc Hnd Hx Hall.
  destruct (removeNode_unlinks m nodeToRemove) as (Hrm & _ & _).
  rewrite (Hrm q x [] Hq Hx Hall), app_nil_r. eexists. split; [done|]. split; [done|].
  destruct Hl as [Hl|Hl]; [rewrite Hq in Hl; by destruct q|].
  rewrite Hq, list.last_snoc in Hl. cbn [fmap option_fmap option_map] in Hl.
  rewrite Hq, Forall_app in Halloc. destruct Halloc as [Hqa Hxa].
  apply Forall_singleton in Hxa.
  rewrite Hq, fmap_app, list.NoDup_app in Hnd. destruct Hnd as (_ & Hdisj & _).
  assert (forall m0, bfs_fifo m0 = q ->
            (exists a, bfs_fifo_tail m0 = Some a /\
                       forall y, y ∈ q -> node_addr y <> a) ->
            (forall y, y ∈ q -> (node_addr y < allocated m0)%nat) ->
            bfs_fifo (enqueue_all m0 items) = q) as Hgen.
  { unfold enqueue_all. induction items as [|[[b mv] p] items IH];
      intros m0 Hq0 (a & Ha & Hfresh) Hlt; cbn [fold_left]; [done|].
    apply IH.
    - unfold bfsEnqueue. cbn [bfs_fifo]. rewrite Hq0.
      destruct q as [|y q']; [done|]. rewrite bool_decide_eq_false_2; [done|].
      rewrite Ha. destruct (list.last (y :: q')) as [z|] eqn:Hz; [|done].
      cbn. intros [= Hza]. apply (Hfresh z); [|done]. by apply last_Some_elem_of.
    - exists (allocated m0). split; [done|]. intros y Hy. specialize (Hlt y Hy).
      cbn [new_node node_addr]. lia.
    - intros y Hy. specialize (Hlt y Hy). cbn [bfsEnqueue allocated]. lia. }
  apply Hgen.
  - done.
  - exists (node_addr x). cbn [with_fifo bfs_fifo_tail]. split; [done|].
    intros y Hy Heq. apply (Hdisj (node_addr y)).
    + apply list_elem_of_fmap. by exists y.
    + rewrite Heq. apply list_elem_of_fmap. exists x. split; [done|]. by left.
  - intros y Hy. cbn [with_fifo allocated]. rewrite list.Forall_forall in Hqa. by apply Hqa.
Qed.

End QueueRemoval.

Lemma bfs_queue_fifo_witness :
  board_state <$> bfs_fifo (enqueue_all program_start level_items)
  = (board_state <$> bfs_fifo program_start) ++ ((fun item => item.1.1) <$> level_items) /\
  fifo_linked (enqueue_all program_start level_items) /\
  allocated (enqueue_all program_start level_items)
  = (allocated program_start + length level_items)%nat /\
  forall n rest,
    bfs_fifo (enqueue_all program_start level_items) = n :: rest ->
    bfsDequeue (enqueue_all program_start level_items)
    = Some (n, with_fifo (enqueue_all program_start level_items) rest) /\
    fifo_linked (with_fifo (enqueue_all program_start level_items) rest).
Proof.
  apply (bfs_queue_fifo program_start level_items). by left.
Defined.

Lemma removeNode_last_loses_nodes_witness :
  exists m',
    @removeNode level_globals level_queue (StateNode 1 0 level_next None None) = Some m' /\
    bfs_fifo m' = [StateNode 0 0 level_board None None] /\
    bfs_fifo (enqueue_all m' [(level_twin, None, None)])
    = [StateNode 0 0 level_board None None].
Proof.
  apply (@removeNode_last_loses_nodes level_globals level_queue
           (StateNode 1 0 level_next None None) (StateNode 1 0 level_next None None)
           [StateNode 0 0 level_board None None] [(level_twin, None, None)]).
  - right. reflexivity.
  - reflexivity.
  - discriminate.
  - repeat constructor.
  - apply (bool_decide_unpack _). vm_compute. exact I.
  - reflexivity.
  - repeat constructor.
Defined.

(** * The heuristic of the A* search *)

Lemma fold_max_ge xs : forall init, init <= fold_left Z.max xs init.
Proof.
  induction xs as [|x xs IH]; intros init; cbn [fold_left]; [lia|].
  specialize (IH (Z.max init x)). lia.
Qed.

Lemma fold_max_le xs bound : forall init,
  init <= bound -> Forall (fun x => x <= bound) xs -> fold_left Z.max xs init <= bound.
Proof.
  induction xs as [|x xs IH]; intros init Hi Hxs; cbn [fold_left]; [done|].
  apply Forall_cons in Hxs as [Hx Hxs]. apply IH; [lia|done].
Qed.

Section Heuristic.
Context `{G : Globals}.

Lemma extend_fold b ps : forall e,
  let e' := fold_left (extend b) ps e in
  start_block_row e' = fold_left Z.max (label_rows b 2 ps) (start_block_row e) /\
  start_block_col e' = fold_left Z.max (label_cols b 2 ps) (start_block_col e) /\
  end_block_row e' = fold_left Z.max (label_rows b (-1) ps) (end_block_row e) /\
  end_block_col e' = fold_left Z.max (label_cols b (-1) ps) (end_block_col e).
Proof.
  induction ps as [|[i j] ps IH]; intros e; cbn [fold_left]; [done|].
  specialize (IH (extend b e (i, j))). cbn zeta in *.
  destruct IH as (-> & -> & -> & ->).
  unfold label_rows, label_cols. rewrite !filter_cons. cbn [fst snd].
  unfold extend.
  destruct (Z.eqb_spec (cell b i j) 2) as [E2|N2];
    destruct (Z.eqb_spec (cell b i j) (-1)) as [E1|N1]; try lia.
  - rewrite decide_True by done. rewrite decide_False by lia.
    cbn [fmap list_fmap fold_left fst snd start_block_row start_block_col
         end_block_row end_block_col].
    split_and!; try done; f_equal.
    + destruct (Z.ltb_spec (start_block_row e) (Z.of_nat i)); lia.
    + destruct (Z.ltb_spec (start_block_col e) (Z.of_nat j)); lia.
  - rewrite decide_False by done. rewrite decide_True by done.
    cbn [fmap list_fmap fold_left fst snd start_block_row start_block_col
         end_block_row end_block_col].
    split_and!; try done; f_equal.
    + destruct (Z.ltb_spec (end_block_row e) (Z.of_nat i)); lia.
    + destruct (Z.ltb_spec (end_block_col e) (Z.of_nat j)); lia.
  - rewrite !decide_False by done. done.
Qed.

Lemma extent_rows_range b l :
  -1 <= extent (label_rows b l (row_major board_height board_width))
  <= Z.of_nat board_height - 1.
Proof.
  unfold extent. split; [apply fold_max_ge|]. apply fold_max_le.
  - lia.
  - apply list.Forall_forall. intros x ([i j] & -> & Hin)%list_elem_of_fmap.
    apply list_elem_of_filter in Hin as [_ Hin]. apply list_elem_of_In, in_row_major in Hin.
    cbn [fst]. lia.
Qed.

Lemma extent_cols_range b l :
  -1 <= extent (label_cols b l (row_major board_height board_width))
  <= Z.of_nat board_width - 1.
Proof.
  unfold extent. split; [apply fold_max_ge|]. apply fold_max_le.
  - lia.
  - apply list.Forall_forall. intros x ([i j] & -> & Hin)%list_elem_of_fmap.
    apply list_elem_of_filter in Hin as [_ Hin]. apply list_elem_of_In, in_row_major in Hin.
    cbn [snd]. lia.
Qed.

Lemma get_heuristic_distance (b : board) : get_heuristic b = extent_distance b.
Proof.
  unfold get_heuristic, extent_distance, extent.
  destruct (extend_fold b (row_major board_height board_width)
              (Extents (-1) (-1) (-1) (-1))) as (-> & -> & -> & ->).
  cbn [start_block_row start_block_col end_block_row end_block_col].
  repeat match goal with |- context [if ?x <? 0 then _ else _] =>
    destruct (Z.ltb_spec x 0) end; lia.
Qed.

Lemma get_heuristic_range (b : board) :
  0 <= get_heuristic b <= Z.of_nat board_height + Z.of_nat board_width.
Proof.
  rewrite get_heuristic_distance. unfold extent_distance. cbn zeta.
  pose proof (extent_rows_range b 2). pose proof (extent_rows_range b (-1)).
  pose proof (extent_cols_range b 2). pose proof (extent_cols_range b (-1)).
  lia.
Qed.

(** X12.  [get_heuristic] is the distance, rows plus columns, between the
    last row and column that hold a goal cell and the last row and column
    that hold a cell of the primary block, a missing label counting as row
    and column -1; it is never negative and at most the height plus the
    width of the grid. *)
Theorem get_heuristic_extents (b : board) :
  get_heuristic b = extent_distance b /\
  0 <= get_heuristic b <= Z.of_nat board_height + Z.of_nat board_width.
Proof. split; [apply get_heuristic_distance|apply get_heuristic_range]. Qed.

End Heuristic.

(** * Equal boards *)

Section NormalizeShape.
Context `{G : Globals}.

(** X14.  [cloneGameState] returns a board that [compareStates] accepts
    as equal to the original, and on boards of the size of the grid
    [compareStates] accepts two boards exactly when they are the same. *)
Theorem compareStates_decides (a b : board) :
  rectangular a -> rectangular b ->
  (compareStates a b = true <-> a = b) /\
  compareStates (cloneGameState a) a = true /\
  cloneGameState a = a.
Proof.
  intros Ha Hb. split; [split|].
  - by apply compareStates_true.
  - intros ->. apply compareStates_refl.
  - rewrite cloneGameState_id by done. split; [apply compareStates_refl|done].
Qed.

End NormalizeShape.

Lemma compareStates_decides_witness :
  (@compareStates level_globals level_board level_twin = true <-> level_board = level_twin) /\
  @compareStates level_globals (@cloneGameState level_globals level_board) level_board = true /\
  @cloneGameState level_globals level_board = level_board.
Proof.
  apply (@compareStates_decides level_globals level_board level_twin).
  - split; [reflexivity|]. repeat constructor.
  - split; [reflexivity|]. repeat constructor.
Defined.

(** * A move and the move back *)

Lemma neighbour_opposite d i j i' j' :
  neighbour d i j = Some (i', j') -> neighbour (opposite d) i' j' = Some (i, j).
Proof.
  destruct d; cbn [neighbour opposite].
  - destruct (Nat.eqb_spec i 0); [done|]. intros [= <- <-]. f_equal. f_equal. lia.
  - intros [= <- <-]. destruct (Nat.eqb_spec (i + 1) 0); [lia|]. f_equal. f_equal. lia.
  - destruct (Nat.eqb_spec j 0); [done|]. intros [= <- <-]. f_equal. f_equal. lia.
  - intros [= <- <-]. destruct (Nat.eqb_spec (j + 1) 0); [lia|]. f_equal. f_equal. lia.
Qed.

Lemma opposite_opposite d : opposite (opposite d) = d.
Proof. by destruct d. Qed.

Section MoveBack.
Context `{G : Globals}.

(** After a legal move the block is where its cells landed, and nowhere else. *)
Lemma moved_block_cells b m b' :
  produced b m -> applyMove b m = Some b' ->
  rectangular b' /\
  (forall i j, (i < board_height)%nat -> (j < board_width)%nat ->
     cell b' i j = if stamped b m (row_major board_height board_width) i j
                   then block_num m
                   else if cell b i j =? block_num m then 0 else cell b i j) /\
  (forall i j, (i < board_height)%nat -> (j < board_width)%nat ->
     (cell b' i j = block_num m <-> covered b m i j)).
Proof.
  intros [[Hp Hmove] Hrange] Hrun.
  destruct (applyMove_spec b m Hmove) as (b'' & Hrun' & Hrect & Hcells).
  assert (b'' = b') as -> by congruence. split; [done|]. split; [done|].
  intros i j Hi Hj. rewrite Hcells by done. rewrite <- stamped_covered.
  destruct (stamped _ _ _ _ _); [done|]. split; [|done].
  destruct (Z.eqb_spec (cell b i j) (block_num m)); lia.
Qed.

(** X15.  After a legal move of a block the move of the same block in the
    opposite direction is legal.  It gives back the board as it was, except
    that the goal cells on which the block stood after the first move hold 0
    instead of -1; when the block stood on no goal cell, as for every block
    other than the primary one, the board is the same again. *)
Theorem applyMove_back (b : board) (m : MOVE) (b' : board) :
  rectangular b -> produced b m -> applyMove b m = Some b' ->
  produced b' (Move (block_num m) (opposite (direction m))) /\
  exists b'',
    applyMove b' (Move (block_num m) (opposite (direction m))) = Some b'' /\
    (forall i j, (i < board_height)%nat -> (j < board_width)%nat ->
       cell b' i j = block_num m -> cell b i j = -1 -> cell b'' i j = 0) /\
    (forall i j, (i < board_height)%nat -> (j < board_width)%nat ->
       cell b' i j <> block_num m \/ cell b i j <> -1 -> cell b'' i j = cell b i j) /\
    ((forall i j, (i < board_height)%nat -> (j < board_width)%nat ->
        cell b' i j = block_num m -> cell b i j <> -1) -> b'' = b) /\
    (block_num m <> 2 -> b'' = b).
Proof.
  intros Hrect Hprod Hrun. pose proof Hprod as [[Hp Hmove] Hrange].
  destruct (moved_block_cells b m b' Hprod Hrun) as (Hrect' & Hcells & Hblock).
  set (p := block_num m) in *. set (d := direction m) in *.
  set (back := Move p (opposite d)).
  assert (may_move b' p (opposite d)) as Hmove'.
  { intros i j Hi Hj Hc. apply Hblock in Hc as (i0 & j0 & Hi0 & Hj0 & Hc0 & Hn); [|done..].
    exists i0, j0. split; [by apply neighbour_opposite|]. split; [done|]. split; [done|].
    rewrite Hcells by done. destruct (stamped _ _ _ _ _); [by right; left|].
    fold p. rewrite Hc0, Z.eqb_refl. by left. }
  assert (produced b' back) as Hprod'.
  { split; [split|done]; [|done]. cbn [back block_num].
    apply label_present_true in Hp as (i0 & j0 & Hi0 & Hj0 & Hc0).
    destruct (Hmove i0 j0 Hi0 Hj0 Hc0) as (i & j & Hn & Hi & Hj & _).
    apply label_present_true. exists i, j. split; [done|]. split; [done|].
    apply Hblock; [done..|]. by exists i0, j0. }
  split; [done|].
  destruct (moved_block_cells b' back) with (b' := default b (applyMove b' back))
    as (Hrect'' & Hcells'' & Hblock'').
  { done. }
  { destruct (applyMove_spec b' back Hmove') as (x & -> & _). done. }
  destruct (applyMove_spec b' back Hmove') as (b'' & Hrun'' & _).
  rewrite Hrun'' in Hrect'', Hcells'', Hblock''. cbn [default] in *.
  exists b''. split; [done|].
  assert (forall i j, (i < board_height)%nat -> (j < board_width)%nat ->
            (covered b' back i j <-> cell b i j = p)) as Hcov.
  { intros i j Hi Hj. split.
    - intros (i1 & j1 & Hi1 & Hj1 & Hc1 & Hn1). cbn [back block_num direction] in *.
      apply Hblock in Hc1 as (i0 & j0 & Hi0 & Hj0 & Hc0 & Hn0); [|done..].
      apply neighbour_opposite in Hn0. fold d in Hn0. rewrite Hn0 in Hn1.
      by injection Hn1 as <- <-.
    - intros Hc. destruct (Hmove i j Hi Hj Hc) as (i1 & j1 & Hn & Hi1 & Hj1 & _).
      exists i1, j1. split; [done|]. split; [done|]. cbn [back block_num direction].
      split; [|by apply neighbour_opposite].
      apply Hblock; [done..|]. by exists i, j. }
  assert (forall i j, (i < board_height)%nat -> (j < board_width)%nat ->
            cell b'' i j = if cell b i j =? p then p
                           else if cell b' i j =? p then 0 else cell b i j) as Hfinal.
  { intros i j Hi Hj. rewrite Hcells'' by done. cbn [back block_num].
    destruct (stamped b' back _ i j) eqn:Hst.
    - apply stamped_covered, Hcov in Hst; [|done..]. by rewrite Hst, Z.eqb_refl.
    - assert (cell b i j <> p) as Hne.
      { intros Hc. apply Hcov, stamped_covered in Hc; [|done..]. congruence. }
      destruct (Z.eqb_spec (cell b i j) p); [done|].
      destruct (Z.eqb_spec (cell b' i j) p) as [Hc'|Hc']; [done|].
      rewrite Hcells in Hc' |- * by done. destruct (stamped b m _ i j); [done|].
      fold p. by destruct (Z.eqb_spec (cell b i j) p). }
  assert (forall i j, (i < board_height)%nat -> (j < board_width)%nat ->
            cell b' i j = p -> cell b i j <> p -> cell b i j = 0 \/ cell b i j = -1) as Hland.
  { intros i j Hi Hj Hc' Hne. apply Hblock in Hc' as (i0 & j0 & Hi0 & Hj0 & Hc0 & Hn0); [|done..].
    destruct (Hmove i0 j0 Hi0 Hj0 Hc0) as (i1 & j1 & Hn & _ & _ & Hpass).
    fold d in Hn0. rewrite Hn0 in Hn. injection Hn as <- <-.
    destruct Hpass as [?|[?|[_ ?]]]; [by left|done|by right]. }
  assert ((forall i j, (i < board_height)%nat -> (j < board_width)%nat ->
             cell b' i j = p -> cell b i j <> -1) -> b'' = b) as Hsame.
  { intros Hgoal. destruct Hrect as [Hh Hw]. destruct Hrect'' as [Hh'' Hw''].
    apply board_ext with board_height board_width; [done..|].
    intros i j Hi Hj. rewrite Hfinal by done.
    destruct (Z.eqb_spec (cell b i j) p) as [->|Hne]; [done|].
    destruct (Z.eqb_spec (cell b' i j) p) as [Hc'|Hc']; [|done].
    destruct (Hland i j Hi Hj Hc' Hne) as [->|Hg]; [done|].
    by destruct (Hgoal i j Hi Hj Hc'). }
  split_and!.
  - intros i j Hi Hj Hc' Hg. rewrite Hfinal by done.
    destruct (Z.eqb_spec (cell b i j) p) as [Hc|Hc]; [lia|]. by rewrite Hc', Z.eqb_refl.
  - intros i j Hi Hj Hor. rewrite Hfinal by done.
    destruct (Z.eqb_spec (cell b i j) p) as [->|Hne]; [done|].
    destruct (Z.eqb_spec (cell b' i j) p) as [Hc'|Hc']; [|done].
    destruct (Hland i j Hi Hj Hc' Hne) as [->|Hg]; [done|]. by destruct Hor.
  - exact Hsame.
  - intros Hp2. apply Hsame. intros i j Hi Hj Hc' Hg.
    apply Hblock in Hc' as (i0 & j0 & Hi0 & Hj0 & Hc0 & Hn0); [|done..].
    destruct (Hmove i0 j0 Hi0 Hj0 Hc0) as (i1 & j1 & Hn & _ & _ & Hpass).
    fold d in Hn0. rewrite Hn0 in Hn. injection Hn as <- <-.
    destruct Hpass as [?|[?|[? _]]]; lia.
Qed.

End MoveBack.

Lemma applyMove_back_witness :
  @produced level_globals level_moved (Move 4 RIGHT) /\
  exists b'',
    @applyMove level_globals level_moved (Move 4 RIGHT) = Some b'' /\
    (forall i j, (i < @board_height level_globals)%nat -> (j < @board_width level_globals)%nat ->
       cell level_moved i j = 4 -> cell level_board i j = -1 -> cell b'' i j = 0) /\
    (forall i j, (i < @board_height level_globals)%nat -> (j < @board_width level_globals)%nat ->
       cell level_moved i j <> 4 \/ cell level_board i j <> -1 ->
       cell b'' i j = cell level_board i j) /\
    ((forall i j, (i < @board_height level_globals)%nat ->
                  (j < @board_width level_globals)%nat ->
        cell level_moved i j = 4 -> cell level_board i j <> -1) -> b'' = level_board) /\
    (4 <> 2 -> b'' = level_board).
Proof.
  apply (@applyMove_back level_globals level_board (Move 4 LEFT) level_moved).
  - split; [reflexivity|]. repeat constructor.
  - split; [split; [reflexivity|apply legal_flag_iff; reflexivity]|].
    vm_compute. split; discriminate.
  - reflexivity.
Defined.

(** * What a move preserves *)

Section StepInvariants.
Context `{G : Globals}.

(** X22.  [applyMove] with a move the generator produces leads from a
    well-formed board to a well-formed board with the same walls: every
    index stays within the grid, and a cell holds 1 afterwards exactly when
    it did before.  No goal cell is created, so that a solved board stays
    solved, and the primary block stays on the board. *)
Theorem applyMove_preserves (b : board) (mv : MOVE) :
  well_formed b -> produced b mv ->
  exists nb,
    applyMove b mv = Some nb /\
    well_formed nb /\
    (forall i j, (i < board_height)%nat -> (j < board_width)%nat ->
       (cell nb i j = 1 <-> cell b i j = 1)) /\
    (forall i j, (i < board_height)%nat -> (j < board_width)%nat ->
       cell nb i j = -1 -> cell b i j = -1) /\
    (checkGameComplete b = true -> checkGameComplete nb = true) /\
    (label_present b 2 = true -> label_present nb 2 = true).
Proof.
  intros Hwf Hprod. pose proof Hprod as [[Hp Hmove] Hrange].
  destruct (applyMove_spec b mv Hmove) as (b' & Hrun & _ & _).
  assert (well_formed b') as Hwf'.
  { apply (applyMove_well_formed b mv); [lia|done|done|done]. }
  exists b'. split; [done|]. split; [done|].
  destruct (moved_block_cells b mv b' Hprod Hrun) as (_ & Hcells & Hblock).
  assert (forall i j, (i < board_height)%nat -> (j < board_width)%nat ->
            covered b mv i j -> passable (block_num mv) (cell b i j)) as Hland.
  { intros i j Hi Hj (i0 & j0 & Hi0 & Hj0 & Hc0 & Hn0).
    destruct (Hmove i0 j0 Hi0 Hj0 Hc0) as (i1 & j1 & Hn & _ & _ & Hpass).
    rewrite Hn0 in Hn. by injection Hn as <- <-. }
  assert (forall i j, (i < board_height)%nat -> (j < board_width)%nat ->
            (cell b' i j = 1 <-> cell b i j = 1) /\
            (cell b' i j = -1 -> cell b i j = -1)) as Hcell.
  { intros i j Hi Hj. rewrite Hcells by done.
    destruct (stamped b mv _ i j) eqn:Hst.
    - apply stamped_covered in Hst. pose proof (Hland i j Hi Hj Hst) as Hpass.
      unfold passable in Hpass. split; [split|]; lia.
    - destruct (Z.eqb_spec (cell b i j) (block_num mv)); split; try split; lia. }
  split_and!.
  - intros i j Hi Hj. by apply Hcell.
  - intros i j Hi Hj Hc. by apply Hcell.
  - intros Hdone. by apply (applyMove_complete b mv).
  - rewrite !label_present_true. intros (i & j & Hi & Hj & Hc).
    destruct (decide (block_num mv = 2)) as [H2|H2].
    + destruct (Hmove i j Hi Hj ltac:(lia)) as (i1 & j1 & Hn & Hi1 & Hj1 & _).
      exists i1, j1. split; [done|]. split; [done|].
      rewrite <- H2. apply Hblock; [done|done|]. exists i, j. split_and!; [done|done|lia|done].
    + exists i, j. split; [done|]. split; [done|].
      rewrite Hcells by done. destruct (stamped b mv _ i j) eqn:Hst.
      * apply stamped_covered in Hst. destruct (Hland i j Hi Hj Hst) as [?|[?|[? _]]]; lia.
      * destruct (Z.eqb_spec (cell b i j) (block_num mv)); lia.
Qed.

End StepInvariants.

Lemma applyMove_preserves_witness :
  exists nb,
    @applyMove level_globals level_board (Move 2 LEFT) = Some nb /\
    @well_formed level_globals nb /\
    (forall i j, (i < @board_height level_globals)%nat -> (j < @board_width level_globals)%nat ->
       (cell nb i j = 1 <-> cell level_board i j = 1)) /\
    (forall i j, (i < @board_height level_globals)%nat -> (j < @board_width level_globals)%nat ->
       cell nb i j = -1 -> cell level_board i j = -1) /\
    (@checkGameComplete level_globals level_board = true ->
     @checkGameComplete level_globals nb = true) /\
    (@label_present level_globals level_board 2 = true ->
     @label_present level_globals nb 2 = true).
Proof.
  apply (@applyMove_preserves level_globals level_board (Move 2 LEFT)).
  - apply well_formedb_spec. reflexivity.
  - split; [split; [reflexivity|apply legal_flag_iff; reflexivity]|].
    vm_compute. split; discriminate.
Defined.

(** * The drivers on other roots *)

Section DriverExtras.
Context `{G : Globals}.

(** X16.  On a well-formed board on which the move generator finds no
    move, solved or not, breadth-first search, depth-first search and
    depth-limited search with any limit take the root from the frontier,
    generate nothing and return -1 in the second iteration of their loop;
    so does A* when the estimate of the root is below
    [WORST_CASE_DISTANCE]. *)
Theorem searches_report_no_solution (b : board) (m : memory) (max_depth : Z)
    (fuel : nat) :
  well_formed b -> keys_fit -> getAllAvailableMoves b = Some [] ->
  bfs_fifo m = [] -> dfs_filo m = [] ->
  (exists m', breadthFirstSearch (S (S fuel)) m b = Returned (-1) m') /\
  (exists m', depthFirstSearch (S (S fuel)) m b = Returned (-1) m') /\
  (exists m', depthLimitedSearch (S (S fuel)) m b max_depth = Returned (-1) m') /\
  (get_heuristic b < WORST_CASE_DISTANCE ->
   exists m', aStarSearch (S (S fuel)) m b = Returned (-1) m').
Proof.
  intros Hb Hfit Hmoves Hqueue Hstack. split_and!.
  - destruct (bfs_no_moves b m fuel Hb Hfit Hmoves Hqueue) as (m' & Hm & _).
    by exists m'.
  - destruct (dfs_no_moves b m fuel false 0 Hb Hfit Hmoves Hstack) as (m' & Hm & _).
    by exists m'.
  - destruct (dfs_no_moves b m fuel true max_depth Hb Hfit Hmoves Hstack)
      as (m' & Hm & _). by exists m'.
  - intros Hh. by apply astar_no_moves.
Qed.

(** X17.  On the same boards [interativeDeepeningSearch] does not return:
    every round returns -1 and the loop goes on.  With a bound on the
    rounds within the [int] range the bound is exhausted; beyond it the
    increment of the depth counter overflows. *)
Theorem interativeDeepeningSearch_never_returns (b : board) (rounds fuel : nat) :
  well_formed b -> keys_fit -> getAllAvailableMoves b = Some [] ->
  (forall cost m,
     interativeDeepeningSearch rounds fuel program_start b <> Returned cost m) /\
  (Z.of_nat rounds <= INT_MAX ->
   interativeDeepeningSearch rounds fuel program_start b = OutOfFuel) /\
  (INT_MAX < Z.of_nat rounds -> (2 <= fuel)%nat ->
   interativeDeepeningSearch rounds fuel program_start b = Undefined).
Proof.
  intros Hb Hfit Hmoves.
  destruct (ids_loop_no_moves b fuel rounds program_start 0 Hb Hfit Hmoves eq_refl
              initStateHashTable_live) as [Hnever Hout].
  split; [exact Hnever|]. split; [intros Hrounds; apply Hout; lia|].
  intros Hrounds Hfuel. destruct fuel as [|[|fuel]]; [lia|lia|].
  apply (ids_loop_overflow b fuel rounds program_start 0 Hb Hfit Hmoves eq_refl
           initStateHashTable_live); [done|lia].
Qed.

(** X24.  On a board with a legal move, depth-first search, depth-limited
    search with a limit of at least 1 and A* expand the root in their first
    iteration, generate a successor and normalize it: the write past the
    tables of [normalizeState] leaves them without a defined result,
    whatever the globals were before the call. *)
Theorem searches_overrun (b : board) (mv : MOVE) (m : memory) (max_depth : Z)
    (fuel : nat) :
  produced b mv ->
  depthFirstSearch (S fuel) m b = Undefined /\
  (1 <= max_depth -> depthLimitedSearch (S fuel) m b max_depth = Undefined) /\
  aStarSearch (S fuel) m b = Undefined.
Proof.
  intros Hmv. split_and!.
  - by apply (dfs_overruns b mv).
  - intros Hlimit. apply (dfs_overruns b mv); [done|].
    cbn [negb orb]. apply Z.ltb_lt. lia.
  - by apply (astar_overruns b mv).
Qed.

(** X25.  With a limit of zero or less [depthLimitedSearch] pops the root,
    whose cost is 0, does not expand it, and returns -1: also on a board
    that has a solution. *)
Theorem depthLimitedSearch_zero_limit (b : board) (m : memory) (max_depth : Z)
    (fuel : nat) :
  well_formed b -> keys_fit -> max_depth <= 0 -> dfs_filo m = [] ->
  exists m', depthLimitedSearch (S (S fuel)) m b max_depth = Returned (-1) m'.
Proof. intros Hb Hfit Hlimit Hstack. by apply dfs_zero_limit. Qed.

End DriverExtras.

(** * The table after [resetHashTable] *)

Lemma free_chain_slots slots slots' :
  mapM free_chain slots = Some slots' ->
  forall i s, slots !! i = Some s -> slots' !! i = free_chain s.
Proof.
  intros Hall%mapM_Some_1 i s Hs.
  destruct (Forall2_lookup_l _ _ _ _ _ Hall Hs) as (s' & Hs' & Hfree). by rewrite Hs'.
Qed.

(** X26.  [resetHashTable] frees the nodes and clears the counter, but
    leaves the slots pointing to the freed nodes.  After a key was
    inserted and the table reset, a lookup, an insertion or an update of
    that key follows a dangling pointer, and a second [resetHashTable]
    frees the nodes again; the keys of the slots that were empty are still
    looked up with the result -1. *)
Theorem resetHashTable_leaves_dangling (t : state_table) (k : list Z) (v : Z)
    (t' : state_table) :
  table_live t -> insertIntoStateHashTable t k v = Some t' ->
  exists r,
    resetHashTable t' = Some r /\
    hash_table_node_count r = 0 /\
    getHashTableValue r k = None /\
    insertIntoStateHashTable r k v = None /\
    updateHashTableValue r k v = None /\
    resetHashTable r = None /\
    (forall k' index, getHashKeyIndex k' = Some index -> slot_chain t' index = Some [] ->
                      getHashTableValue r k' = Some (-1)).
Proof.
  intros Hlive Hins. pose proof (insertIntoStateHashTable_live _ _ _ _ Hlive Hins) as Hlive'.
  destruct (resetHashTable_live _ Hlive') as [r Hr]. exists r. split; [done|].
  unfold resetHashTable in Hr.
  destruct (mapM free_chain (state_hashtable t')) as [slots|] eqn:Hslots; [|done].
  cbn [mbind option_bind] in Hr. injection Hr as <-. split; [done|].
  destruct (insertIntoStateHashTable_inv _ _ _ _ Hins)
    as (index & chain & slots0 & Hi & Hc & Hs & ->).
  assert (slot_chain (StateTable slots0 (hash_table_node_count t + 1)) index
          = Some (chain ++ [HashNode k v])) as Hnew.
  { by rewrite (slot_chain_set _ _ _ _ _ _ Hs), decide_True. }
  apply slot_chain_Some in Hnew as [Hpos Hnew]. cbn [state_hashtable] in *.
  pose proof (free_chain_slots _ _ Hslots _ _ Hnew) as Hfreed.
  assert (free_chain (Chain (chain ++ [HashNode k v])) = Some Freed) as Hf
    by by destruct chain.
  rewrite Hf in Hfreed.
  assert (slot_chain (StateTable slots 0) index = None) as Hdangling.
  { unfold slot_chain. cbn [state_hashtable].
    assert (table_get slots index = Some Freed) as -> by by apply table_get_Some.
    done. }
  split_and!.
  - unfold getHashTableValue. rewrite Hi. cbn [mbind option_bind]. by rewrite Hdangling.
  - unfold insertIntoStateHashTable. rewrite Hi. cbn [mbind option_bind].
    by rewrite Hdangling.
  - unfold updateHashTableValue. rewrite Hi. cbn [mbind option_bind]. by rewrite Hdangling.
  - unfold resetHashTable. cbn [state_hashtable].
    destruct (mapM free_chain slots) as [slots'|] eqn:Hagain; [|done].
    assert (is_Some (mapM free_chain slots)) as Hsome by by eexists.
    apply mapM_is_Some in Hsome.
    apply list_elem_of_lookup_2 in Hfreed.
    by destruct (proj1 (list.Forall_forall _ _) Hsome _ Hfreed).
  - intros k' index' Hi' [Hpos' Hempty]%slot_chain_Some.
    pose proof (free_chain_slots _ _ Hslots _ _ Hempty) as Hkept. cbn [free_chain] in Hkept.
    unfold getHashTableValue. rewrite Hi'. cbn [mbind option_bind].
    assert (slot_chain (StateTable slots 0) index' = Some []) as ->
      by by apply slot_chain_Some.
    done.
Qed.

(** ** Instances *)

Lemma stuck_keys_fit : @keys_fit stuck_globals.
Proof. split; vm_compute; [discriminate|]. split; discriminate. Qed.

Lemma crowded_keys_fit : @keys_fit crowded_globals.
Proof. split; vm_compute; [discriminate|]. split; discriminate. Qed.

Lemma crowded_move : @produced crowded_globals crowded_board (Move 2 LEFT).
Proof.
  split; [split; [reflexivity|apply legal_flag_iff; reflexivity]|].
  vm_compute. split; discriminate.
Qed.

Lemma searches_report_no_solution_witness :
  (exists m', @breadthFirstSearch stuck_globals 2 program_start stuck_board
              = Returned (-1) m') /\
  (exists m', @depthFirstSearch stuck_globals 2 program_start stuck_board
              = Returned (-1) m') /\
  (exists m', @depthLimitedSearch stuck_globals 2 program_start stuck_board 3
              = Returned (-1) m') /\
  (@get_heuristic stuck_globals stuck_board < WORST_CASE_DISTANCE ->
   exists m', @aStarSearch stuck_globals 2 program_start stuck_board = Returned (-1) m').
Proof.
  apply (@searches_report_no_solution stuck_globals stuck_board program_start 3 0).
  - apply well_formedb_spec. reflexivity.
  - exact stuck_keys_fit.
  - reflexivity.
  - reflexivity.
  - reflexivity.
Defined.

Lemma interativeDeepeningSearch_never_returns_witness :
  @interativeDeepeningSearch sealed_globals 7 5 program_start sealed_board = OutOfFuel.
Proof.
  destruct (@interativeDeepeningSearch_never_returns sealed_globals sealed_board 7 5)
    as (_ & Hout & _).
  - apply well_formedb_spec. reflexivity.
  - split; vm_compute; [discriminate|]. split; discriminate.
  - reflexivity.
  - apply Hout. vm_compute. discriminate.
Defined.

Lemma searches_overrun_witness :
  @depthFirstSearch crowded_globals 1 program_start crowded_board = Undefined /\
  (1 <= 1 ->
   @depthLimitedSearch crowded_globals 1 program_start crowded_board 1 = Undefined) /\
  @aStarSearch crowded_globals 1 program_start crowded_board = Undefined.
Proof.
  apply (@searches_overrun crowded_globals crowded_board (Move 2 LEFT) program_start 1 0).
  exact crowded_move.
Defined.

Lemma depthLimitedSearch_zero_limit_witness :
  exists m', @depthLimitedSearch crowded_globals 2 program_start crowded_board 0
             = Returned (-1) m'.
Proof.
  apply (@depthLimitedSearch_zero_limit crowded_globals crowded_board program_start 0 0).
  - apply well_formedb_spec. reflexivity.
  - exact crowded_keys_fit.
  - lia.
  - reflexivity.
Defined.

Lemma resetHashTable_leaves_dangling_witness :
  exists r,
    resetHashTable level_table = Some r /\
    getHashTableValue r level_next_key = None /\
    resetHashTable r = None /\
    getHashTableValue r [65; 67] = Some (-1).
Proof.
  destruct (resetHashTable_leaves_dangling initStateHashTable level_next_key 3 level_table)
    as (r & Hr & _ & Hget & _ & _ & Hagain & Hempty).
  - apply initStateHashTable_live.
  - exact level_table_built.
  - exists r. split; [exact Hr|]. split; [exact Hget|]. split; [exact Hagain|].
    apply (Hempty [65; 67] 199); reflexivity.
Defined.

